(** * Token-bucket rate limiter of [fiber/middleware/ratelimit.go]

    A shallow embedding of [RateLimiter.take] with its two helpers
    [cleanupStaleBuckets] and [evictOldestBucket], and the properties the
    specification states about them.  The file goes on with the code around
    the limiter: the middleware [RateLimitMiddlewareWithConfig] that calls
    it, the package [metrics] whose counters the middleware moves, the
    middleware [Metrics], and the package [contextx] from which [Metrics]
    reads the tenant.

    Modelling conventions.
    - [time.Time] values carry a monotonic clock reading; a [Time] is that
      reading in nanoseconds, a [Duration] is Go's [int64] nanosecond count.
      [time.Now()] is the explicit argument [now] of [take].
    - [float64] values are modelled by the rational numbers they denote and
      the float operations by the exact operations of [Q].  The conversion of
      a float to [time.Duration] truncates toward zero; where Go leaves its
      result to the implementation (an infinite or out-of-range operand) the
      result is the parameter [float_conv_invalid].  The nanosecond counts
      the counterexamples rest on are recomputed in IEEE binary64 at the end
      of the file.
    - [map[string]*bucket] is a [gmap string bucket]; writing through the
      pointer [b] is an insertion at [key].  The order in which [range]
      visits a map is not specified by Go: it is the parameter [range_order],
      assumed in the proofs to enumerate the entries of the map, each once.
    - A [uint64] is an integer taken modulo [2 ^ 64]; the atomic operations
      of [metrics] are modelled one caller at a time.  Strings are strings
      of bytes, ordered as Go orders them. *)

From Stdlib Require Import ZArith QArith Qround Lia Ascii.
From Stdlib Require Import Floats.PrimFloat Floats.SpecFloat Floats.FloatOps.
From Stdlib Require Import Numbers.Cyclic.Int63.Uint63.
From stdpp Require Import base gmap strings list fin_maps pretty sorting.

Local Open Scope Z_scope.

(** ** Time and durations (package [time]) *)

Abbreviation Time := Z (only parsing).
Abbreviation Duration := Z (only parsing).

Definition Second : Duration := 1000000000.
Definition Minute : Duration := 60 * Second.

Definition minDuration : Duration := - 2 ^ 63.
Definition maxDuration : Duration := 2 ^ 63 - 1.

(** [t.Sub(u)]: the difference, saturated to the range of an [int64]. *)
Definition Sub (t u : Time) : Duration :=
  if t - u <? minDuration then minDuration
  else if maxDuration <? t - u then maxDuration
  else t - u.

(** [t.Add(d)]. *)
Definition Add (t : Time) (d : Duration) : Time := t + d.

(** [t.Before(u)]. *)
Definition Before (t u : Time) : bool := t <? u.

(** [d.Minutes()]: [float64(d / Minute) + float64(d % Minute) / (60 * 1e9)]. *)
Definition Minutes (d : Duration) : Q :=
  (inject_Z (Z.quot d Minute) + inject_Z (Z.rem d Minute) / inject_Z (60 * 1000000000))%Q.

(** ** Float helpers *)

Definition Qltb (x y : Q) : bool := negb (Qle_bool y x).

(** Truncation toward zero, the integer part a float-to-integer conversion
    keeps. *)
Definition Qtrunc (q : Q) : Z := Z.quot (Qnum q) (Z.pos (Qden q)).

(** ** binary64, for cross-checking concrete values *)

(** [float64(n)] for a small non-negative integer [n]. *)
Definition f64 (n : Z) : float := of_uint63 (Uint63.of_Z n).

(** [int64(x)] for a finite float of moderate size: truncation toward
    zero. *)
Definition f64_to_int (x : float) : option Z :=
  match Prim2SF x with
  | S754_zero _ => Some 0
  | S754_finite s m e =>
      let v := if 0 <=? e then Z.pos m * 2 ^ e else Z.quot (Z.pos m) (2 ^ (- e)) in
      Some (if s then - v else v)
  | _ => None
  end.

(** Line 127-129 of [take] in binary64, for [tokens] and [rate] small
    non-negative integers. *)
Definition retry_binary64 (tokens rate : Z) : option Z :=
  let deficit := PrimFloat.sub (f64 1) (f64 tokens) in
  let minutes := PrimFloat.div deficit (f64 rate) in
  f64_to_int (PrimFloat.mul minutes (f64 Minute)).

(** ** Constants of the limiter ([ratelimit.go], lines 12-16) *)

Definition defaultMaxBuckets : Z := 10000.
Definition bucketCleanupInterval : Duration := 5 * Minute.
Definition bucketInactiveThreshold : Duration := 15 * Minute.

(** ** Data model (lines 24-37) *)

Record bucket : Type := mkBucket {
  tokens : Q;        (* current token count *)
  last : Time;       (* last refill time *)
  accessed : Time    (* last access time *)
}.

Record RateLimiter : Type := mkRateLimiter {
  buckets : gmap string bucket;
  ratePerMin : Z;
  maxBuckets : Z;
  lastCleanup : Time
}.

(** [NewRateLimiter] (lines 48-58); [now] is the reading of [time.Now()]. *)
Definition NewRateLimiter (rate : Z) (now : Time) : RateLimiter :=
  let rate := if rate <=? 0 then 600 else rate in
  {| buckets := ∅;
     ratePerMin := rate;
     maxBuckets := defaultMaxBuckets;
     lastCleanup := now |}.

(** The limiter with its bucket table replaced. *)
Definition with_buckets (rl : RateLimiter) (bs : gmap string bucket) : RateLimiter :=
  {| buckets := bs;
     ratePerMin := ratePerMin rl;
     maxBuckets := maxBuckets rl;
     lastCleanup := lastCleanup rl |}.

(** [len(rl.buckets)]. *)
Definition len (bs : gmap string bucket) : Z := Z.of_nat (size bs).

(** What Go leaves to the implementation. *)
Class GoRuntime : Type := {
  (** order in which a [range] loop visits the entries of a map *)
  range_order : gmap string bucket → list (string * bucket);
  (** result of converting an infinite or out-of-range float to [int64];
      the argument tells whether the float is positive *)
  float_conv_invalid : bool → Duration
}.

Section Limiter.

Context {rt : GoRuntime}.

(** The loop of [cleanupStaleBuckets] (lines 141-145) over the entries [l],
    starting from the table [m]. *)
Definition cleanup_loop (threshold : Time) (m : gmap string bucket)
    (l : list (string * bucket)) : gmap string bucket :=
  foldl (λ m '(key, b), if Before (accessed b) threshold then delete key m else m) m l.

(** [cleanupStaleBuckets] (lines 139-146). *)
Definition cleanupStaleBuckets (bs : gmap string bucket) (now : Time) : gmap string bucket :=
  let threshold := Add now (- bucketInactiveThreshold) in
  cleanup_loop threshold bs (range_order bs).

(** The loop of [evictOldestBucket] (lines 155-161): its state is
    [(oldestKey, oldestTime, first)]. *)
Definition scan_loop (st : string * Time * bool) (l : list (string * bucket))
  : string * Time * bool :=
  foldl (λ '(oldestKey, oldestTime, first) '(key, b),
           if first || Before (accessed b) oldestTime
           then (key, accessed b, false)
           else (oldestKey, oldestTime, first))
        st l.

(** [evictOldestBucket] (lines 150-168): the table after the call and the
    boolean it returns.  The zero [time.Time] of [oldestTime] is never read:
    [first] short-circuits the comparison. *)
Definition evictOldestBucket (bs : gmap string bucket) (now : Time) : gmap string bucket * bool :=
  let '(oldestKey, _, _) := scan_loop (""%string, 0, true) (range_order bs) in
  if negb (String.eqb oldestKey "")
  then (delete oldestKey bs, true)
  else (bs, false).

(** Lines 70-74 of [take]: the periodic sweep. *)
Definition sweep (rl : RateLimiter) (now : Time) : RateLimiter :=
  if bucketCleanupInterval <? Sub now (lastCleanup rl)
  then {| buckets := cleanupStaleBuckets (buckets rl) now;
          ratePerMin := ratePerMin rl;
          maxBuckets := maxBuckets rl;
          lastCleanup := now |}
  else rl.

(** Burst capacity of a new bucket (lines 89-92): integer division, then the
    floor at 1. *)
Definition dynBurst (rate : Z) : Z :=
  let d := Z.quot rate 2 in
  if d <? 1 then 1 else d.

(** Cap of the refill (lines 110-113): the floor is applied to the float. *)
Definition maxTokens (rate : Z) : Q :=
  let m := inject_Z (Z.quot rate 2) in
  if Qltb m 1 then 1%Q else m.

(** Lines 77-99 of [take]: get or create the bucket.  [None] is the early
    return of line 84; otherwise the table (after a possible eviction and
    the insertion) and the bucket [b] points to. *)
Definition resolve (bs : gmap string bucket) (maxB : Z) (key : string) (rate : Z) (now : Time)
  : option (gmap string bucket * bucket) :=
  match bs !! key with
  | Some b => Some (bs, b)
  | None =>
      let fresh := {| tokens := inject_Z (dynBurst rate); last := now; accessed := now |} in
      if maxB <=? len bs then
        match evictOldestBucket bs now with
        | (bs', true) => Some (<[key := fresh]> bs', fresh)
        | (_, false) => None
        end
      else Some (<[key := fresh]> bs, fresh)
  end.

(** Lines 101-118 of [take]: touch and refill. *)
Definition refill (b : bucket) (rate : Z) (now : Time) : bucket :=
  let b := {| tokens := tokens b; last := last b; accessed := now |} in
  let elapsed := Minutes (Sub now (last b)) in
  if Qltb 0 elapsed then
    let t := (tokens b + elapsed * inject_Z rate)%Q in
    let t := if Qltb (maxTokens rate) t then maxTokens rate else t in
    {| tokens := t; last := now; accessed := accessed b |}
  else b.

(** [time.Duration(x)] for a float [x]; [None] stands for an infinite [x]
    (a positive one: the only one [take] can produce). *)
Definition duration_of_float (x : option Q) : Duration :=
  match x with
  | None => float_conv_invalid true
  | Some q =>
      let d := Qtrunc q in
      if (d <? minDuration) || (maxDuration <? d)
      then float_conv_invalid (Qltb 0 q)
      else d
  end.

(** Lines 126-132 of [take]: the retry hint for a bucket holding [t < 1]
    tokens.  A zero rate makes [deficit / float64(rate)] infinite. *)
Definition retry_after (t : Q) (rate : Z) : Duration :=
  let deficit := (1 - t)%Q in
  let product :=
    if rate =? 0 then None
    else Some (deficit / inject_Z rate * inject_Z Minute)%Q in
  let retry := duration_of_float product in
  if retry <? Second then Second else retry.

(** [take] (lines 64-135): the limiter after the call, and the pair
    [(allowed, retryAfter)] it returns. *)
Definition take (rl : RateLimiter) (key : string) (rate : Z) (now : Time)
  : RateLimiter * (bool * Duration) :=
  let rl := sweep rl now in
  match resolve (buckets rl) (maxBuckets rl) key rate now with
  | None => (rl, (false, Minute))
  | Some (bs, b) =>
      let b := refill b rate now in
      if Qle_bool 1 (tokens b) then
        let b := {| tokens := (tokens b - 1)%Q; last := last b; accessed := accessed b |} in
        (with_buckets rl (<[key := b]> bs), (true, 0))
      else
        (with_buckets rl (<[key := b]> bs), (false, retry_after (tokens b) rate))
  end.

(** Lines 88-134 of [take] on the bucket of the key alone, when no eviction
    is called for: from the bucket found after the sweep ([None]: a new one
    is created) to the bucket stored and the pair returned. *)
Definition serve (found : option bucket) (rate : Z) (now : Time) : bucket * (bool * Duration) :=
  let b :=
    match found with
    | Some b => b
    | None => {| tokens := inject_Z (dynBurst rate); last := now; accessed := now |}
    end in
  let b := refill b rate now in
  if Qle_bool 1 (tokens b) then
    ({| tokens := (tokens b - 1)%Q; last := last b; accessed := accessed b |}, (true, 0))
  else
    (b, (false, retry_after (tokens b) rate)).

(** Lines 64-118 of [take]: the bucket as it stands when line 121 decides,
    or [None] when the call has already returned at line 84. *)
Definition at_decision (rl : RateLimiter) (key : string) (rate : Z) (now : Time)
  : option bucket :=
  let rl := sweep rl now in
  match resolve (buckets rl) (maxBuckets rl) key rate now with
  | None => None
  | Some (_, b) => Some (refill b rate now)
  end.

End Limiter.

(** ** Sequences of calls *)

(** One call of [take]: key, rate, and the clock reading at the call. *)
Definition call : Type := string * Z * Time.

Section Runs.

Context {rt : GoRuntime}.

(** The calls of a list in order, on one shared limiter: the final limiter
    and the results, in call order. *)
Fixpoint run (rl : RateLimiter) (calls : list call) : RateLimiter * list (bool * Duration) :=
  match calls with
  | [] => (rl, [])
  | (key, rate, now) :: rest =>
      let '(rl', r) := take rl key rate now in
      let '(rl'', rs) := run rl' rest in
      (rl'', r :: rs)
  end.

End Runs.

(** A concrete runtime for evaluating examples: [range] enumerates the map
    as [map_to_list] does, and an invalid float conversion yields the
    smallest [int64], as the amd64 conversion instruction does. *)
Definition ref_runtime : GoRuntime :=
  {| range_order := map_to_list; float_conv_invalid := λ _, minDuration |}.


(** ** Predicates of the specification *)

(** Burst capacity [max(1, rate/2)] of the specification. *)
Definition burstCapacity (rate : Z) : Z := Z.max 1 (Z.quot rate 2).




(** The bucket of [key] holds [n] tokens and was refilled and accessed at
    [now], and a call at [now] does not sweep the table. *)
Definition holds_at (rl : RateLimiter) (key : string) (now : Time) (n : Z) : Prop :=
  ∃ b, buckets rl !! key = Some b ∧ (tokens b == inject_Z n)%Q ∧
       last b = now ∧ accessed b = now ∧
       now - lastCleanup rl <= bucketCleanupInterval.

(** [b] has an oldest access time among the buckets of [bs]. *)
Definition oldest_in (bs : gmap string bucket) (b : bucket) : Prop :=
  ∀ k' b', bs !! k' = Some b' → accessed b <= accessed b'.

(** The exact wait, in nanoseconds, for a deficit of [1 - x] tokens at
    [rate] tokens per minute. *)
Definition deficit_wait (x : Q) (rate : Z) : Q :=
  ((1 - x) / inject_Z rate * inject_Z Minute)%Q.

(** The keys of a list of calls, in call order. *)
Definition keys_of (l : list call) : list string := l.*1.*1.

(** No call of the list comes more than the cleanup interval after [since]:
    none triggers a sweep on a limiter last swept at [since]. *)
Definition no_sweep_due (since : Time) (l : list call) : Prop :=
  Forall (λ c : call, c.2 - since <= bucketCleanupInterval) l.

(** The calls of a list that are for the key [A], in their order. *)
Definition calls_for (A : string) (l : list call) : list call :=
  filter (λ c : call, c.1.1 = A) l.

(** The answers, among the results [rs] of the calls [l], to the calls for
    the key [A]. *)
Definition answers_for (A : string) (l : list call) (rs : list (bool * Duration))
  : list (bool * Duration) :=
  (filter (λ cr : call * (bool * Duration), cr.1.1.1 = A) (zip l rs)).*2.

(** The clock readings of the calls never go back, starting at [since]. *)
Fixpoint clock_advances (since : Time) (l : list call) : Prop :=
  match l with
  | [] => True
  | c :: l' => since <= c.2 ∧ clock_advances c.2 l'
  end.

(** The limiter [SA] that saw only the calls for [A], as the proof of
    isolation keeps it: at most the bucket of [A], touched no later than
    [tcur], never before the last sweep, and never short of zero tokens. *)
Definition alone_ok (A : string) (tcur : Time) (SA : RateLimiter) : Prop :=
  lastCleanup SA <= tcur ∧
  ∀ b, buckets SA !! A = Some b →
       lastCleanup SA <= accessed b ∧ last b <= accessed b ∧ accessed b <= tcur ∧
       (0 <= tokens b)%Q.

(** The shared limiter [S] mirrors [SA] at the key [A]: the same bucket, or
    none where [SA] still holds one that the next call for [A] will sweep. *)
Definition mirrors (A : string) (tcur : Time) (S SA : RateLimiter) : Prop :=
  buckets S !! A = buckets SA !! A ∨
  (buckets S !! A = None ∧
   ∃ b, buckets SA !! A = Some b ∧ accessed b < tcur - bucketInactiveThreshold).

(** The keys of the table are among [K], and [K] fits the table. *)
Definition fits (K : gset string) (S : RateLimiter) : Prop :=
  dom (buckets S) ⊆ K ∧ Z.of_nat (size K) <= maxBuckets S.

(** ** Concrete inputs *)

(** An empty limiter with room for [n] buckets, created at time 0. *)
Definition small_limiter (n : Z) : RateLimiter :=
  {| buckets := ∅; ratePerMin := 600; maxBuckets := n; lastCleanup := 0 |}.

(** A table with an idle bucket and a recent one, last swept at time 0. *)
Definition two_bucket_limiter : RateLimiter :=
  {| buckets := <["idle"%string := {| tokens := 3; last := 0; accessed := 0 |}]>
                  (<["busy"%string := {| tokens := 0; last := 20 * Minute; accessed := 20 * Minute |}]> ∅);
     ratePerMin := 600;
     maxBuckets := defaultMaxBuckets;
     lastCleanup := 0 |}.

(** ** Package [metrics]: counters and the registry *)

Module metrics.

(** A [uint64]: arithmetic wraps modulo [2 ^ 64]. *)
Definition uint64 (n : Z) : Z := n mod 2 ^ 64.

(** The values of the type. *)
Definition is_uint64 (n : Z) : Prop := 0 <= n < 2 ^ 64.

(** [Counter]: the atomic operations, one caller at a time. *)
Record Counter : Type := mkCounter { v : Z }.

Definition Inc (c : Counter) : Counter := {| v := uint64 (v c + 1) |}.
Definition Add (c : Counter) (delta : Z) : Counter := {| v := uint64 (v c + delta) |}.
Definition Get (c : Counter) : Z := v c.

(** [Histogram]: a sum and a count; [Observe] converts its [int64] argument
    to [uint64]. *)
Record Histogram : Type := mkHistogram { sum : Z; count : Z }.

Definition Observe (h : Histogram) (ms : Z) : Histogram :=
  {| sum := uint64 (sum h + uint64 ms); count := uint64 (count h + 1) |}.

Definition Avg (h : Histogram) : Q :=
  if count h =? 0 then 0%Q else (inject_Z (sum h) / inject_Z (count h))%Q.

Definition Count (h : Histogram) : Z := count h.
Definition Sum (h : Histogram) : Z := sum h.

(** [Registry]; the pointer fields are the counters they point to. *)
Record Registry : Type := mkRegistry {
  RequestsTotal : Counter;
  RequestDuration : Histogram;
  RateAllowed : Counter;
  RateRejected : Counter;
  GrpcRequests : Counter;
  GrpcDuration : Histogram;
  Started : Time;
  labeled : gmap string Counter
}.

(** [NewRegistry]; [now] is the reading of [time.Now().UTC()]. *)
Definition NewRegistry (now : Time) : Registry :=
  {| RequestsTotal := {| v := 0 |};
     RequestDuration := {| sum := 0; count := 0 |};
     RateAllowed := {| v := 0 |};
     RateRejected := {| v := 0 |};
     GrpcRequests := {| v := 0 |};
     GrpcDuration := {| sum := 0; count := 0 |};
     Started := now;
     labeled := ∅ |}.

(** [Reset]: every counter replaced by a new one, [Started] kept. *)
Definition Reset (r : Registry) : Registry :=
  {| RequestsTotal := {| v := 0 |};
     RequestDuration := {| sum := 0; count := 0 |};
     RateAllowed := {| v := 0 |};
     RateRejected := {| v := 0 |};
     GrpcRequests := {| v := 0 |};
     GrpcDuration := {| sum := 0; count := 0 |};
     Started := Started r;
     labeled := ∅ |}.

Definition with_RateAllowed (r : Registry) (c : Counter) : Registry :=
  {| RequestsTotal := RequestsTotal r; RequestDuration := RequestDuration r;
     RateAllowed := c; RateRejected := RateRejected r;
     GrpcRequests := GrpcRequests r; GrpcDuration := GrpcDuration r;
     Started := Started r; labeled := labeled r |}.

Definition with_RateRejected (r : Registry) (c : Counter) : Registry :=
  {| RequestsTotal := RequestsTotal r; RequestDuration := RequestDuration r;
     RateAllowed := RateAllowed r; RateRejected := c;
     GrpcRequests := GrpcRequests r; GrpcDuration := GrpcDuration r;
     Started := Started r; labeled := labeled r |}.

Definition with_RequestsTotal (r : Registry) (c : Counter) : Registry :=
  {| RequestsTotal := c; RequestDuration := RequestDuration r;
     RateAllowed := RateAllowed r; RateRejected := RateRejected r;
     GrpcRequests := GrpcRequests r; GrpcDuration := GrpcDuration r;
     Started := Started r; labeled := labeled r |}.

Definition with_RequestDuration (r : Registry) (h : Histogram) : Registry :=
  {| RequestsTotal := RequestsTotal r; RequestDuration := h;
     RateAllowed := RateAllowed r; RateRejected := RateRejected r;
     GrpcRequests := GrpcRequests r; GrpcDuration := GrpcDuration r;
     Started := Started r; labeled := labeled r |}.

Definition with_labeled (r : Registry) (m : gmap string Counter) : Registry :=
  {| RequestsTotal := RequestsTotal r; RequestDuration := RequestDuration r;
     RateAllowed := RateAllowed r; RateRejected := RateRejected r;
     GrpcRequests := GrpcRequests r; GrpcDuration := GrpcDuration r;
     Started := Started r; labeled := m |}.

(** [strings.Join(parts, sep)]. *)
Fixpoint Join (parts : list string) (sep : string) : string :=
  match parts with
  | [] => ""
  | p :: rest =>
      match rest with
      | [] => p
      | _ :: _ => p +:+ sep +:+ Join rest sep
      end
  end.

(** The pieces of [s] between the occurrences of the byte [sep], the first
    piece apart; with [cuts = Some n] only the first [n] occurrences cut. *)
Fixpoint pieces (s : string) (sep : Ascii.ascii) (cuts : option nat) : string * list string :=
  match s with
  | EmptyString => (""%string, [])
  | String c s' =>
      if Ascii.eqb c sep then
        match cuts with
        | Some O => (s, [])
        | Some (S n) => let '(p, ps) := pieces s' sep (Some n) in (""%string, p :: ps)
        | None => let '(p, ps) := pieces s' sep None in (""%string, p :: ps)
        end
      else let '(p, ps) := pieces s' sep cuts in (String c p, ps)
  end.

(** [strings.Split(s, sep)] and [strings.SplitN(s, sep, n)] for a separator
    of one byte and [n >= 0]. *)
Definition Split (s : string) (sep : Ascii.ascii) : list string :=
  let '(p, ps) := pieces s sep None in p :: ps.

Definition SplitN (s : string) (sep : Ascii.ascii) (n : nat) : list string :=
  match n with
  | O => []
  | S n' => let '(p, ps) := pieces s sep (Some n') in p :: ps
  end.

(** [strings.ReplaceAll(s, old, new)] for an [old] of one byte. *)
Fixpoint ReplaceAll (s : string) (old : Ascii.ascii) (new : string) : string :=
  match s with
  | EmptyString => ""%string
  | String c s' =>
      if Ascii.eqb c old then new +:+ ReplaceAll s' old new
      else String c (ReplaceAll s' old new)
  end.

(** The strings of one byte the renderer writes: a double quote and a line
    feed. *)
Definition quote : string := String "034"%char EmptyString.
Definition newline : string := String "010"%char EmptyString.

(** What Go leaves open: the order in which [range] goes through the keys
    of a label map (line 374) and through the labeled counters (line 417). *)
Class MapOrder : Type := {
  range_labels : gmap string string → list string;
  range_labeled : gmap string Counter → list (string * Counter)
}.

Section Labeled.

Context {mo : MapOrder}.

(** [buildLabelKey] (lines 367-386); [sort.Strings] orders by bytes, the
    order of [String.le]. *)
Definition buildLabelKey (metric : string) (labels : gmap string string) : string :=
  if decide (size labels = 0%nat) then metric
  else
    let keys := merge_sort String.le (range_labels labels) in
    let parts := (λ k, k +:+ "=" +:+ default ""%string (labels !! k)) <$> keys in
    metric +:+ "|" +:+ Join parts ",".

(** [AddLabeled] (lines 346-363) and [IncLabeled] (lines 322-343), one
    caller at a time: the counter of the key, created at zero if the key is
    new, then bumped. *)
Definition AddLabeled (r : Registry) (metric : string) (labels : gmap string string)
    (delta : Z) : Registry :=
  let key := buildLabelKey metric labels in
  let '(c, m) :=
    match labeled r !! key with
    | Some c => (c, labeled r)
    | None => ({| v := 0 |}, <[key := {| v := 0 |}]> (labeled r))
    end in
  with_labeled r (<[key := Add c delta]> m).

Definition IncLabeled (r : Registry) (metric : string) (labels : gmap string string)
  : Registry :=
  let key := buildLabelKey metric labels in
  let '(c, m) :=
    match labeled r !! key with
    | Some c => (c, labeled r)
    | None => ({| v := 0 |}, <[key := {| v := 0 |}]> (labeled r))
    end in
  with_labeled r (<[key := Inc c]> m).

(** The body of the loop of [RenderPrometheus] over the labeled counters
    (lines 418-432): the line written for one key and its counter. *)
Definition render_labeled (key : string) (counter : Counter) : string :=
  let parts := SplitN key "|"%char 2 in
  let metric := default ""%string (parts !! 0%nat) in
  let lbls :=
    match parts with
    | [_; labels] =>
        if negb (String.eqb labels "") then
          let lblPairs := (λ p, ReplaceAll p "="%char ("=" +:+ quote) +:+ quote) <$> Split labels ","%char in
          "{" +:+ Join lblPairs "," +:+ "}"
        else ""%string
    | _ => ""%string
    end in
  metric +:+ lbls +:+ " " +:+ pretty (Get counter) +:+ newline.

(** The loop itself (lines 417-433): the lines in the order of [range]. *)
Definition render_all_labeled (m : gmap string Counter) : string :=
  foldl (λ sb '(key, counter), sb +:+ render_labeled key counter) ""%string (range_labeled m).

End Labeled.

(** Two orders for evaluation: that of [map_to_list], and its reverse. *)
Definition ref_order : MapOrder :=
  {| range_labels := λ m, (map_to_list m).*1; range_labeled := map_to_list |}.
Definition rev_order : MapOrder :=
  {| range_labels := λ m, reverse (map_to_list m).*1;
     range_labeled := λ m, reverse (map_to_list m) |}.

(** Whether the byte [c] occurs in [s]. *)
Fixpoint has_byte (c : Ascii.ascii) (s : string) : bool :=
  match s with
  | EmptyString => false
  | String a s' => Ascii.eqb a c || has_byte c s'
  end.

(** Names that the key format keeps apart: a metric without a bar, label
    keys without comma or equals sign, label values without comma. *)
Definition plain_metric (metric : string) : Prop := has_byte "|" metric = false.

Definition key_safe (labels : gmap string string) : Prop :=
  ∀ k v, labels !! k = Some v →
    has_byte "," k = false ∧ has_byte "=" k = false ∧ has_byte "," v = false.

(** Labels that the renderer reads back: the values have no equals sign
    either. *)
Definition render_safe (labels : gmap string string) : Prop :=
  ∀ k v, labels !! k = Some v →
    has_byte "," k = false ∧ has_byte "=" k = false ∧
    has_byte "," v = false ∧ has_byte "=" v = false.

(** The name of a series in the Prometheus text format: the metric, and in
    braces the labels in the order of their keys, each value in double
    quotes; the metric alone when there is no label. *)
Definition series_name (metric : string) (labels : gmap string string) : string :=
  if decide (size labels = 0%nat) then metric
  else
    metric +:+ "{"
      +:+ Join ((λ k, k +:+ "=" +:+ quote +:+ default ""%string (labels !! k) +:+ quote)
                  <$> merge_sort String.le (map_to_list labels).*1) ","
      +:+ "}".

(** A call of [IncLabeled] or of [AddLabeled], and what it adds. *)
Inductive labeled_call : Type :=
  | inc_call (metric : string) (labels : gmap string string)
  | add_call (metric : string) (labels : gmap string string) (delta : Z).

Definition call_delta (c : labeled_call) : Z :=
  match c with inc_call _ _ => 1 | add_call _ _ delta => delta end.

(** The sum of a list of integers. *)
Definition total (l : list Z) : Z := foldr Z.add 0 l.

(** The observations of a list, in order. *)
Definition observe_all (h : Histogram) (l : list Z) : Histogram := foldl Observe h l.

(** The sum of the labeled counters of a table. *)
Definition labeled_total (m : gmap string Counter) : Z :=
  map_fold (λ _ c acc, Get c + acc) 0 m.

Section LabeledCalls.

Context {mo : MapOrder}.

(** The key a call counts under. *)
Definition call_key (c : labeled_call) : string :=
  match c with
  | inc_call metric labels => buildLabelKey metric labels
  | add_call metric labels _ => buildLabelKey metric labels
  end.

(** The calls of a list made in order on a registry. *)
Definition record (r : Registry) (c : labeled_call) : Registry :=
  match c with
  | inc_call metric labels => IncLabeled r metric labels
  | add_call metric labels delta => AddLabeled r metric labels delta
  end.

Definition record_all (r : Registry) (cs : list labeled_call) : Registry := foldl record r cs.

(** What the calls of a list add under a key. *)
Definition added_at (key : string) (cs : list labeled_call) : Z :=
  total (call_delta <$> filter (λ c, call_key c = key) cs).

End LabeledCalls.

End metrics.

(** ** The middleware ([ratelimit.go], lines 170-252) *)

(** [d.Seconds()]: [float64(d / Second) + float64(d % Second) / 1e9]. *)
Definition Seconds (d : Duration) : Q :=
  (inject_Z (Z.quot d Second) + inject_Z (Z.rem d Second) / inject_Z 1000000000)%Q.

(** [strconv.Itoa(int(retryAfter.Seconds()))], the value of the
    [Retry-After] header. *)
Definition retry_after_header (retryAfter : Duration) : string :=
  pretty (Qtrunc (Seconds retryAfter)).

(** What the handler returns: [c.Next()], or the 429 error with the
    [Retry-After] header it has set. *)
Inductive outcome : Type :=
  | Next
  | TooManyRequests (retry_after : string).

#[global] Instance outcome_eq_dec : EqDecision outcome.
Proof. solve_decision. Defined.

(** [*fiber.Ctx], as far as the middleware reads it: a type of request
    contexts and the method [c.IP()]. *)
Class FiberCtx : Type := {
  Ctx : Type;
  IP : Ctx → string
}.

Section Middleware.

Context {rt : GoRuntime} {fc : FiberCtx}.

(** [RateLimitConfig] (lines 171-179); [None] is a [nil] function. *)
Record RateLimitConfig : Type := mkRateLimitConfig {
  KeyGenerator : option (Ctx → string);
  RateGetter : option (Ctx → Z)
}.

(** The key the handler passes to [take] (lines 208-212 and 221-224). *)
Definition request_key (cfg : RateLimitConfig) (c : Ctx) : string :=
  let key := match KeyGenerator cfg with Some f => f c | None => IP c end in
  if String.eqb key "" then "anonymous"%string else key.

(** The rate the handler passes to [take] (lines 213-217 and 227). *)
Definition request_rate (cfg : RateLimitConfig) (rl : RateLimiter) (c : Ctx) : Z :=
  match RateGetter cfg with Some f => f c | None => ratePerMin rl end.

(** The handler of [RateLimitMiddlewareWithConfig] (lines 219-251) on the
    limiter [rl] and the registry [reg] ([None]: [nil]), for a request
    handled at [now]. *)
Definition handle (cfg : RateLimitConfig) (rl : RateLimiter) (reg : option metrics.Registry)
    (c : Ctx) (now : Time) : RateLimiter * option metrics.Registry * outcome :=
  let key := request_key cfg c in
  let rate := request_rate cfg rl c in
  let '(rl', (allowed, retryAfter)) := take rl key rate now in
  if negb allowed then
    let reg' := (λ r, metrics.with_RateRejected r (metrics.Inc (metrics.RateRejected r))) <$> reg in
    (rl', reg', TooManyRequests (retry_after_header retryAfter))
  else
    let reg' := (λ r, metrics.with_RateAllowed r (metrics.Inc (metrics.RateAllowed r))) <$> reg in
    (rl', reg', Next).

(** [RateLimitMiddleware] (lines 192-194): the handler with the empty
    configuration. *)
Definition handle_default := handle {| KeyGenerator := None; RateGetter := None |}.

(** The requests of a list handled in order, each with its clock reading:
    the final limiter and registry, and the outcomes in order. *)
Fixpoint serve_all (cfg : RateLimitConfig) (rl : RateLimiter) (reg : option metrics.Registry)
    (reqs : list (Ctx * Time)) : RateLimiter * option metrics.Registry * list outcome :=
  match reqs with
  | [] => (rl, reg, [])
  | (c, now) :: rest =>
      let '(rl', reg', o) := handle cfg rl reg c now in
      let '(rl'', reg'', os) := serve_all cfg rl' reg' rest in
      (rl'', reg'', o :: os)
  end.

End Middleware.

(** ** Package [contextx] *)

Module contextx.

(** [TenantAuthValues]; a [nil] pointer is [None]. *)
Record TenantAuthValues : Type := mkTenantAuthValues {
  auth_TenantID : string;
  auth_AppID : string;
  auth_Prefix : string;
  auth_LastUsed : option Time;
  auth_CreatedAt : option Time
}.

(** The four key types of the package, and the keys of other packages. *)
Inductive key : Type :=
  | tenantKey
  | applicationKey
  | apiKeyPrefixKey
  | tenantAppValuesKey
  | foreignKey (n : nat).

#[global] Instance key_eq_dec : EqDecision key.
Proof. solve_decision. Defined.

(** A value of type [any], as far as the package tells values apart. *)
Inductive any : Type :=
  | nil
  | of_string (s : string)
  | of_TenantAuthValues (values : TenantAuthValues)
  | of_other.

(** A [context.Context] made from [context.Background()] by
    [context.WithValue].  The other contexts of the standard library hand
    [Value] on to their parent: they are left out. *)
Inductive Context : Type :=
  | Background
  | WithValue (parent : Context) (k : key) (val : any).

(** [ctx.Value(k)]. *)
Fixpoint Value (ctx : Context) (k : key) : any :=
  match ctx with
  | Background => nil
  | WithValue parent k' val => if decide (k' = k) then val else Value parent k
  end.

(** [v.(string)] after the test [v == nil] (lines 29-34, 47-52, 62-67). *)
Definition string_of (v : any) : string * bool :=
  match v with
  | of_string s => (s, true)
  | _ => (""%string, false)
  end.

Definition WithTenant (ctx : Context) (tenantID : string) : Context :=
  WithValue ctx tenantKey (of_string tenantID).

Definition TenantID (ctx : Context) : string * bool := string_of (Value ctx tenantKey).

Definition WithApplication (ctx : Context) (appID : string) : Context :=
  if String.eqb appID "" then ctx else WithValue ctx applicationKey (of_string appID).

Definition AppID (ctx : Context) : string * bool := string_of (Value ctx applicationKey).

Definition WithAPIKeyPrefix (ctx : Context) (prefix : string) : Context :=
  WithValue ctx apiKeyPrefixKey (of_string prefix).

Definition APIKeyActor (ctx : Context) : string * bool :=
  string_of (Value ctx apiKeyPrefixKey).

Definition WithTenantAuthValues (ctx : Context) (values : TenantAuthValues) : Context :=
  WithValue ctx tenantAppValuesKey (of_TenantAuthValues values).

(** The zero value of [TenantAuthValues]. *)
Definition zero_values : TenantAuthValues :=
  {| auth_TenantID := ""; auth_AppID := ""; auth_Prefix := "";
     auth_LastUsed := None; auth_CreatedAt := None |}.

(** [TenantAuth] (lines 78-97). *)
Definition TenantAuth (ctx : Context) : TenantAuthValues * bool :=
  match Value ctx tenantAppValuesKey with
  | of_TenantAuthValues tenantAppValues => (tenantAppValues, true)
  | _ =>
      let '(tenantID, ok) := TenantID ctx in
      if negb ok then (zero_values, false)
      else
        let '(appID, _) := AppID ctx in
        ({| auth_TenantID := tenantID; auth_AppID := appID; auth_Prefix := "";
            auth_LastUsed := None; auth_CreatedAt := None |}, true)
  end.

(** A call that derives a context: one of the four functions of the
    package, or [context.WithValue] under the key of another package. *)
Inductive derivation : Type :=
  | with_tenant (tenantID : string)
  | with_application (appID : string)
  | with_prefix (prefix : string)
  | with_values (values : TenantAuthValues)
  | with_foreign (n : nat) (val : any).

Definition derive (ctx : Context) (d : derivation) : Context :=
  match d with
  | with_tenant tenantID => WithTenant ctx tenantID
  | with_application appID => WithApplication ctx appID
  | with_prefix prefix => WithAPIKeyPrefix ctx prefix
  | with_values values => WithTenantAuthValues ctx values
  | with_foreign n val => WithValue ctx (foreignKey n) val
  end.

(** The context derived from the background by the calls of a list, in
    order. *)
Definition derived (ds : list derivation) : Context := foldl derive Background ds.

(** The last tenant, the last application that is not empty, the last
    prefix and the last combined values among the calls. *)
Definition last_tenant (ds : list derivation) : option string :=
  list.last (omap (λ d, match d with with_tenant s => Some s | _ => None end) ds).
Definition last_application (ds : list derivation) : option string :=
  list.last (omap (λ d, match d with
                   | with_application s => if String.eqb s "" then None else Some s
                   | _ => None
                   end) ds).
Definition last_prefix (ds : list derivation) : option string :=
  list.last (omap (λ d, match d with with_prefix s => Some s | _ => None end) ds).
Definition last_values (ds : list derivation) : option TenantAuthValues :=
  list.last (omap (λ d, match d with with_values v => Some v | _ => None end) ds).

(** What a getter returns for an optional string. *)
Definition found (o : option string) : string * bool :=
  match o with Some s => (s, true) | None => (""%string, false) end.

End contextx.

(** ** The middleware [Metrics] (second file of [ratelimit.go], lines 280-305) *)

Definition Millisecond : Duration := 1000000.

(** [d.Milliseconds()]: the integer division of the nanosecond count. *)
Definition Milliseconds (d : Duration) : Z := Z.quot d Millisecond.

(** What the handler reads of a request: the readings of the clock before
    and after [c.Next()], and once that has returned the method, the path of
    the route, the status of the response and the user context. *)
Record exchange : Type := mkExchange {
  Method : string;
  RoutePath : string;
  StatusCode : Z;
  UserContext : contextx.Context;
  started : Time;
  finished : Time
}.

(** The label map of lines 296-301. *)
Definition request_labels (x : exchange) : gmap string string :=
  <["method"%string := Method x]>
    (<["path"%string := RoutePath x]>
       (<["status"%string := pretty (StatusCode x)]>
          (<["tenant"%string := (contextx.TenantID (UserContext x)).1]> ∅))).

Section MetricsMiddleware.

Context {mo : metrics.MapOrder}.

(** The handler of [Metrics] (lines 281-304) on the registry. *)
Definition Metrics (reg : metrics.Registry) (x : exchange) : metrics.Registry :=
  let durMs := Milliseconds (Sub (finished x) (started x)) in
  let reg := metrics.with_RequestsTotal reg (metrics.Inc (metrics.RequestsTotal reg)) in
  let reg := metrics.with_RequestDuration reg
               (metrics.Observe (metrics.RequestDuration reg) durMs) in
  metrics.IncLabeled reg "http_requests" (request_labels x).

End MetricsMiddleware.

#[global] Instance Qle_decision (x y : Q) : Decision (x <= y)%Q :=
  match Qlt_le_dec y x with
  | left Hlt => right (Qlt_not_le y x Hlt)
  | right Hle => left Hle
  end.

(** No bucket of the table holds a negative token count. *)
Definition tokens_nonneg (bs : gmap string bucket) : Prop :=
  ∀ k b, bs !! k = Some b → (0 <= tokens b)%Q.


(** The calls for the key [A] in the list come at least one token's worth
    of time, [1/rate] minute, after the previous call for [A], the last one
    before the list being at [prev] if there was one. *)
Fixpoint paced (A : string) (rate : Z) (prev : option Time) (l : list call) : Prop :=
  match l with
  | [] => True
  | (k, r, t) :: l' =>
      if decide (k = A)
      then r = rate ∧
           match prev with Some p => Minute <= (t - p) * rate | None => True end ∧
           paced A rate (Some t) l'
      else paced A rate prev l'
  end.

(** Number of admitted calls among the results. *)
Definition admitted (rs : list (bool * Duration)) : nat :=
  length (filter (λ r : bool * Duration, r.1 = true) rs).

(** The tokens [rate] tokens per minute yield in the time [d]. *)
Definition rate_yield (rate : Z) (d : Duration) : Q :=
  (inject_Z d / inject_Z Minute * inject_Z rate)%Q.

(** The budget of the key [A] at [rate], counted from the time [t1] of its
    first call: the calls admitted so far and the tokens in hand do not
    exceed the burst plus what the rate yields up to the last refill. *)
Definition within_budget (A : string) (rate : Z) (t1 : Time) (rl : RateLimiter)
    (adm : Z) : Prop :=
  ∃ b, buckets rl !! A = Some b ∧
       (inject_Z adm + tokens b <=
        inject_Z (burstCapacity rate) + rate_yield rate (last b - t1))%Q.

(** A context for evaluating the middleware: a request is its client
    address. *)
Definition address_ctx : FiberCtx := {| Ctx := string; IP := λ c, c |}.

(** Number of requests passed on, and number answered 429. *)
Definition passed (os : list outcome) : nat :=
  length (filter (λ o, o = Next) os).
Definition refused (os : list outcome) : nat :=
  length (filter (λ o, o ≠ Next) os).

(** * Properties *)

(** ** Arithmetic of times, durations and tokens *)

(** Unfold the clock operations and split on every integer comparison. *)
Ltac clock_cases :=
  unfold Sub, Add, Before, maxDuration, minDuration,
    bucketCleanupInterval, bucketInactiveThreshold, Minute, Second in *;
  change (2 ^ 63) with 9223372036854775808 in *;
  repeat match goal with
         | |- context [if ?a <? ?b then _ else _] => destruct (Z.ltb_spec a b)
         | |- context [if ?a <=? ?b then _ else _] => destruct (Z.leb_spec a b)
         | |- context [?a <? ?b] => destruct (Z.ltb_spec a b)
         | |- context [?a <=? ?b] => destruct (Z.leb_spec a b)
         end.

Lemma Sub_diag (t : Time) : Sub t t = 0.
Proof. unfold Sub. replace (t - t) with 0 by lia. reflexivity. Qed.

Lemma Sub_pos (t u : Time) (d : Duration) :
  0 <= d < maxDuration → (d <? Sub t u) = (d <? t - u).
Proof. intros Hd. clock_cases; lia. Qed.

Lemma Sub_sign (t u : Time) : (0 <? Sub t u) = (0 <? t - u).
Proof. apply Sub_pos. clock_cases; lia. Qed.

Lemma Sub_ge (t u : Time) (d : Duration) :
  0 <= d <= maxDuration → d <= t - u → d <= Sub t u.
Proof. intros Hd Htu. clock_cases; lia. Qed.

Lemma Qltb_lt (x y : Q) : Qltb x y = true ↔ (x < y)%Q.
Proof.
  unfold Qltb. rewrite negb_true_iff, <- not_true_iff_false, Qle_bool_iff.
  split; [apply Qnot_le_lt | apply Qlt_not_le].
Qed.

Lemma Qltb_ge (x y : Q) : Qltb x y = false ↔ (y <= x)%Q.
Proof. unfold Qltb. rewrite negb_false_iff. apply Qle_bool_iff. Qed.

Lemma Minutes_eq (d : Duration) : (Minutes d == inject_Z d / inject_Z Minute)%Q.
Proof.
  unfold Minutes. change (60 * 1000000000) with Minute.
  rewrite (Z.quot_rem' d Minute) at 3.
  rewrite inject_Z_plus, inject_Z_mult.
  field. discriminate.
Qed.

Lemma Minutes_pos (d : Duration) : Qltb 0 (Minutes d) = (0 <? d).
Proof.
  destruct (Z.ltb_spec 0 d) as [H|H].
  - apply Qltb_lt. rewrite Minutes_eq.
    apply Qlt_shift_div_l; [reflexivity|].
    rewrite Qmult_0_l. change 0%Q with (inject_Z 0). rewrite <- Zlt_Qlt. exact H.
  - apply Qltb_ge. rewrite Minutes_eq.
    apply Qle_shift_div_r; [reflexivity|].
    rewrite Qmult_0_l. change 0%Q with (inject_Z 0). rewrite <- Zle_Qle. exact H.
Qed.

Lemma dynBurst_burstCapacity (rate : Z) : dynBurst rate = burstCapacity rate.
Proof. unfold dynBurst, burstCapacity. destruct (Z.ltb_spec (Z.quot rate 2) 1); lia. Qed.

Lemma dynBurst_ge_1 (rate : Z) : 1 <= dynBurst rate.
Proof. rewrite dynBurst_burstCapacity. unfold burstCapacity. lia. Qed.

Lemma Qltb_inject_Z (a b : Z) : Qltb (inject_Z a) (inject_Z b) = (a <? b).
Proof.
  destruct (Z.ltb_spec a b) as [H|H].
  - apply Qltb_lt. by rewrite <- Zlt_Qlt.
  - apply Qltb_ge. by rewrite <- Zle_Qle.
Qed.

Lemma Qle_bool_inject_Z (a b : Z) : Qle_bool (inject_Z a) (inject_Z b) = (a <=? b).
Proof.
  destruct (Z.leb_spec a b) as [H|H].
  - apply Qle_bool_iff. by rewrite <- Zle_Qle.
  - apply not_true_iff_false. rewrite Qle_bool_iff, <- Zle_Qle. lia.
Qed.

(** The float cap of the refill is the integer burst of a new bucket. *)
Lemma maxTokens_dynBurst (rate : Z) : maxTokens rate = inject_Z (dynBurst rate).
Proof.
  unfold maxTokens, dynBurst. change 1%Q with (inject_Z 1).
  rewrite Qltb_inject_Z. by destruct (Z.quot rate 2 <? 1).
Qed.

(** ** The two loops over the bucket table *)

Section MapLoops.

Context {rt : GoRuntime}.
Hypothesis range_order_perm : ∀ bs, range_order bs ≡ₚ map_to_list bs.

Lemma range_order_elem (bs : gmap string bucket) (k : string) (b : bucket) :
  (k, b) ∈ range_order bs ↔ bs !! k = Some b.
Proof. rewrite range_order_perm. apply elem_of_map_to_list. Qed.

Lemma range_order_empty : range_order ∅ = [].
Proof.
  apply Permutation_nil_r. rewrite range_order_perm. by rewrite map_to_list_empty.
Qed.

Lemma range_order_nonempty (bs : gmap string bucket) : bs ≠ ∅ → range_order bs ≠ [].
Proof.
  intros Hne Hnil. apply Hne, map_to_list_empty_iff.
  apply Permutation_nil_r. by rewrite <- range_order_perm, Hnil.
Qed.

Lemma cleanup_loop_lookup threshold l (m : gmap string bucket) (k : string) :
  cleanup_loop threshold m l !! k =
  if existsb (λ '(key, b), bool_decide (key = k) && Before (accessed b) threshold) l
  then None else m !! k.
Proof.
  revert m. induction l as [|[key b] l IH]; intros m; [reflexivity|].
  unfold cleanup_loop in *. simpl. rewrite IH.
  destruct (existsb _ l); [by rewrite orb_true_r|]. rewrite orb_false_r.
  destruct (Before (accessed b) threshold); [|by rewrite andb_false_r].
  rewrite andb_true_r. case_bool_decide as Hk.
  - subst. apply lookup_delete_eq.
  - by apply lookup_delete_ne.
Qed.

Lemma cleanup_loop_subseteq threshold l (m : gmap string bucket) :
  cleanup_loop threshold m l ⊆ m.
Proof.
  revert m. induction l as [|[key b] l IH]; intros m; [done|].
  unfold cleanup_loop in *. simpl. etrans; [apply IH|].
  destruct (Before _ _); [apply delete_subseteq | done].
Qed.

Lemma cleanup_subseteq (bs : gmap string bucket) now :
  cleanupStaleBuckets bs now ⊆ bs.
Proof. apply cleanup_loop_subseteq. Qed.

(** The sweep keeps exactly the buckets accessed at or after the threshold. *)
Lemma cleanup_lookup (bs : gmap string bucket) now (k : string) :
  cleanupStaleBuckets bs now !! k =
  match bs !! k with
  | Some b => if Before (accessed b) (Add now (- bucketInactiveThreshold)) then None else Some b
  | None => None
  end.
Proof.
  unfold cleanupStaleBuckets. rewrite cleanup_loop_lookup.
  set (thr := Add now (- bucketInactiveThreshold)).
  destruct (existsb _ _) eqn:Hex.
  - apply existsb_exists in Hex as [[key b] [Hin Hb]].
    apply andb_true_iff in Hb as [Hk Hs]. apply bool_decide_eq_true in Hk. subst key.
    apply list_elem_of_In, range_order_elem in Hin. by rewrite Hin, Hs.
  - destruct (bs !! k) as [b|] eqn:Hb; [|done].
    destruct (Before (accessed b) thr) eqn:Hs; [|done].
    apply range_order_elem, list_elem_of_In in Hb.
    assert (existsb (λ '(key, b0), bool_decide (key = k) && Before (accessed b0) thr)
              (range_order bs) = true) as Hc.
    { apply existsb_exists. exists (k, b). split; [done|].
      rewrite Hs. by rewrite bool_decide_eq_true_2. }
    congruence.
Qed.

(** Once a candidate is held, the scan ends on an entry no younger than the
    candidate and than every entry it visits. *)
Lemma scan_loop_held l (k0 : string) (t0 : Time) :
  ∃ k t, scan_loop (k0, t0, false) l = (k, t, false) ∧ t <= t0 ∧
         (∀ k' b', (k', b') ∈ l → t <= accessed b') ∧
         ((k = k0 ∧ t = t0) ∨ ∃ b, (k, b) ∈ l ∧ accessed b = t).
Proof.
  revert k0 t0. induction l as [|[k1 b1] l IH]; intros k0 t0.
  - exists k0, t0. split_and!; [done|lia| |by left]. intros ?? Hin. inversion Hin.
  - unfold scan_loop in *. simpl. unfold Before.
    destruct (Z.ltb_spec (accessed b1) t0) as [Hlt|Hge].
    + destruct (IH k1 (accessed b1)) as (k & t & Hs & Hle & Hmin & Hwho).
      exists k, t. split_and!; [done|lia| |].
      * intros k' b' [Heq|Hin]%elem_of_cons; [|by eapply Hmin]. by simplify_eq.
      * right. destruct Hwho as [[-> ->]|(b & Hin & Hb)].
        -- exists b1. split; [left|done].
        -- exists b. split; [by right|done].
    + destruct (IH k0 t0) as (k & t & Hs & Hle & Hmin & Hwho).
      exists k, t. split_and!; [done|lia| |].
      * intros k' b' [Heq|Hin]%elem_of_cons; [|by eapply Hmin]. simplify_eq. lia.
      * destruct Hwho as [?|(b & Hin & Hb)]; [by left|].
        right. exists b. split; [by right|done].
Qed.

(** The scan of a non-empty list ends on one of its entries, one with an
    oldest access time. *)
Lemma scan_loop_oldest l :
  l ≠ [] →
  ∃ k b, (k, b) ∈ l ∧ scan_loop (""%string, 0, true) l = (k, accessed b, false) ∧
         ∀ k' b', (k', b') ∈ l → accessed b <= accessed b'.
Proof.
  destruct l as [|[k1 b1] l]; [done|]. intros _.
  destruct (scan_loop_held l k1 (accessed b1)) as (k & t & Hs & Hle & Hmin & Hwho).
  destruct Hwho as [[-> ->]|(b & Hin & Hb)].
  - exists k1, b1. split_and!; [left|exact Hs|].
    intros k' b' [Heq|Hin]%elem_of_cons; [by simplify_eq|by eapply Hmin].
  - exists k, b. subst t. split_and!; [by right|exact Hs|].
    intros k' b' [Heq|Hin']%elem_of_cons; [simplify_eq; lia|by eapply Hmin].
Qed.

Lemma evict_empty now : evictOldestBucket ∅ now = (∅, false).
Proof. unfold evictOldestBucket. by rewrite range_order_empty. Qed.

(** On a non-empty table the scan selects a bucket with an oldest access
    time; it is deleted unless its key is the empty string. *)
Lemma evict_nonempty (bs : gmap string bucket) now :
  bs ≠ ∅ →
  ∃ k b, bs !! k = Some b ∧ oldest_in bs b ∧
         evictOldestBucket bs now =
           if negb (String.eqb k "") then (delete k bs, true) else (bs, false).
Proof.
  intros Hne. apply range_order_nonempty in Hne.
  destruct (scan_loop_oldest _ Hne) as (k & b & Hin & Hs & Hmin).
  exists k, b. split_and!.
  - by apply range_order_elem.
  - intros k' b' Hb'. apply (Hmin k'). by apply range_order_elem.
  - unfold evictOldestBucket. by rewrite Hs.
Qed.

(** Eviction succeeds on every non-empty table that has no bucket under the
    empty string. *)
Lemma evict_succeeds (bs : gmap string bucket) now :
  bs ≠ ∅ → bs !! ""%string = None →
  ∃ k b, bs !! k = Some b ∧ oldest_in bs b ∧
         evictOldestBucket bs now = (delete k bs, true).
Proof.
  intros Hne Hnokey.
  destruct (evict_nonempty bs now Hne) as (k & b & Hk & Hold & Hev).
  exists k, b. split_and!; [done..|]. rewrite Hev.
  destruct (String.eqb_spec k "") as [->|_]; [congruence|done].
Qed.

(** It fails, on any runtime, when the bucket under the empty string is
    older than every other bucket: the scan ends on the empty key, which
    line 163 reads as "no bucket found". *)
Lemma evict_fails_on_empty_key (bs : gmap string bucket) now b :
  bs !! ""%string = Some b →
  (∀ k b', k ≠ ""%string → bs !! k = Some b' → accessed b < accessed b') →
  evictOldestBucket bs now = (bs, false).
Proof.
  intros Hb Holder.
  assert (bs ≠ ∅) as Hne by (intros ->; by rewrite lookup_empty in Hb).
  destruct (evict_nonempty bs now Hne) as (k & bk & Hk & Hold & ->).
  destruct (String.eqb_spec k "") as [_|Hk']; [done|].
  pose proof (Holder k bk Hk' Hk). pose proof (Hold _ _ Hb). lia.
Qed.

(** Whatever [range] enumerates, eviction only ever removes entries. *)
Lemma evict_subseteq (bs : gmap string bucket) now :
  (evictOldestBucket bs now).1 ⊆ bs.
Proof.
  unfold evictOldestBucket. destruct (scan_loop _ _) as [[k t] f].
  destruct (negb _); simpl; [apply delete_subseteq|done].
Qed.

End MapLoops.

(** ** One call of [take] *)

Section TakeFacts.

Context {rt : GoRuntime}.

Lemma sweep_maxBuckets rl now : maxBuckets (sweep rl now) = maxBuckets rl.
Proof. unfold sweep. by destruct (_ <? _). Qed.

Lemma sweep_subseteq rl now : buckets (sweep rl now) ⊆ buckets rl.
Proof.
  unfold sweep. destruct (_ <? _); [apply cleanup_subseteq|done].
Qed.

Lemma sweep_skip rl now :
  now - lastCleanup rl <= bucketCleanupInterval → sweep rl now = rl.
Proof.
  intros H. unfold sweep.
  rewrite Sub_pos by (clock_cases; lia).
  destruct (Z.ltb_spec bucketCleanupInterval (now - lastCleanup rl)); [lia|done].
Qed.

(** After the sweep phase of a call, a second call at the same instant does
    not sweep. *)
Lemma sweep_quiet rl now :
  now - lastCleanup (sweep rl now) <= bucketCleanupInterval.
Proof.
  unfold sweep. rewrite Sub_pos by (clock_cases; lia).
  destruct (Z.ltb_spec bucketCleanupInterval (now - lastCleanup rl)); simpl.
  - unfold bucketCleanupInterval, Minute, Second. lia.
  - done.
Qed.

(** A bucket refilled at or after [now] is only touched. *)
Lemma refill_same_instant b rate now :
  now <= last b →
  refill b rate now = {| tokens := tokens b; last := last b; accessed := now |}.
Proof.
  intros H. unfold refill. simpl. rewrite Minutes_pos, Sub_sign.
  destruct (Z.ltb_spec 0 (now - last b)); [lia|done].
Qed.

Lemma resolve_present bs maxB key rate now b :
  bs !! key = Some b → resolve bs maxB key rate now = Some (bs, b).
Proof. intros H. unfold resolve. by rewrite H. Qed.

(** When [resolve] creates the bucket it is the fresh one, stored in a table
    that is the old one less at most the evicted entry. *)
Lemma resolve_absent bs maxB key rate now r :
  bs !! key = None → resolve bs maxB key rate now = Some r →
  ∃ bs', r = (<[key := {| tokens := inject_Z (dynBurst rate); last := now; accessed := now |}]> bs',
              {| tokens := inject_Z (dynBurst rate); last := now; accessed := now |}) ∧
         bs' ⊆ bs.
Proof.
  intros Hk. unfold resolve. rewrite Hk.
  destruct (maxB <=? len bs).
  - pose proof (evict_subseteq bs now) as Hsub.
    destruct (evictOldestBucket bs now) as [bs' [|]]; [|done].
    intros [= <-]. by exists bs'.
  - intros [= <-]. by exists bs.
Qed.

Lemma resolve_room bs maxB key rate now :
  bs !! key = None → len bs < maxB →
  resolve bs maxB key rate now =
    Some (<[key := {| tokens := inject_Z (dynBurst rate); last := now; accessed := now |}]> bs,
          {| tokens := inject_Z (dynBurst rate); last := now; accessed := now |}).
Proof.
  intros Hk Hlen. unfold resolve. rewrite Hk.
  destruct (Z.leb_spec maxB (len bs)); [lia|done].
Qed.

(** A call that finds its bucket after the sweep. *)
Lemma take_present rl key rate now b :
  buckets (sweep rl now) !! key = Some b →
  take rl key rate now =
    let b' := refill b rate now in
    if Qle_bool 1 (tokens b')
    then (with_buckets (sweep rl now)
            (<[key := {| tokens := (tokens b' - 1)%Q; last := last b'; accessed := accessed b' |}]>
               (buckets (sweep rl now))), (true, 0))
    else (with_buckets (sweep rl now) (<[key := b']> (buckets (sweep rl now))),
          (false, retry_after (tokens b') rate)).
Proof.
  intros H. unfold take. by rewrite (resolve_present _ _ _ _ _ _ H).
Qed.

(** A call that creates its bucket is admitted and leaves the burst less
    one token. *)
Lemma take_created rl key rate now bs b :
  buckets (sweep rl now) !! key = None →
  resolve (buckets (sweep rl now)) (maxBuckets (sweep rl now)) key rate now = Some (bs, b) →
  take rl key rate now =
    (with_buckets (sweep rl now)
       (<[key := {| tokens := (inject_Z (dynBurst rate) - 1)%Q; last := now; accessed := now |}]> bs),
     (true, 0)).
Proof.
  intros Hk Hres. unfold take. rewrite Hres.
  destruct (resolve_absent _ _ _ _ _ _ Hk Hres) as (bs' & [= -> ->] & _).
  rewrite refill_same_instant by (simpl; lia). simpl.
  change 1%Q with (inject_Z 1). rewrite Qle_bool_inject_Z.
  destruct (Z.leb_spec 1 (dynBurst rate)) as [_|Hlt]; [done|].
  pose proof (dynBurst_ge_1 rate). lia.
Qed.

End TakeFacts.

(** ** Shape of the state a call leaves *)

Section TakeState.

Context {rt : GoRuntime}.

(** A call either returns at line 84, leaving the swept limiter, or stores a
    bucket at [key] in a table that is otherwise part of the swept one. *)
Lemma take_state rl key rate now :
  take rl key rate now = (sweep rl now, (false, Minute)) ∨
  ∃ bs' b, bs' ⊆ buckets (sweep rl now) ∧
           (take rl key rate now).1 = with_buckets (sweep rl now) (<[key := b]> bs').
Proof.
  unfold take.
  destruct (buckets (sweep rl now) !! key) as [b0|] eqn:Hk.
  - rewrite (resolve_present _ _ _ _ _ _ Hk). right.
    destruct (Qle_bool _ _); simpl; eexists _, _; split; done.
  - destruct (resolve _ _ _ _ _) as [[bs b]|] eqn:Hres; [|by left]. right.
    destruct (resolve_absent _ _ _ _ _ _ Hk Hres) as (bs' & [= -> ->] & Hsub).
    destruct (Qle_bool _ _); simpl; rewrite insert_insert_eq; eexists _, _; split; done.
Qed.

Lemma take_maxBuckets rl key rate now :
  maxBuckets (take rl key rate now).1 = maxBuckets rl.
Proof.
  destruct (take_state rl key rate now) as [->|(bs' & b & _ & ->)];
    simpl; apply sweep_maxBuckets.
Qed.

Lemma take_lastCleanup rl key rate now :
  lastCleanup (take rl key rate now).1 = lastCleanup (sweep rl now).
Proof.
  by destruct (take_state rl key rate now) as [->|(bs' & b & _ & ->)].
Qed.

(** A call for [key] adds no bucket under another key. *)
Lemma take_other_absent rl key rate now k :
  k ≠ key → buckets (sweep rl now) !! k = None →
  buckets (take rl key rate now).1 !! k = None.
Proof.
  intros Hne Hk.
  destruct (take_state rl key rate now) as [->|(bs' & b & Hsub & ->)]; [done|].
  simpl. rewrite lookup_insert_ne by done. by eapply lookup_weaken_None.
Qed.

End TakeState.

(** ** Results of a call *)

Section Results.

Context {rt : GoRuntime}.

Lemma retry_after_floor (t : Q) (rate : Z) : Second <= retry_after t rate.
Proof.
  unfold retry_after.
  destruct (Z.ltb_spec (duration_of_float
    (if rate =? 0 then None else Some (((1 - t) / inject_Z rate * inject_Z Minute)%Q)))
    Second); lia.
Qed.

(** The three returns of [take]. *)
Lemma take_result rl key rate now :
  (take rl key rate now).2 = (true, 0) ∨
  (take rl key rate now).2 = (false, Minute) ∨
  ∃ t, (take rl key rate now).2 = (false, retry_after t rate).
Proof.
  unfold take. destruct (resolve _ _ _ _ _) as [[bs b]|]; [|by right; left].
  destruct (Qle_bool _ _); [by left|right; right; by eexists].
Qed.

End Results.

(** ** Calls at one instant *)

Section Burst.

Context {rt : GoRuntime}.

Lemma run_app rl (l1 l2 : list call) :
  run rl (l1 ++ l2) =
    ((run (run rl l1).1 l2).1, (run rl l1).2 ++ (run (run rl l1).1 l2).2).
Proof.
  revert rl. induction l1 as [|[[key rate] now] l1 IH]; intros rl; simpl.
  - by destruct (run rl l2).
  - destruct (take rl key rate now) as [rl1 r]. rewrite IH.
    destruct (run rl1 l1) as [rl2 rs]. simpl. by destruct (run rl2 l2).
Qed.

Lemma run_cons rl key rate now (l : list call) :
  run rl ((key, rate, now) :: l) =
    ((run (take rl key rate now).1 l).1,
     (take rl key rate now).2 :: (run (take rl key rate now).1 l).2).
Proof.
  simpl. destruct (take rl key rate now) as [rl1 r]. simpl. by destruct (run rl1 l).
Qed.

Lemma run_cons_state rl key rate now (l : list call) :
  (run rl ((key, rate, now) :: l)).1 = (run (take rl key rate now).1 l).1.
Proof. by rewrite run_cons. Qed.

Lemma run_cons_results rl key rate now (l : list call) :
  (run rl ((key, rate, now) :: l)).2 =
    (take rl key rate now).2 :: (run (take rl key rate now).1 l).2.
Proof. by rewrite run_cons. Qed.

Lemma run_app_state rl (l1 l2 : list call) :
  (run rl (l1 ++ l2)).1 = (run (run rl l1).1 l2).1.
Proof. by rewrite run_app. Qed.

Lemma run_app_results rl (l1 l2 : list call) :
  (run rl (l1 ++ l2)).2 = (run rl l1).2 ++ (run (run rl l1).1 l2).2.
Proof. by rewrite run_app. Qed.

(** A call that creates the bucket leaves the burst less one token. *)
Lemma created_holds rl key rate now bs b :
  buckets (sweep rl now) !! key = None →
  resolve (buckets (sweep rl now)) (maxBuckets (sweep rl now)) key rate now = Some (bs, b) →
  (take rl key rate now).2 = (true, 0) ∧
  holds_at (take rl key rate now).1 key now (dynBurst rate - 1).
Proof.
  intros Hk Hres. rewrite (take_created _ _ _ _ _ _ Hk Hres). split; [done|].
  eexists. split_and!; [apply lookup_insert_eq| |done|done|apply sweep_quiet].
  simpl. unfold Z.sub. rewrite inject_Z_plus, inject_Z_opp. reflexivity.
Qed.

(** With at least one token in hand a call at the same instant is admitted
    and takes one token. *)
Lemma holds_admit rl key rate now n :
  holds_at rl key now n → 1 <= n →
  (take rl key rate now).2 = (true, 0) ∧
  holds_at (take rl key rate now).1 key now (n - 1).
Proof.
  intros (b & Hb & Htok & Hlast & Hacc & Hquiet) Hn.
  pose proof (sweep_skip rl now Hquiet) as Hsw.
  assert (buckets (sweep rl now) !! key = Some b) as Hb' by by rewrite Hsw.
  rewrite (take_present _ _ _ _ _ Hb'). cbv zeta.
  rewrite refill_same_instant by lia. simpl.
  assert (Qle_bool 1 (tokens b) = true) as ->.
  { apply Qle_bool_iff. rewrite Htok. change 1%Q with (inject_Z 1). by rewrite <- Zle_Qle. }
  split; [done|]. simpl.
  eexists. split_and!; [apply lookup_insert_eq| |done|done|by rewrite Hsw].
  simpl. rewrite Htok. unfold Z.sub. rewrite inject_Z_plus, inject_Z_opp. reflexivity.
Qed.

(** With no token in hand a call at the same instant is rejected, with a
    hint of at least one second, and changes nothing. *)
Lemma holds_reject rl key rate now n :
  holds_at rl key now n → n < 1 →
  (take rl key rate now).2.1 = false ∧
  Second <= (take rl key rate now).2.2 ∧
  holds_at (take rl key rate now).1 key now n.
Proof.
  intros (b & Hb & Htok & Hlast & Hacc & Hquiet) Hn.
  pose proof (sweep_skip rl now Hquiet) as Hsw.
  assert (buckets (sweep rl now) !! key = Some b) as Hb' by by rewrite Hsw.
  rewrite (take_present _ _ _ _ _ Hb'). cbv zeta.
  rewrite refill_same_instant by lia. simpl.
  assert (Qle_bool 1 (tokens b) = false) as ->.
  { apply not_true_iff_false. rewrite Qle_bool_iff, Htok.
    change 1%Q with (inject_Z 1). rewrite <- Zle_Qle. lia. }
  simpl. split_and!; [done|apply retry_after_floor|].
  eexists. split_and!; [apply lookup_insert_eq|done|done|done|by rewrite Hsw].
Qed.

(** [j] calls at the same instant are all admitted while tokens last. *)
Lemma holds_drain (j : nat) rl key rate now n :
  holds_at rl key now n → Z.of_nat j <= n →
  (run rl (replicate j (key, rate, now))).2 = replicate j (true, 0) ∧
  holds_at (run rl (replicate j (key, rate, now))).1 key now (n - Z.of_nat j).
Proof.
  revert rl n. induction j as [|j IH]; intros rl n Hh Hj.
  - split; [done|]. change (holds_at rl key now (n - 0)). by rewrite Z.sub_0_r.
  - change (replicate (S j) (key, rate, now))
      with ((key, rate, now) :: replicate j (key, rate, now)).
    rewrite run_cons. simpl.
    destruct (holds_admit _ _ rate _ _ Hh) as [Hr Hh']; [lia|].
    destruct (IH _ _ Hh') as [Hrs Hh'']; [lia|].
    rewrite Hr, Hrs. split; [done|].
    replace (n - Z.of_nat (S j)) with (n - 1 - Z.of_nat j) by lia. done.
Qed.

(** From [n] tokens in hand, [n + 1] calls at the same instant: exactly the
    first [n] are admitted. *)
Lemma holds_burst rl key rate now n :
  holds_at rl key now n → 0 <= n →
  let rs := (run rl (replicate (Z.to_nat n + 1) (key, rate, now))).2 in
  rs.*1 = replicate (Z.to_nat n) true ++ [false] ∧
  Forall (λ r, r.1 = false → Second <= r.2) rs ∧
  holds_at (run rl (replicate (Z.to_nat n + 1) (key, rate, now))).1 key now 0.
Proof.
  intros Hh Hn. cbv zeta. rewrite replicate_add, run_app.
  change (replicate 1 (key, rate, now)) with [(key, rate, now)].
  destruct (holds_drain (Z.to_nat n) _ _ rate _ _ Hh) as [Hrs Hh']; [lia|].
  replace (n - Z.of_nat (Z.to_nat n)) with 0 in Hh' by lia.
  rewrite Hrs. rewrite run_cons. simpl.
  destruct (holds_reject _ _ rate _ _ Hh') as (Hf & Hret & Hh''); [lia|].
  split_and!.
  - rewrite fmap_app, fmap_replicate. simpl. by rewrite Hf.
  - apply Forall_app. split.
    + apply Forall_replicate. done.
    + apply Forall_singleton. done.
  - done.
Qed.

End Burst.

(** * The claims of the specification *)

Section Outcomes.

Context {rt : GoRuntime}.

(** C9. Every call of [take] that rejects returns a [retryAfter] of at least
    one second, and every call that admits returns a [retryAfter] of zero,
    whatever the rate, zero and negative rates included, and whatever the
    runtime makes of an invalid float conversion. *)
Theorem take_retry_floor (rl : RateLimiter) (key : string) (rate : Z) (now : Time) :
  match (take rl key rate now).2 with
  | (true, retryAfter) => retryAfter = 0
  | (false, retryAfter) => Second <= retryAfter
  end.
Proof.
  destruct (take_result rl key rate now) as [->|[->|[t ->]]].
  - reflexivity.
  - unfold Minute, Second. lia.
  - apply retry_after_floor.
Qed.

(** C10. For every rate, zero and negative ones included, the first call for
    a key that has no bucket, on a table holding fewer than [maxBuckets]
    buckets, is admitted. *)
Theorem first_call_admitted (rl : RateLimiter) (key : string) (rate : Z) (now : Time) :
  buckets rl !! key = None →
  len (buckets rl) < maxBuckets rl →
  (take rl key rate now).2 = (true, 0).
Proof.
  intros Hk Hlen.
  assert (buckets (sweep rl now) !! key = None) as Hk'.
  { eapply lookup_weaken_None; [exact Hk|apply sweep_subseteq]. }
  assert (len (buckets (sweep rl now)) < maxBuckets (sweep rl now)) as Hlen'.
  { rewrite sweep_maxBuckets. pose proof (map_subseteq_size _ _ (sweep_subseteq rl now)).
    unfold len in *. lia. }
  by rewrite (take_created _ _ _ _ _ _ Hk' (resolve_room _ _ _ rate now Hk' Hlen')).
Qed.

End Outcomes.

Lemma first_call_admitted_witness :
  (@take ref_runtime (NewRateLimiter 0 0) "client" (-5) 42).2 = (true, 0).
Proof.
  apply (@first_call_admitted ref_runtime (NewRateLimiter 0 0) "client" (-5) 42).
  - reflexivity.
  - vm_compute. reflexivity.
Defined.

(** The reference runtime enumerates each entry once. *)
Lemma ref_runtime_perm (bs : gmap string bucket) :
  @range_order ref_runtime bs ≡ₚ map_to_list bs.
Proof. reflexivity. Qed.

Section Sweep.

Context {rt : GoRuntime}.
Hypothesis range_order_perm : ∀ bs, range_order bs ≡ₚ map_to_list bs.

(** C7. A call of [take] at [now], more than five minutes after the last
    sweep, first removes every bucket last accessed before [now] minus
    fifteen minutes and keeps every other bucket, and records [now] as the
    time of the last sweep; this is the table the admission decision works
    on.  Whatever the key of the call, the stale buckets of the other keys
    are absent, and the sweep time is [now], when the call returns. *)
Theorem sweep_removes_stale (rl : RateLimiter) (key : string) (rate : Z) (now : Time) :
  bucketCleanupInterval < now - lastCleanup rl →
  lastCleanup (sweep rl now) = now ∧
  (∀ k b, buckets rl !! k = Some b → accessed b < now - bucketInactiveThreshold →
          buckets (sweep rl now) !! k = None) ∧
  (∀ k b, buckets rl !! k = Some b → now - bucketInactiveThreshold <= accessed b →
          buckets (sweep rl now) !! k = Some b) ∧
  lastCleanup (take rl key rate now).1 = now ∧
  (∀ k b, k ≠ key → buckets rl !! k = Some b →
          accessed b < now - bucketInactiveThreshold →
          buckets (take rl key rate now).1 !! k = None).
Proof.
  intros Hdue.
  assert (sweep rl now =
          {| buckets := cleanupStaleBuckets (buckets rl) now; ratePerMin := ratePerMin rl;
             maxBuckets := maxBuckets rl; lastCleanup := now |}) as Hsw.
  { unfold sweep. rewrite Sub_pos by (clock_cases; lia).
    destruct (Z.ltb_spec bucketCleanupInterval (now - lastCleanup rl)); [done|lia]. }
  assert (∀ k b, buckets rl !! k = Some b → accessed b < now - bucketInactiveThreshold →
                 buckets (sweep rl now) !! k = None) as Hstale.
  { intros k b Hk Hold. rewrite Hsw. simpl.
    rewrite (cleanup_lookup range_order_perm), Hk.
    unfold Before, Add. destruct (Z.ltb_spec (accessed b) (now + - bucketInactiveThreshold)); [done|lia]. }
  split_and!.
  - by rewrite Hsw.
  - exact Hstale.
  - intros k b Hk Hrecent. rewrite Hsw. simpl.
    rewrite (cleanup_lookup range_order_perm), Hk.
    unfold Before, Add. destruct (Z.ltb_spec (accessed b) (now + - bucketInactiveThreshold)); [lia|done].
  - by rewrite take_lastCleanup, Hsw.
  - intros k b Hne Hk Hold. apply take_other_absent; [done|]. by eapply Hstale.
Qed.

End Sweep.

Lemma sweep_removes_stale_witness :
  let rl := two_bucket_limiter in
  let now := 21 * Minute in
  lastCleanup (@sweep ref_runtime rl now) = now ∧
  (∀ k b, buckets rl !! k = Some b → accessed b < now - bucketInactiveThreshold →
          buckets (@sweep ref_runtime rl now) !! k = None) ∧
  (∀ k b, buckets rl !! k = Some b → now - bucketInactiveThreshold <= accessed b →
          buckets (@sweep ref_runtime rl now) !! k = Some b) ∧
  lastCleanup (@take ref_runtime rl "other" 60 now).1 = now ∧
  (∀ k b, k ≠ "other"%string → buckets rl !! k = Some b →
          accessed b < now - bucketInactiveThreshold →
          buckets (@take ref_runtime rl "other" 60 now).1 !! k = None).
Proof.
  apply (@sweep_removes_stale ref_runtime ref_runtime_perm two_bucket_limiter "other" 60 (21 * Minute)).
  vm_compute. reflexivity.
Defined.

Section BurstClaims.

Context {rt : GoRuntime}.


(** C1, as the code has it.  Rate 60 per minute, burst 30, on a new limiter:
    of 31 calls for one key at one instant the first 30 are admitted and the
    31st is rejected; one minute later, with no call in between, the bucket
    is back at its cap of 30 tokens, so of 31 further calls at that instant
    the first 30 are admitted and the 31st is rejected.  Every rejection
    carries a [retryAfter] of at least one second. *)
Theorem scenario_sixty_per_minute
    (range_order_perm : ∀ bs, range_order bs ≡ₚ map_to_list bs)
    (key : string) (rate0 : Z) (t0 t1 : Time) :
  let calls := replicate 31 (key, 60, t1) ++ replicate 31 (key, 60, t1 + Minute) in
  let rs := (run (NewRateLimiter rate0 t0) calls).2 in
  rs.*1 = replicate 30 true ++ [false] ++ replicate 30 true ++ [false] ∧
  Forall (λ r, r.1 = false → Second <= r.2) rs.
Proof.
  cbv zeta. rewrite run_app_results.
  set (rl0 := NewRateLimiter rate0 t0).
  (* the first instant *)
  assert (buckets (sweep rl0 t1) !! key = None) as Hk0.
  { eapply lookup_weaken_None; [|apply sweep_subseteq]. done. }
  assert (len (buckets (sweep rl0 t1)) < maxBuckets (sweep rl0 t1)) as Hlen0.
  { rewrite sweep_maxBuckets. pose proof (map_subseteq_size _ _ (sweep_subseteq rl0 t1)) as Hs.
    simpl in Hs. rewrite map_size_empty in Hs. unfold len. simpl. unfold defaultMaxBuckets. lia. }
  destruct (created_holds _ _ _ _ _ _ Hk0 (resolve_room _ _ _ 60 t1 Hk0 Hlen0)) as [Hr1 Hh1].
  change (dynBurst 60 - 1) with 29 in Hh1.
  change (replicate 31 (key, 60, t1)) with ((key, 60, t1) :: replicate (Z.to_nat 29 + 1) (key, 60, t1)).
  rewrite run_cons_results, run_cons_state, Hr1.
  set (rl1 := (take rl0 key 60 t1).1) in *.
  destruct (holds_burst _ _ 60 _ _ Hh1) as (Hrs1 & Hret1 & Hh2); [lia|]. cbv zeta in Hrs1, Hret1.
  set (run1 := run rl1 (replicate (Z.to_nat 29 + 1) (key, 60, t1))) in *.
  set (rl2 := run1.1) in *.
  (* one minute later *)
  destruct Hh2 as (b & Hb & Htok & Hlast & Hacc & Hquiet).
  assert (buckets (sweep rl2 (t1 + Minute)) !! key = Some b) as Hb'.
  { unfold sweep. destruct (_ <? _); [|done]. simpl.
    rewrite (cleanup_lookup range_order_perm), Hb, Hacc.
    unfold Before, Add. destruct (Z.ltb_spec t1 (t1 + Minute + - bucketInactiveThreshold)) as [Hlt|]; [|done].
    unfold bucketInactiveThreshold, Minute, Second in Hlt. lia. }
  assert ((take rl2 key 60 (t1 + Minute)).2 = (true, 0) ∧
          holds_at (take rl2 key 60 (t1 + Minute)).1 key (t1 + Minute) 29) as [Hr3 Hh3].
  { rewrite (take_present _ _ _ _ _ Hb'). cbv zeta.
    assert (refill b 60 (t1 + Minute) =
            {| tokens := maxTokens 60; last := t1 + Minute; accessed := t1 + Minute |}) as ->.
    { unfold refill. cbn [tokens last accessed]. rewrite Hlast.
      rewrite Minutes_pos, Sub_sign.
      destruct (Z.ltb_spec 0 (t1 + Minute - t1)) as [_|Hle];
        [|unfold Minute, Second in Hle; lia].
      assert (Qltb (maxTokens 60) (tokens b + Minutes (Sub (t1 + Minute) t1) * inject_Z 60) = true) as ->;
        [|done].
      apply Qltb_lt. rewrite Htok, Minutes_eq.
      replace (Sub (t1 + Minute) t1) with Minute; [reflexivity|].
      clock_cases; lia. }
    cbn [tokens last accessed].
    change (Qle_bool 1 (maxTokens 60)) with true. cbn [fst snd]. split; [done|].
    eexists. split_and!; [apply lookup_insert_eq| |done|done|apply sweep_quiet].
    reflexivity. }
  change (replicate 31 (key, 60, t1 + Minute))
    with ((key, 60, t1 + Minute) :: replicate (Z.to_nat 29 + 1) (key, 60, t1 + Minute)).
  rewrite run_cons_results, Hr3.
  destruct (holds_burst _ _ 60 _ _ Hh3) as (Hrs3 & Hret3 & _); [lia|]. cbv zeta in Hrs3, Hret3.
  split.
  - rewrite fmap_app, !fmap_cons, Hrs1, Hrs3. reflexivity.
  - apply Forall_app. split; apply Forall_cons; (split; [done|]); assumption.
Qed.

End BurstClaims.

(** ** The token invariant *)

Section TokenBounds.

Context {rt : GoRuntime}.










End TokenBounds.

(** ** The bound on the number of buckets *)

Section TableSize.

Context {rt : GoRuntime}.
Hypothesis range_order_perm : ∀ bs, range_order bs ≡ₚ map_to_list bs.

Lemma len_insert_fresh (bs : gmap string bucket) key b :
  bs !! key = None → len (<[key := b]> bs) = len bs + 1.
Proof. intros Hk. unfold len. rewrite map_size_insert_None by done. lia. Qed.

Lemma len_insert_same (bs : gmap string bucket) key b :
  is_Some (bs !! key) → len (<[key := b]> bs) = len bs.
Proof. intros Hk. unfold len. by rewrite map_size_insert_Some. Qed.

Lemma len_delete (bs : gmap string bucket) k b :
  bs !! k = Some b → len (delete k bs) = len bs - 1.
Proof.
  intros Hk. unfold len. rewrite map_size_delete, Hk. simpl.
  assert (size bs ≠ 0%nat); [|lia].
  intros Hz%map_size_empty_inv. by rewrite Hz, lookup_empty in Hk.
Qed.

Lemma len_subseteq (bs bs' : gmap string bucket) : bs' ⊆ bs → len bs' <= len bs.
Proof. intros Hsub%map_subseteq_size. unfold len. lia. Qed.

(** [resolve] on a full table, for a key without a bucket: either the scan
    finds nothing to delete (the table is empty, or the entry it selects has
    the empty string as key) and the call returns at line 84, or a bucket
    with an oldest access time makes room for the new one. *)
Lemma resolve_full bs maxB key rate now :
  bs !! key = None → maxB <= len bs →
  (resolve bs maxB key rate now = None ∧
   (bs = ∅ ∨ ∃ b, bs !! ""%string = Some b ∧ oldest_in bs b)) ∨
  (∃ v bv, v ≠ ""%string ∧ bs !! v = Some bv ∧ oldest_in bs bv ∧
     resolve bs maxB key rate now =
       Some (<[key := {| tokens := inject_Z (dynBurst rate); last := now; accessed := now |}]>
               (delete v bs),
             {| tokens := inject_Z (dynBurst rate); last := now; accessed := now |})).
Proof.
  intros Hk Hfull. unfold resolve. rewrite Hk.
  destruct (Z.leb_spec maxB (len bs)) as [_|]; [|lia].
  destruct (decide (bs = ∅)) as [->|Hne].
  { left. rewrite (evict_empty range_order_perm). by split; [|left]. }
  destruct (evict_nonempty range_order_perm bs now Hne) as (v & bv & Hv & Hold & ->).
  destruct (String.eqb_spec v "") as [->|Hv'']; simpl.
  - left. split; [done|]. right. by exists bv.
  - right. by exists v, bv.
Qed.

(** The table [resolve] leaves holds the bucket it returns, at [key]. *)
Lemma resolve_lookup bs maxB key rate now bs' b :
  resolve bs maxB key rate now = Some (bs', b) → bs' !! key = Some b.
Proof.
  unfold resolve. destruct (bs !! key) as [b0|] eqn:Hk.
  - by intros [= <- <-].
  - destruct (maxB <=? len bs).
    + destruct (evictOldestBucket bs now) as [bs0 [|]]; [|done].
      intros [= <- <-]. apply lookup_insert_eq.
    + intros [= <- <-]. apply lookup_insert_eq.
Qed.

Lemma resolve_len bs maxB key rate now bs' b :
  len bs <= maxB →
  resolve bs maxB key rate now = Some (bs', b) → len bs' <= maxB.
Proof.
  intros Hlen Hres. destruct (bs !! key) as [b0|] eqn:Hk.
  - rewrite (resolve_present _ _ _ _ _ _ Hk) in Hres. by injection Hres as <- <-.
  - destruct (Z.le_gt_cases maxB (len bs)) as [Hfull|Hroom].
    + destruct (resolve_full _ _ _ rate now Hk Hfull) as [[Hnone _]|(v & bv & _ & Hv & _ & Hsome)];
        [congruence|].
      rewrite Hsome in Hres. injection Hres as <- <-.
      rewrite len_insert_fresh by (rewrite lookup_delete_ne; [done|congruence]).
      rewrite (len_delete _ _ _ Hv). lia.
    + rewrite (resolve_room _ _ _ _ _ Hk) in Hres by lia. injection Hres as <- <-.
      rewrite len_insert_fresh by done. lia.
Qed.

(** What [take] stores: its bucket, in the table [resolve] left. *)
Lemma take_stores rl key rate now :
  match resolve (buckets (sweep rl now)) (maxBuckets (sweep rl now)) key rate now with
  | None => take rl key rate now = (sweep rl now, (false, Minute))
  | Some (bs, _) => ∃ b, (take rl key rate now).1 = with_buckets (sweep rl now) (<[key := b]> bs)
  end.
Proof.
  unfold take. destruct (resolve _ _ _ _ _) as [[bs b]|]; [|done].
  destruct (Qle_bool _ _); by eexists.
Qed.

(** One call keeps the table within [maxBuckets]. *)
Lemma take_len rl key rate now :
  len (buckets rl) <= maxBuckets rl →
  len (buckets (take rl key rate now).1) <= maxBuckets rl.
Proof.
  intros Hlen.
  assert (len (buckets (sweep rl now)) <= maxBuckets (sweep rl now)) as Hsw.
  { rewrite sweep_maxBuckets. etrans; [apply len_subseteq, sweep_subseteq|done]. }
  pose proof (take_stores rl key rate now) as Hst.
  destruct (resolve _ _ _ _ _) as [[bs b]|] eqn:Hres.
  - destruct Hst as [b' ->]. simpl.
    rewrite len_insert_same by (rewrite (resolve_lookup _ _ _ _ _ _ _ Hres); by eexists).
    rewrite <- (sweep_maxBuckets rl now). by eapply resolve_len.
  - rewrite Hst. simpl. by rewrite <- (sweep_maxBuckets rl now).
Qed.

Lemma run_maxBuckets rl (l : list call) : maxBuckets (run rl l).1 = maxBuckets rl.
Proof.
  revert rl. induction l as [|[[k r] t] l IH]; intros rl; [done|].
  by rewrite run_cons_state, IH, take_maxBuckets.
Qed.

Lemma run_len rl (l : list call) :
  len (buckets rl) <= maxBuckets rl →
  len (buckets (run rl l).1) <= maxBuckets rl.
Proof.
  revert rl. induction l as [|[[k r] t] l IH]; intros rl Hlen; [done|].
  rewrite run_cons_state. rewrite <- (take_maxBuckets rl k r t).
  apply IH. rewrite take_maxBuckets. by apply take_len.
Qed.

(** While there is room and no sweep is due, calls for new keys each add
    their bucket. *)
Lemma run_fills rl (l : list call) :
  NoDup (keys_of l) →
  (∀ k, k ∈ keys_of l → buckets rl !! k = None) →
  no_sweep_due (lastCleanup rl) l →
  len (buckets rl) + Z.of_nat (length l) <= maxBuckets rl →
  len (buckets (run rl l).1) = len (buckets rl) + Z.of_nat (length l) ∧
  lastCleanup (run rl l).1 = lastCleanup rl ∧
  (∀ k, k ∉ keys_of l → buckets (run rl l).1 !! k = buckets rl !! k).
Proof.
  revert rl. induction l as [|[[k r] t] l IH]; intros rl Hnd Hnew Hquiet Hroom.
  { simpl. split_and!; [lia|done|done]. }
  unfold keys_of in *. rewrite !fmap_cons in *. cbn [fst] in *.
  apply NoDup_cons in Hnd as [Hk Hnd].
  apply Forall_cons in Hquiet as [Hq Hquiet]. cbn [snd] in Hq.
  rewrite length_cons in *.
  rewrite run_cons_state.
  assert (sweep rl t = rl) as Hsw by by apply sweep_skip.
  assert (buckets rl !! k = None) as Hknone by (apply Hnew; left).
  assert ((take rl k r t).1 =
          with_buckets rl (<[k := {| tokens := (inject_Z (dynBurst r) - 1)%Q;
                                     last := t; accessed := t |}]> (buckets rl))) as Htake.
  { erewrite take_created; rewrite Hsw; [|done|apply resolve_room; [done|lia]].
    simpl. by rewrite insert_insert_eq. }
  destruct (IH (take rl k r t).1) as (Hlen & Hlc & Hframe).
  - done.
  - intros k' Hk'. rewrite Htake. simpl.
    rewrite lookup_insert_ne by (intros ->; done). apply Hnew. by right.
  - by rewrite Htake.
  - rewrite Htake. simpl. rewrite len_insert_fresh by done. lia.
  - split_and!.
    + rewrite Hlen, Htake. simpl. rewrite len_insert_fresh by done. lia.
    + by rewrite Hlc, Htake.
    + intros k' Hk'. rewrite Hframe by (intros ?; apply Hk'; by right).
      rewrite Htake. simpl. apply lookup_insert_ne. intros ->. apply Hk'. left.
Qed.

(** C4, as the code has it.  From an empty limiter the table never holds
    more than [maxBuckets] buckets, whatever the calls.  After calls for
    [maxBuckets + 1] distinct keys, none of which comes late enough to
    trigger a sweep, it holds exactly [maxBuckets] buckets; and when none of
    the first [maxBuckets] keys is the empty string, the last call has
    replaced a bucket with an oldest access time by the bucket of its key,
    leaving the other buckets as they were. *)
Theorem table_within_maxBuckets (rl0 : RateLimiter) (l : list call)
    (key : string) (rate : Z) (now : Time) :
  buckets rl0 = ∅ →
  0 <= maxBuckets rl0 →
  Z.of_nat (length l) = maxBuckets rl0 →
  NoDup (keys_of (l ++ [(key, rate, now)])) →
  no_sweep_due (lastCleanup rl0) (l ++ [(key, rate, now)]) →
  let rl := (run rl0 l).1 in
  let rl' := (run rl0 (l ++ [(key, rate, now)])).1 in
  (∀ l' : list call, len (buckets (run rl0 l').1) <= maxBuckets rl0) ∧
  len (buckets rl') = maxBuckets rl0 ∧
  (""%string ∉ keys_of l → 1 <= maxBuckets rl0 →
   ∃ v bv, buckets rl !! v = Some bv ∧ oldest_in (buckets rl) bv ∧
           buckets rl' !! v = None ∧ is_Some (buckets rl' !! key) ∧
           ∀ k, k ≠ v → k ≠ key → buckets rl' !! k = buckets rl !! k).
Proof.
  intros Hempty Hmax Hlen Hnd Hquiet. cbv zeta.
  assert (len (buckets rl0) = 0) as Hlen0 by (rewrite Hempty; done).
  split.
  { intros l'. apply run_len. lia. }
  unfold keys_of in Hnd. rewrite !fmap_app in Hnd. cbn in Hnd.
  apply NoDup_app in Hnd as (Hnd & Hfresh & _).
  apply Forall_app in Hquiet as [Hquiet Hlast].
  rewrite Forall_singleton in Hlast. cbn [snd] in Hlast.
  destruct (run_fills rl0 l) as (Hfull & Hlc & Hframe).
  { done. } { intros k _. by rewrite Hempty. } { done. } { lia. }
  rewrite run_app_state, run_cons_state. cbn [run fst].
  set (rl := (run rl0 l).1) in *.
  assert (buckets rl !! key = None) as Hk.
  { rewrite Hframe, Hempty; [done|]. intros Hin. apply (Hfresh key Hin). left. }
  assert (sweep rl now = rl) as Hsw by (apply sweep_skip; by rewrite Hlc).
  assert (maxBuckets rl = maxBuckets rl0) as Hmb by apply run_maxBuckets.
  pose proof (take_stores rl key rate now) as Hst. rewrite Hsw in Hst.
  destruct (resolve_full (buckets rl) (maxBuckets rl) key rate now Hk)
    as [[Hnone Hwhy]|(v & bv & Hv' & Hv & Hold & Hsome)]; [lia| |].
  - rewrite Hnone in Hst. rewrite Hst. cbn [fst]. split; [lia|].
    intros Hnokey Hone. exfalso. destruct Hwhy as [Hnil|(b & Hb & _)].
    + rewrite Hnil in Hfull. unfold len in Hfull. rewrite map_size_empty in Hfull. lia.
    + rewrite Hframe, Hempty in Hb; done.
  - rewrite Hsome in Hst. destruct Hst as [b ->]. cbn [buckets with_buckets].
    rewrite insert_insert_eq.
    assert (v ≠ key) as Hvk by congruence.
    split.
    + rewrite len_insert_fresh by (by rewrite lookup_delete_ne).
      rewrite (len_delete _ _ _ Hv). lia.
    + intros _ _. exists v, bv. split_and!; [done|done| | |].
      * rewrite lookup_insert_ne by done. apply lookup_delete_eq.
      * rewrite lookup_insert_eq. by eexists.
      * intros k Hkv Hkk. rewrite lookup_insert_ne by done. by apply lookup_delete_ne.
Qed.

End TableSize.

(** ** Concrete runs *)


Lemma scenario_sixty_per_minute_witness :
  let calls := replicate 31 ("a"%string, 60, 0) ++ replicate 31 ("a"%string, 60, 0 + Minute) in
  let rs := (@run ref_runtime (NewRateLimiter 60 0) calls).2 in
  rs.*1 = replicate 30 true ++ [false] ++ replicate 30 true ++ [false] ∧
  Forall (λ r, r.1 = false → Second <= r.2) rs.
Proof.
  exact (@scenario_sixty_per_minute ref_runtime ref_runtime_perm "a" 60 0 0).
Defined.

(** C1 as the specification words it fails: one minute after the bucket was
    emptied, the 31st of 60 further calls is rejected. *)
Lemma scenario_sixty_further_calls_refuted :
  let rl := (@run ref_runtime (NewRateLimiter 60 0) (replicate 31 ("a"%string, 60, 0))).1 in
  (@run ref_runtime rl (replicate 60 ("a"%string, 60, Minute))).2 !! 30%nat
    = Some (false, Second) ∧
  (@run ref_runtime rl (replicate 60 ("a"%string, 60, Minute))).2.*1 ≠ replicate 60 true.
Proof. split; [vm_compute; reflexivity|vm_compute; discriminate]. Qed.




Lemma table_within_maxBuckets_witness :
  let rl0 := small_limiter 2 in
  let l := [("a"%string, 60, 0); ("b"%string, 60, 1)] in
  let rl := (@run ref_runtime rl0 l).1 in
  let rl' := (@run ref_runtime rl0 (l ++ [("c"%string, 60, 2)])).1 in
  (∀ l' : list call, len (buckets (@run ref_runtime rl0 l').1) <= maxBuckets rl0) ∧
  len (buckets rl') = maxBuckets rl0 ∧
  (""%string ∉ keys_of l → 1 <= maxBuckets rl0 →
   ∃ v bv, buckets rl !! v = Some bv ∧ oldest_in (buckets rl) bv ∧
           buckets rl' !! v = None ∧ is_Some (buckets rl' !! "c"%string) ∧
           ∀ k, k ≠ v → k ≠ "c"%string → buckets rl' !! k = buckets rl !! k).
Proof.
  apply (@table_within_maxBuckets ref_runtime ref_runtime_perm (small_limiter 2)
           [("a"%string, 60, 0); ("b"%string, 60, 1)] "c" 60 2).
  - reflexivity.
  - simpl. lia.
  - reflexivity.
  - apply (bool_decide_unpack _). vm_compute. reflexivity.
  - apply (bool_decide_unpack _). vm_compute. reflexivity.
Defined.

(** C4 as the specification words it fails: with room for two buckets,
    three distinct keys, the third twenty minutes after the others, leave
    one bucket, the sweep having removed the first two. *)
Lemma table_exactly_maxBuckets_refuted :
  let l := [("a"%string, 60, 0); ("b"%string, 60, 0); ("c"%string, 60, 20 * Minute)] in
  NoDup (keys_of l) ∧
  Z.of_nat (length l) = maxBuckets (small_limiter 2) + 1 ∧
  len (buckets (@run ref_runtime (small_limiter 2) l).1) ≠ maxBuckets (small_limiter 2).
Proof.
  split_and!.
  - apply (bool_decide_unpack _). vm_compute. reflexivity.
  - reflexivity.
  - vm_compute. discriminate.
Qed.

(** ** The retry hint *)

Section RetryAfter.

Context {rt : GoRuntime}.

(** Truncation of a non-negative rational is its floor. *)
Lemma Qtrunc_floor (q : Q) : (0 <= q)%Q → Qtrunc q = Qfloor q.
Proof.
  destruct q as [n d]. unfold Qle, Qtrunc, Qfloor. simpl. intros Hn.
  apply Z.quot_div_nonneg; lia.
Qed.

Lemma Qtrunc_bounds (q : Q) :
  (0 <= q)%Q → 0 <= Qtrunc q ∧ (inject_Z (Qtrunc q) <= q)%Q ∧ (q < inject_Z (Qtrunc q) + 1)%Q.
Proof.
  intros Hq. rewrite (Qtrunc_floor q Hq). split_and!.
  - change 0 with (Qfloor 0). by apply Qfloor_resp_le.
  - apply Qfloor_le.
  - change 1%Q with (inject_Z 1). rewrite <- inject_Z_plus. apply Qlt_floor.
Qed.

Lemma deficit_wait_pos (x : Q) (rate : Z) :
  (x < 1)%Q → 0 < rate → (0 < deficit_wait x rate)%Q.
Proof.
  intros Hx Hr. unfold deficit_wait.
  apply Qmult_lt_0_compat; [|reflexivity].
  apply Qlt_shift_div_l.
  - change 0%Q with (inject_Z 0). by rewrite <- Zlt_Qlt.
  - rewrite Qmult_0_l. unfold Qminus. rewrite <- (Qplus_opp_r x).
    apply Qplus_lt_l. exact Hx.
Qed.

(** The hint for a positive rate and a wait that fits a [Duration]. *)
Lemma retry_after_value (x : Q) (rate : Z) :
  (x < 1)%Q → 0 < rate →
  (deficit_wait x rate < inject_Z (2 ^ 63))%Q →
  retry_after x rate = Z.max Second (Qtrunc (deficit_wait x rate)).
Proof.
  intros Hx Hr Hfit. unfold retry_after.
  destruct (Z.eqb_spec rate 0) as [?|_]; [lia|]. fold (deficit_wait x rate).
  pose proof (deficit_wait_pos x rate Hx Hr) as Hpos.
  destruct (Qtrunc_bounds (deficit_wait x rate)) as (Hlo & Hle & _); [by apply Qlt_le_weak|].
  assert (Qtrunc (deficit_wait x rate) < 2 ^ 63) as Hhi.
  { rewrite Zlt_Qlt. eapply Qle_lt_trans; [exact Hle|exact Hfit]. }
  unfold duration_of_float, minDuration, maxDuration.
  destruct (Z.ltb_spec (Qtrunc (deficit_wait x rate)) (- 2 ^ 63)) as [?|_]; [lia|].
  destruct (Z.ltb_spec (2 ^ 63 - 1) (Qtrunc (deficit_wait x rate))) as [?|_]; [lia|].
  simpl orb. cbv iota.
  destruct (Z.ltb_spec (Qtrunc (deficit_wait x rate)) Second); lia.
Qed.


End RetryAfter.



(** ** Isolation of keys *)

Section Isolation.

Context {rt : GoRuntime}.
Hypothesis range_order_perm : ∀ bs, range_order bs ≡ₚ map_to_list bs.

(** The bucket of a key after the sweep phase of a call. *)
Lemma sweep_lookup rl now k :
  buckets (sweep rl now) !! k =
  match buckets rl !! k with
  | Some b =>
      if (bucketCleanupInterval <? now - lastCleanup rl)
         && (accessed b <? now - bucketInactiveThreshold)
      then None else Some b
  | None => None
  end.
Proof.
  unfold sweep. rewrite Sub_pos by (clock_cases; lia).
  destruct (bucketCleanupInterval <? now - lastCleanup rl); simpl.
  - rewrite (cleanup_lookup range_order_perm). unfold Before, Add.
    by replace (now + - bucketInactiveThreshold) with (now - bucketInactiveThreshold) by lia.
  - by destruct (buckets rl !! k).
Qed.

Lemma sweep_lastCleanup_le rl now tcur :
  lastCleanup rl <= tcur → tcur <= now → lastCleanup (sweep rl now) <= now.
Proof. intros H1 H2. unfold sweep. destruct (_ <? _); simpl; lia. Qed.

Lemma sweep_lastCleanup_ge rl now : lastCleanup rl <= lastCleanup (sweep rl now) ∨ lastCleanup (sweep rl now) = now.
Proof. unfold sweep. destruct (_ <? _); simpl; [by right|left; lia]. Qed.

(** A table that fits [K] has room for a key of [K] it does not hold. *)
Lemma fits_room K (bs : gmap string bucket) maxB key :
  dom bs ⊆ K → Z.of_nat (size K) <= maxB → key ∈ K → bs !! key = None →
  len bs < maxB.
Proof.
  intros Hdom Hsize Hin Hk. unfold len. rewrite <- size_dom.
  assert (dom bs ⊂ K) as Hstrict.
  { split; [done|]. intros Hsub. apply not_elem_of_dom in Hk. apply Hk, Hsub, Hin. }
  apply subset_size in Hstrict. lia.
Qed.

Lemma fits_sweep K rl now : fits K rl → fits K (sweep rl now).
Proof.
  intros [Hdom Hsize]. split; [|by rewrite sweep_maxBuckets].
  etrans; [|exact Hdom]. apply subseteq_dom, sweep_subseteq.
Qed.

(** With room for its key a call never evicts: the table it leaves is the
    swept one with the bucket of its key stored. *)
Lemma take_no_eviction K rl key rate now :
  fits K rl → key ∈ K →
  ∃ b, (take rl key rate now).1 = with_buckets (sweep rl now) (<[key := b]> (buckets (sweep rl now))).
Proof.
  intros Hfit Hin. apply (fits_sweep _ _ now) in Hfit as [Hdom Hsize].
  pose proof (take_stores rl key rate now) as Hst.
  destruct (buckets (sweep rl now) !! key) as [b0|] eqn:Hk.
  - rewrite (resolve_present _ _ _ _ _ _ Hk) in Hst. exact Hst.
  - rewrite (resolve_room _ _ _ _ _ Hk) in Hst by (by eapply fits_room).
    destruct Hst as [b ->]. exists b. by rewrite insert_insert_eq.
Qed.

Lemma take_fits K rl key rate now :
  fits K rl → key ∈ K → fits K (take rl key rate now).1.
Proof.
  intros Hfit Hin. destruct (take_no_eviction K rl key rate now Hfit Hin) as [b ->].
  apply (fits_sweep _ _ now) in Hfit as [Hdom Hsize].
  split; [|done]. simpl. rewrite dom_insert_L.
  apply union_subseteq. split; [by apply singleton_subseteq_l|done].
Qed.

(** With room for its key, a call is [serve] on the bucket the sweep left
    at that key. *)
Lemma take_serve K rl key rate now :
  fits K rl → key ∈ K →
  take rl key rate now =
    (with_buckets (sweep rl now)
       (<[key := (serve (buckets (sweep rl now) !! key) rate now).1]> (buckets (sweep rl now))),
     (serve (buckets (sweep rl now) !! key) rate now).2).
Proof.
  intros Hfit Hin. apply (fits_sweep _ _ now) in Hfit as [Hdom Hsize].
  unfold take, serve.
  destruct (buckets (sweep rl now) !! key) as [b0|] eqn:Hk.
  - rewrite (resolve_present _ _ _ _ _ _ Hk). by destruct (Qle_bool _ _).
  - rewrite (resolve_room _ _ _ _ _ Hk) by (by eapply fits_room).
    destruct (Qle_bool _ _); by rewrite insert_insert_eq.
Qed.

(** A bucket idle for more than fifteen minutes is refilled to its cap: at
    a rate of at least 1 the call treats it as it would a new bucket. *)
Lemma serve_stale b rate now :
  accessed b < now - bucketInactiveThreshold → last b <= accessed b →
  (0 <= tokens b)%Q → 1 <= rate →
  serve (Some b) rate now = serve None rate now.
Proof.
  intros Hstale Hlast Htok Hrate. unfold serve.
  rewrite (refill_same_instant {| tokens := inject_Z (dynBurst rate); last := now; accessed := now |})
    by (simpl; lia).
  assert (refill b rate now = {| tokens := maxTokens rate; last := now; accessed := now |}) as ->;
    [|by rewrite maxTokens_dynBurst].
  unfold refill. cbn [tokens last accessed].
  assert (bucketInactiveThreshold <= Sub now (last b)) as Hidle.
  { apply Sub_ge; clock_cases; lia. }
  rewrite Minutes_pos.
  destruct (Z.ltb_spec 0 (Sub now (last b))) as [_|Hle];
    [|unfold bucketInactiveThreshold, Minute, Second in Hidle; lia].
  assert (Qltb (maxTokens rate) (tokens b + Minutes (Sub now (last b)) * inject_Z rate) = true)
    as ->; [|done].
  apply Qltb_lt. rewrite maxTokens_dynBurst, Minutes_eq.
  assert (inject_Z (dynBurst rate) < inject_Z (Sub now (last b)) / inject_Z Minute * inject_Z rate)%Q
    as Hgain.
  { apply Qle_lt_trans with (inject_Z rate).
    - rewrite <- Zle_Qle. unfold dynBurst.
      destruct (Z.ltb_spec (Z.quot rate 2) 1); [lia|].
      apply Z.quot_le_upper_bound; lia.
    - rewrite <- (Qmult_1_l (inject_Z rate)) at 1.
      apply Qmult_lt_compat_r; [change 0%Q with (inject_Z 0); rewrite <- Zlt_Qlt; lia|].
      apply Qlt_shift_div_l; [reflexivity|]. rewrite Qmult_1_l.
      rewrite <- Zlt_Qlt. unfold bucketInactiveThreshold, Minute, Second in *. lia. }
  eapply Qlt_le_trans; [exact Hgain|].
  rewrite <- (Qplus_0_l (_ / _ * _)) at 1. by apply Qplus_le_compat; [|apply Qle_refl].
Qed.

(** What [serve] stores was accessed and, if refilled, refilled at [now],
    and holds no less than zero tokens when the rate is not negative. *)
Lemma serve_stored found rate now :
  0 <= rate →
  (∀ b, found = Some b → last b <= now ∧ (0 <= tokens b)%Q) →
  accessed (serve found rate now).1 = now ∧
  last (serve found rate now).1 <= now ∧
  (0 <= tokens (serve found rate now).1)%Q.
Proof.
  intros Hrate Hfound. unfold serve.
  set (b0 := match found with Some b => b | None => _ end).
  assert (last b0 <= now ∧ (0 <= tokens b0)%Q) as [Hl0 Ht0].
  { destruct found as [b|]; [by apply Hfound|]. simpl. split; [lia|].
    change 0%Q with (inject_Z 0). rewrite <- Zle_Qle. pose proof (dynBurst_ge_1 rate). lia. }
  assert (accessed (refill b0 rate now) = now ∧ last (refill b0 rate now) <= now ∧
          (0 <= tokens (refill b0 rate now))%Q) as (Ha & Hl & Ht).
  { unfold refill. cbn [tokens last accessed].
    destruct (Qltb 0 (Minutes (Sub now (last b0)))) eqn:Hel; cbn [tokens last accessed];
      [|done].
    split_and!; [done|lia|]. apply Qltb_lt in Hel.
    assert (0 <= tokens b0 + Minutes (Sub now (last b0)) * inject_Z rate)%Q as Hsum.
    { rewrite <- (Qplus_0_r 0). apply Qplus_le_compat; [done|].
      apply Qmult_le_0_compat; [by apply Qlt_le_weak|].
      change 0%Q with (inject_Z 0). by rewrite <- Zle_Qle. }
    destruct (Qltb (maxTokens rate) _); [|done].
    rewrite maxTokens_dynBurst. change 0%Q with (inject_Z 0). rewrite <- Zle_Qle.
    pose proof (dynBurst_ge_1 rate). lia. }
  destruct (Qle_bool 1 (tokens (refill b0 rate now))) eqn:Hone; cbn [fst tokens last accessed];
    [|done].
  split_and!; [done..|]. apply Qle_bool_iff in Hone.
  unfold Qminus. rewrite <- (Qplus_opp_r 1). by apply Qplus_le_compat; [|apply Qle_refl].
Qed.

Lemma alone_ok_later A tcur now SA :
  alone_ok A tcur SA → tcur <= now → alone_ok A now SA.
Proof.
  intros [Hlc Hb] Hnow. split; [lia|].
  intros b Hk. destruct (Hb b Hk) as (? & ? & ? & ?). split_and!; [done|done|lia|done].
Qed.

(** After the sweep of a call at [now], the two limiters hold the same
    bucket at [A], or the shared one still holds a bucket idle for more than
    fifteen minutes that the other has swept. *)
Lemma sweep_mirror A tcur now S SA :
  alone_ok A tcur SA → mirrors A tcur S SA → tcur <= now →
  buckets (sweep S now) !! A = buckets (sweep SA now) !! A ∨
  ∃ b, buckets (sweep S now) !! A = Some b ∧ buckets (sweep SA now) !! A = None ∧
       accessed b < now - bucketInactiveThreshold ∧ last b <= accessed b ∧
       (0 <= tokens b)%Q.
Proof.
  intros [Hlc Hb] Hmir Hnow. rewrite !sweep_lookup.
  assert (∀ b, buckets SA !! A = Some b → accessed b < now - bucketInactiveThreshold →
               (bucketCleanupInterval <? now - lastCleanup SA)
               && (accessed b <? now - bucketInactiveThreshold) = true) as Hswept.
  { intros b Hk Hstale. destruct (Hb b Hk) as (Hge & _).
    apply andb_true_iff. split; [apply Z.ltb_lt|by apply Z.ltb_lt].
    unfold bucketCleanupInterval, bucketInactiveThreshold, Minute, Second in *. lia. }
  destruct Hmir as [Heq|(Hnone & b & Hk & Hstale)].
  - rewrite Heq. destruct (buckets SA !! A) as [b|] eqn:Hk; [|by left].
    destruct (Hb b eq_refl) as (_ & Hlast & _ & Htok).
    destruct (Z.lt_ge_cases (accessed b) (now - bucketInactiveThreshold)) as [Hstale|Hfresh].
    + rewrite (Hswept b eq_refl Hstale).
      destruct (bucketCleanupInterval <? now - lastCleanup S); simpl.
      * rewrite (proj2 (Z.ltb_lt _ _) Hstale). by left.
      * right. by exists b.
    + rewrite (proj2 (Z.ltb_ge _ _) Hfresh), !andb_false_r. by left.
  - rewrite Hnone, Hk, (Hswept b Hk); [by left|lia].
Qed.

(** A call for another key leaves the mirror in place. *)
Lemma mirror_other K A B rate tcur now S SA :
  alone_ok A tcur SA → mirrors A tcur S SA → fits K S →
  tcur <= now → B ∈ K → B ≠ A →
  mirrors A now (take S B rate now).1 SA.
Proof.
  intros [Hlc Hb] Hmir Hfit Hnow HB Hne.
  destruct (take_no_eviction K S B rate now Hfit HB) as [b' ->]. unfold mirrors. simpl.
  rewrite lookup_insert_ne by done. rewrite sweep_lookup.
  destruct Hmir as [Heq|(Hnone & b & Hk & Hstale)].
  - rewrite Heq. destruct (buckets SA !! A) as [b|] eqn:Hk; [|by left].
    destruct (_ && _) eqn:Hc; [|by left].
    right. split; [done|]. exists b. split; [done|].
    apply andb_true_iff in Hc as [_ Hc]. by apply Z.ltb_lt in Hc.
  - rewrite Hnone. right. split; [done|]. exists b. split; [done|lia].
Qed.

(** A call for [A] gets the same answer from both limiters and leaves the
    same bucket in both. *)
Lemma mirror_same K A rate tcur now S SA :
  alone_ok A tcur SA → mirrors A tcur S SA → fits K S → fits {[A]} SA →
  tcur <= now → A ∈ K → 1 <= rate →
  (take S A rate now).2 = (take SA A rate now).2 ∧
  buckets (take S A rate now).1 !! A = buckets (take SA A rate now).1 !! A ∧
  alone_ok A now (take SA A rate now).1.
Proof.
  intros Hok Hmir Hfit HfitA Hnow HA Hrate.
  rewrite (take_serve K S A rate now Hfit HA).
  rewrite (take_serve {[A]} SA A rate now HfitA) by by apply elem_of_singleton.
  cbn [fst snd buckets with_buckets lastCleanup]. rewrite !lookup_insert_eq.
  assert (serve (buckets (sweep S now) !! A) rate now =
          serve (buckets (sweep SA now) !! A) rate now) as Hserve.
  { destruct (sweep_mirror A tcur now S SA Hok Hmir Hnow)
      as [->|(b & -> & -> & Hstale & Hlast & Htok)]; [done|].
    by apply serve_stale. }
  rewrite Hserve. split_and!; [done|done|].
  destruct Hok as [Hlc Hb].
  destruct (serve_stored (buckets (sweep SA now) !! A) rate now) as (Hacc & Hlast & Htok).
  { lia. }
  { intros b Hk. pose proof (lookup_weaken _ _ _ _ Hk (sweep_subseteq SA now)) as Hk'.
    destruct (Hb b Hk') as (_ & ? & ? & ?). split; [lia|done]. }
  pose proof (sweep_lastCleanup_le SA now tcur Hlc Hnow) as Hlc'.
  split; [done|]. intros b Hk. cbn [buckets with_buckets] in Hk.
  rewrite lookup_insert_eq in Hk. injection Hk as <-.
  rewrite Hacc. split_and!; [done|done|lia|done].
Qed.

Lemma answers_for_cons A k rate now (l : list call) x rs :
  answers_for A ((k, rate, now) :: l) (x :: rs) =
    if decide (k = A) then x :: answers_for A l rs else answers_for A l rs.
Proof.
  unfold answers_for. simpl zip. rewrite filter_cons. simpl.
  by destruct (decide (k = A)).
Qed.

Lemma calls_for_cons A k rate now (l : list call) :
  calls_for A ((k, rate, now) :: l) =
    if decide (k = A) then (k, rate, now) :: calls_for A l else calls_for A l.
Proof. unfold calls_for. rewrite filter_cons. simpl. by destruct (decide (k = A)). Qed.

(** The mirror is kept along any run in which the clock advances, the rates
    are at least 1 and the table has room for all the keys. *)
Lemma mirror_run K A (l : list call) tcur S SA :
  alone_ok A tcur SA → mirrors A tcur S SA → fits K S →
  dom (buckets SA) ⊆ {[A]} → maxBuckets SA = maxBuckets S →
  clock_advances tcur l → Forall (λ c : call, 1 <= c.1.2) l →
  (∀ k, k ∈ keys_of l → k ∈ K) →
  answers_for A l (run S l).2 = (run SA (calls_for A l)).2 ∧
  ∀ b, buckets (run S l).1 !! A = Some b →
       buckets (run SA (calls_for A l)).1 !! A = Some b.
Proof.
  revert tcur S SA. induction l as [|[[k rate] now] l IH];
    intros tcur S SA Hok Hmir Hfit Hdom Hmax Hclock Hrates Hkeys.
  { split; [done|]. intros b Hb. simpl in *.
    destruct Hmir as [<-|[Hnone _]]; [done|congruence]. }
  destruct Hclock as [Hnow Hclock]. cbn [snd] in Hnow, Hclock.
  apply Forall_cons in Hrates as [Hrate Hrates]. cbn [fst snd] in Hrate.
  assert (k ∈ K) as Hk by (apply Hkeys; left).
  assert (∀ k', k' ∈ keys_of l → k' ∈ K) as Hkeys' by (intros k' Hin; apply Hkeys; by right).
  rewrite run_cons_results, run_cons_state, answers_for_cons, calls_for_cons.
  destruct (decide (k = A)) as [->|Hne].
  - assert (fits {[A]} SA) as HfitA.
    { split; [done|]. rewrite Hmax. etrans; [|exact (proj2 Hfit)].
      apply inj_le, subseteq_size, singleton_subseteq_l, Hk. }
    destruct (mirror_same K A rate tcur now S SA) as (Hres & Hbuck & Hok'); [done..|].
    rewrite run_cons_results, run_cons_state, Hres.
    destruct (IH now (take S A rate now).1 (take SA A rate now).1) as [Hans Hfinal].
    + done.
    + by left.
    + by apply take_fits.
    + apply (take_fits {[A]} SA A rate now HfitA). by apply elem_of_singleton.
    + by rewrite !take_maxBuckets.
    + done.
    + done.
    + done.
    + by rewrite Hans.
  - apply (IH now (take S k rate now).1 SA).
    + by eapply alone_ok_later.
    + by eapply mirror_other.
    + by apply take_fits.
    + done.
    + by rewrite take_maxBuckets.
    + done.
    + done.
    + done.
Qed.

(** C8, as the code has it.  On a limiter created empty, when the clock
    never goes back, every rate is at least 1 and the table has room for all
    the keys called (so that no call evicts a bucket), the calls for a key
    [A] get the answers they would get if they were the only calls, and the
    bucket of [A], if the table still holds it at the end, is the bucket the
    calls for [A] alone would leave, token count included.  A sweep
    triggered by another key may have removed an idle bucket of [A] that the
    calls for [A] alone leave in place. *)
Theorem keys_isolated (rl0 : RateLimiter) (l : list call) (A : string) :
  buckets rl0 = ∅ →
  clock_advances (lastCleanup rl0) l →
  Forall (λ c : call, 1 <= c.1.2) l →
  Z.of_nat (size (list_to_set (keys_of l) : gset string)) <= maxBuckets rl0 →
  answers_for A l (run rl0 l).2 = (run rl0 (calls_for A l)).2 ∧
  ∀ b, buckets (run rl0 l).1 !! A = Some b →
       buckets (run rl0 (calls_for A l)).1 !! A = Some b.
Proof.
  intros Hempty Hclock Hrates Hroom.
  apply (mirror_run (list_to_set (keys_of l)) A l (lastCleanup rl0)).
  - split; [lia|]. intros b Hb. by rewrite Hempty, lookup_empty in Hb.
  - by left.
  - split; [|done]. rewrite Hempty, dom_empty_L. apply empty_subseteq.
  - rewrite Hempty, dom_empty_L. apply empty_subseteq.
  - done.
  - done.
  - done.
  - intros k Hk. by apply elem_of_list_to_set.
Qed.

End Isolation.

Lemma keys_isolated_witness :
  let rl0 := NewRateLimiter 60 0 in
  let l := [("a"%string, 60, 0); ("b"%string, 30, 1); ("a"%string, 60, 2)] in
  answers_for "a" l (@run ref_runtime rl0 l).2 = (@run ref_runtime rl0 (calls_for "a" l)).2 ∧
  ∀ b, buckets (@run ref_runtime rl0 l).1 !! "a"%string = Some b →
       buckets (@run ref_runtime rl0 (calls_for "a" l)).1 !! "a"%string = Some b.
Proof.
  apply (@keys_isolated ref_runtime ref_runtime_perm (NewRateLimiter 60 0)
           [("a"%string, 60, 0); ("b"%string, 30, 1); ("a"%string, 60, 2)] "a").
  - reflexivity.
  - simpl. lia.
  - apply (bool_decide_unpack _). vm_compute. reflexivity.
  - vm_compute. discriminate.
Defined.

(** C8 as the specification words it fails.  On a table with room for one
    bucket a call for "b" evicts the bucket of "a": the next call for "a"
    starts from a full burst and "a" ends with 1 token, where its two calls
    alone leave 0.  And at rate 0 a sweep triggered by "b" moves the time of
    the last sweep, so that the idle bucket of "a" survives and its call is
    rejected, where the calls for "a" alone sweep it and are admitted. *)
Lemma keys_isolated_refuted :
  (let l := [("a"%string, 4, 0); ("b"%string, 4, 0); ("a"%string, 4, 0)] in
   ∃ b b', buckets (@run ref_runtime (small_limiter 1) l).1 !! "a"%string = Some b ∧
           buckets (@run ref_runtime (small_limiter 1) (calls_for "a" l)).1 !! "a"%string = Some b' ∧
           ¬ (tokens b == tokens b')%Q) ∧
  (let l := [("a"%string, 0, 0); ("b"%string, 60, 14 * Minute); ("a"%string, 0, 16 * Minute)] in
   answers_for "a" l (@run ref_runtime (NewRateLimiter 600 0) l).2 = [(true, 0); (false, Second)] ∧
   (@run ref_runtime (NewRateLimiter 600 0) (calls_for "a" l)).2 = [(true, 0); (true, 0)]).
Proof.
  split.
  - eexists _, _. split_and!; [vm_compute; reflexivity..|]. vm_compute. discriminate.
  - split; vm_compute; reflexivity.
Qed.

(** ** The concrete values in binary64 *)

(** The conversions the counterexamples rest on give the same nanosecond
    counts in IEEE binary64 arithmetic as in exact arithmetic. *)
Example retry_binary64_rate_7 :
  retry_binary64 0 7 = Some 8571428571 ∧
  Qtrunc (deficit_wait 0 7) = 8571428571.
Proof. split; vm_compute; reflexivity. Qed.

Example retry_binary64_rate_60 :
  retry_binary64 0 60 = Some Second ∧
  Qtrunc (deficit_wait 0 60) = Second.
Proof. split; vm_compute; reflexivity. Qed.

(** * Further properties of the code *)

(** ** Admission of new keys *)

Section NewKeys.

Context {rt : GoRuntime}.
Hypothesis range_order_perm : ∀ bs, range_order bs ≡ₚ map_to_list bs.

Lemma take_ratePerMin rl key rate now :
  ratePerMin (take rl key rate now).1 = ratePerMin rl.
Proof.
  assert (ratePerMin (sweep rl now) = ratePerMin rl) as Hsw.
  { unfold sweep. by destruct (_ <? _). }
  by destruct (take_state rl key rate now) as [->|(bs' & b & _ & ->)].
Qed.

(** Without a bucket under the empty string and with room for at least one
    bucket, a key without a bucket always gets one: directly, or by an
    eviction that finds a victim. *)
Lemma unseen_key_resolves (rl : RateLimiter) (key : string) (rate : Z) (now : Time) :
  buckets rl !! ""%string = None →
  buckets rl !! key = None →
  1 <= maxBuckets rl →
  buckets (sweep rl now) !! key = None ∧
  ∃ bs b, resolve (buckets (sweep rl now)) (maxBuckets (sweep rl now)) key rate now
          = Some (bs, b).
Proof.
  intros Hempty Hk Hmax.
  assert (buckets (sweep rl now) !! key = None) as Hk'.
  { eapply lookup_weaken_None; [exact Hk|apply sweep_subseteq]. }
  assert (buckets (sweep rl now) !! ""%string = None) as Hempty'.
  { eapply lookup_weaken_None; [exact Hempty|apply sweep_subseteq]. }
  split; [exact Hk'|].
  destruct (Z.le_gt_cases (maxBuckets (sweep rl now)) (len (buckets (sweep rl now))))
    as [Hfull|Hroom].
  - destruct (resolve_full range_order_perm _ _ key rate now Hk' Hfull)
      as [[_ [Hnil|(b & Hb & _)]]|(v & bv & _ & _ & _ & ->)].
    + rewrite Hnil, sweep_maxBuckets in Hfull. unfold len in Hfull.
      rewrite map_size_empty in Hfull. lia.
    + congruence.
    + by eexists _, _.
  - rewrite (resolve_room _ _ _ _ _ Hk' Hroom). by eexists _, _.
Qed.

Lemma take_unseen (rl : RateLimiter) (key : string) (rate : Z) (now : Time) :
  buckets rl !! ""%string = None →
  buckets rl !! key = None →
  1 <= maxBuckets rl →
  (take rl key rate now).2 = (true, 0) ∧
  buckets (take rl key rate now).1 !! key =
    Some {| tokens := (inject_Z (dynBurst rate) - 1)%Q; last := now; accessed := now |}.
Proof.
  intros Hempty Hk Hmax.
  destruct (unseen_key_resolves rl key rate now Hempty Hk Hmax) as (Hk' & bs & b & Hres).
  rewrite (take_created _ _ _ _ _ _ Hk' Hres). split; [done|].
  simpl. apply lookup_insert_eq.
Qed.


End NewKeys.


(** ** The middleware *)

Section MiddlewareFacts.

Context {rt : GoRuntime} {fc : FiberCtx}.

Lemma request_key_nonempty (cfg : RateLimitConfig) (c : Ctx) :
  request_key cfg c ≠ ""%string.
Proof.
  unfold request_key.
  destruct (String.eqb_spec
    match KeyGenerator cfg with Some f => f c | None => IP c end "") as [_|Hne];
    [discriminate|done].
Qed.

Lemma handle_limiter cfg rl reg c now :
  (handle cfg rl reg c now).1.1 =
    (take rl (request_key cfg c) (request_rate cfg rl c) now).1.
Proof.
  unfold handle. destruct (take _ _ _ _) as [rl' [allowed d]]. by destruct allowed.
Qed.

Lemma handle_outcome cfg rl reg c now :
  (handle cfg rl reg c now).2 =
    match (take rl (request_key cfg c) (request_rate cfg rl c) now).2 with
    | (true, _) => Next
    | (false, d) => TooManyRequests (retry_after_header d)
    end.
Proof.
  unfold handle. destruct (take _ _ _ _) as [rl' [allowed d]]. by destruct allowed.
Qed.

Lemma serve_all_cons cfg rl reg c now reqs :
  serve_all cfg rl reg ((c, now) :: reqs) =
    let h := handle cfg rl reg c now in
    let s := serve_all cfg h.1.1 h.1.2 reqs in
    (s.1.1, s.1.2, h.2 :: s.2).
Proof.
  simpl. destruct (handle _ _ _ _ _) as [[rl' reg'] o].
  by destruct (serve_all _ _ _ _) as [[rl'' reg''] os].
Qed.

(** The handler stores no bucket under the empty string, and leaves the
    size limit alone. *)
Lemma handle_keeps_empty_key_out cfg rl reg c now :
  buckets rl !! ""%string = None →
  buckets (handle cfg rl reg c now).1.1 !! ""%string = None.
Proof.
  intros Hempty. rewrite handle_limiter. apply take_other_absent.
  - intros Heq. by apply (request_key_nonempty cfg c).
  - eapply lookup_weaken_None; [exact Hempty|apply sweep_subseteq].
Qed.

Lemma serve_all_keeps_empty_key_out cfg rl reg reqs :
  buckets rl !! ""%string = None →
  buckets (serve_all cfg rl reg reqs).1.1 !! ""%string = None ∧
  maxBuckets (serve_all cfg rl reg reqs).1.1 = maxBuckets rl.
Proof.
  revert rl reg. induction reqs as [|[c now] reqs IH]; intros rl reg Hempty; [done|].
  rewrite serve_all_cons. cbn [fst snd].
  destruct (IH (handle cfg rl reg c now).1.1 (handle cfg rl reg c now).1.2)
    as [H1 H2]; [by apply handle_keeps_empty_key_out|].
  split; [done|]. by rewrite H2, handle_limiter, take_maxBuckets.
Qed.

End MiddlewareFacts.

(** ** Token counts and retry hints at non-negative rates *)

Section NonNegative.

Context {rt : GoRuntime}.

Lemma refill_nonneg b rate now :
  0 <= rate → (0 <= tokens b)%Q → (0 <= tokens (refill b rate now))%Q.
Proof.
  intros Hrate Hb. unfold refill. cbn [tokens last accessed].
  destruct (Qltb 0 (Minutes (Sub now (last b)))) eqn:Hel; [|done].
  apply Qltb_lt in Hel. cbn [tokens].
  destruct (Qltb (maxTokens rate) _).
  - rewrite maxTokens_dynBurst. change 0%Q with (inject_Z 0). rewrite <- Zle_Qle.
    pose proof (dynBurst_ge_1 rate). lia.
  - rewrite <- (Qplus_0_r 0). apply Qplus_le_compat; [done|].
    apply Qmult_le_0_compat; [by apply Qlt_le_weak|].
    change 0%Q with (inject_Z 0). by rewrite <- Zle_Qle.
Qed.

Lemma resolve_nonneg bs maxB key rate now bs' b :
  tokens_nonneg bs → resolve bs maxB key rate now = Some (bs', b) →
  tokens_nonneg bs' ∧ (0 <= tokens b)%Q.
Proof.
  intros Hbs Hres.
  assert (0 <= inject_Z (dynBurst rate))%Q as Hfresh.
  { change 0%Q with (inject_Z 0). rewrite <- Zle_Qle. pose proof (dynBurst_ge_1 rate). lia. }
  destruct (bs !! key) as [b0|] eqn:Hk.
  - rewrite (resolve_present _ _ _ _ _ _ Hk) in Hres. injection Hres as <- <-.
    split; [done|]. by apply (Hbs key).
  - destruct (resolve_absent _ _ _ _ _ _ Hk Hres) as (bs0 & [= -> ->] & Hsub).
    split; [|done]. intros k b'. rewrite lookup_insert. case_decide.
    + by intros [= <-].
    + intros Hk'. apply (Hbs k). by eapply lookup_weaken.
Qed.

Lemma at_decision_nonneg rl key rate now b :
  0 <= rate → tokens_nonneg (buckets rl) →
  at_decision rl key rate now = Some b → (0 <= tokens b)%Q.
Proof.
  intros Hrate Hbs. unfold at_decision.
  destruct (resolve _ _ _ _ _) as [[bs' b0]|] eqn:Hres; [|done]. intros [= <-].
  apply refill_nonneg; [done|].
  eapply resolve_nonneg; [|exact Hres].
  intros k b' Hk. apply (Hbs k). eapply lookup_weaken; [exact Hk|apply sweep_subseteq].
Qed.

Lemma take_nonneg rl key rate now :
  0 <= rate → tokens_nonneg (buckets rl) →
  tokens_nonneg (buckets (take rl key rate now).1).
Proof.
  intros Hrate Hbs.
  assert (tokens_nonneg (buckets (sweep rl now))) as Hsw.
  { intros k b' Hk. apply (Hbs k). eapply lookup_weaken; [exact Hk|apply sweep_subseteq]. }
  unfold take.
  destruct (resolve _ _ _ _ _) as [[bs' b0]|] eqn:Hres; [|done].
  destruct (resolve_nonneg _ _ _ _ _ _ _ Hsw Hres) as [Hbs' Hb0].
  pose proof (refill_nonneg _ _ now Hrate Hb0) as Hb.
  destruct (Qle_bool 1 (tokens (refill b0 rate now))) eqn:Hone; simpl;
    intros k b'; rewrite lookup_insert; case_decide; try apply Hbs'.
  - intros [= <-]. simpl. apply Qle_bool_iff in Hone.
    unfold Qminus. rewrite <- (Qplus_opp_r 1). by apply Qplus_le_compat; [|apply Qle_refl].
  - by intros [= <-].
Qed.

(** The exact wait for a deficit of at most one token at a rate of at least
    1 is at most a minute. *)
Lemma deficit_wait_le_Minute (x : Q) (rate : Z) :
  (0 <= x)%Q → 1 <= rate → (deficit_wait x rate <= inject_Z Minute)%Q.
Proof.
  intros Hx Hr. unfold deficit_wait.
  rewrite <- (Qmult_1_l (inject_Z Minute)) at 2.
  apply Qmult_le_compat_r; [|done].
  apply Qle_shift_div_r.
  - change 0%Q with (inject_Z 0). rewrite <- Zlt_Qlt. lia.
  - rewrite Qmult_1_l. apply Qle_trans with 1%Q.
    + unfold Qminus. rewrite <- (Qplus_0_r 1) at 2.
      apply Qplus_le_compat; [apply Qle_refl|].
      apply (Qopp_le_compat 0 x Hx).
    + change 1%Q with (inject_Z 1). rewrite <- Zle_Qle. lia.
Qed.

Lemma retry_after_range (x : Q) (rate : Z) :
  (0 <= x)%Q → (x < 1)%Q → 1 <= rate →
  Second <= retry_after x rate <= Minute.
Proof.
  intros Hx0 Hx1 Hr.
  pose proof (deficit_wait_le_Minute x rate Hx0 Hr) as Hle.
  assert (deficit_wait x rate < inject_Z (2 ^ 63))%Q as Hfit.
  { eapply Qle_lt_trans; [exact Hle|]. rewrite <- Zlt_Qlt. reflexivity. }
  rewrite (retry_after_value x rate Hx1 ltac:(lia) Hfit).
  destruct (Qtrunc_bounds (deficit_wait x rate)) as (_ & Hlo & _).
  { apply Qlt_le_weak, deficit_wait_pos; [done|lia]. }
  assert (Qtrunc (deficit_wait x rate) <= Minute).
  { rewrite Zle_Qle. by eapply Qle_trans. }
  unfold Minute, Second in *. lia.
Qed.

Lemma take_retry_range (rl : RateLimiter) (key : string) (rate : Z) (now : Time) :
  tokens_nonneg (buckets rl) →
  1 <= rate →
  (take rl key rate now).2.1 = false →
  Second <= (take rl key rate now).2.2 <= Minute.
Proof.
  intros Hbs Hrate.
  pose proof (at_decision_nonneg rl key rate now) as Hdec.
  unfold at_decision in Hdec. unfold take.
  destruct (resolve _ _ _ _ _) as [[bs' b0]|]; cbn [fst snd].
  - destruct (Qle_bool 1 (tokens (refill b0 rate now))) eqn:Hone; cbn [fst snd]; [done|].
    intros _. apply retry_after_range; [|apply Qnot_le_lt|done].
    + apply Hdec; [lia|done|done].
    + intros Hle. apply Qle_bool_iff in Hle. congruence.
  - intros _. unfold Minute, Second. lia.
Qed.

(** X2. At a rate of at least 1, on a table without negative token counts,
    a rejected call returns a [retryAfter] between one second and one
    minute, both included. *)
Theorem retry_hint_within_a_minute (rl : RateLimiter) (key : string) (rate : Z) (now : Time) :
  tokens_nonneg (buckets rl) →
  1 <= rate →
  (take rl key rate now).2.1 = false →
  Second <= (take rl key rate now).2.2 <= Minute.
Proof. apply take_retry_range. Qed.

End NonNegative.

Lemma retry_hint_within_a_minute_witness :
  let rl := (@run ref_runtime (NewRateLimiter 600 0) (replicate 3 ("a"%string, 7, 0))).1 in
  Second <= (@take ref_runtime rl "a" 7 0).2.2 <= Minute.
Proof.
  apply (@retry_hint_within_a_minute ref_runtime
           (@run ref_runtime (NewRateLimiter 600 0) (replicate 3 ("a"%string, 7, 0))).1 "a" 7 0).
  - apply (bool_decide_unpack (map_Forall (λ _ b, (0 <= tokens b)%Q) _)).
    vm_compute. reflexivity.
  - lia.
  - vm_compute. reflexivity.
Defined.

(** ** What the middleware guarantees *)

Lemma Seconds_eq (d : Duration) : (Seconds d == inject_Z d / inject_Z Second)%Q.
Proof.
  unfold Seconds. change 1000000000 with Second.
  rewrite (Z.quot_rem' d Second) at 3.
  rewrite inject_Z_plus, inject_Z_mult.
  field. discriminate.
Qed.

(** The header carries the whole seconds of the hint. *)
Lemma retry_after_header_seconds (d : Duration) :
  0 <= d → retry_after_header d = pretty (d / Second).
Proof.
  intros Hd. unfold retry_after_header. f_equal.
  assert (0 <= Seconds d)%Q as Hpos.
  { rewrite Seconds_eq. apply Qle_shift_div_l; [reflexivity|].
    rewrite Qmult_0_l. change 0%Q with (inject_Z 0). by rewrite <- Zle_Qle. }
  rewrite (Qtrunc_floor _ Hpos), (Qfloor_comp _ _ (Seconds_eq d)).
  unfold Second, Qfloor, Qdiv, Qmult, Qinv, inject_Z. simpl. by rewrite Z.mul_1_r.
Qed.

Section MiddlewareGuarantees.

Context {rt : GoRuntime}.
Hypothesis range_order_perm : ∀ bs, range_order bs ≡ₚ map_to_list bs.
Context {fc : FiberCtx}.

(** X3. The middleware never stores a bucket under the empty string: an
    empty key is replaced by "anonymous".  So on a limiter made by
    [NewRateLimiter], after any requests, a request whose key has no bucket
    is passed on, full table or not. *)
Theorem middleware_admits_new_clients (cfg : RateLimitConfig) (rate0 : Z) (t0 : Time)
    (reg reg' : option metrics.Registry) (reqs : list (Ctx * Time)) (c : Ctx) (now : Time) :
  let rl := (serve_all cfg (NewRateLimiter rate0 t0) reg reqs).1.1 in
  buckets rl !! ""%string = None ∧
  (buckets rl !! request_key cfg c = None → (handle cfg rl reg' c now).2 = Next).
Proof.
  cbv zeta.
  destruct (serve_all_keeps_empty_key_out cfg (NewRateLimiter rate0 t0) reg reqs)
    as [Hempty Hmax]; [done|].
  split; [done|]. intros Hk. rewrite handle_outcome.
  destruct (take_unseen range_order_perm
              (serve_all cfg (NewRateLimiter rate0 t0) reg reqs).1.1 (request_key cfg c)
              (request_rate cfg (serve_all cfg (NewRateLimiter rate0 t0) reg reqs).1.1 c)
              now Hempty Hk) as [-> _]; [|done].
  rewrite Hmax. simpl. unfold defaultMaxBuckets. lia.
Qed.



(** X5. When every configured rate is at least 1, every 429 answer of the
    middleware on a limiter made by [NewRateLimiter] carries a
    [Retry-After] header that is the decimal form of a whole number of
    seconds between 1 and 60. *)
Theorem retry_after_header_range (cfg : RateLimitConfig) (rate0 : Z) (t0 : Time)
    (reg : option metrics.Registry) (reqs : list (Ctx * Time)) :
  (∀ f c, RateGetter cfg = Some f → 1 <= f c) →
  Forall (λ o, match o with
               | Next => True
               | TooManyRequests h => ∃ n : Z, h = pretty n ∧ 1 <= n <= 60
               end)
         (serve_all cfg (NewRateLimiter rate0 t0) reg reqs).2.
Proof.
  intros Hrates.
  assert (∀ rl c, 1 <= ratePerMin rl → 1 <= request_rate cfg rl c) as Hrate.
  { intros rl c Hr. unfold request_rate.
    destruct (RateGetter cfg) as [f|] eqn:Hf; [by apply (Hrates f)|done]. }
  assert (∀ rl, 1 <= ratePerMin rl → tokens_nonneg (buckets rl) →
    Forall (λ o, match o with
                 | Next => True
                 | TooManyRequests h => ∃ n : Z, h = pretty n ∧ 1 <= n <= 60
                 end) (serve_all cfg rl reg reqs).2) as Hinv.
  { clear -Hrate. revert reg. induction reqs as [|[c now] reqs IH]; intros reg rl Hr Hb.
    { constructor. }
    rewrite serve_all_cons. cbn [fst snd]. apply Forall_cons. split.
    - rewrite handle_outcome.
      pose proof (take_retry_range rl (request_key cfg c) (request_rate cfg rl c)
                    now Hb (Hrate rl c Hr)) as Hhint.
      destruct (take rl (request_key cfg c) (request_rate cfg rl c) now).2 as [[|] d];
        [done|]. cbn [fst snd] in Hhint. specialize (Hhint eq_refl).
      exists (d / Second). split.
      + apply retry_after_header_seconds. unfold Second in Hhint. lia.
      + unfold Minute, Second in *. split.
        * apply Z.div_le_lower_bound; lia.
        * apply Z.div_le_upper_bound; lia.
    - apply IH.
      + by rewrite handle_limiter, take_ratePerMin.
      + rewrite handle_limiter. apply take_nonneg; [|done].
        pose proof (Hrate rl c Hr). lia. }
  apply Hinv.
  - simpl. destruct (Z.leb_spec rate0 0); lia.
  - intros k b Hb. simpl in Hb. by rewrite lookup_empty in Hb.
Qed.

(** X6. With a registry, each request moves exactly one of the two
    rate-limit counters by one: after any requests [RateAllowed] has grown
    by the number passed on and [RateRejected] by the number answered 429
    (modulo [2 ^ 64]), these two numbers add up to the number of requests,
    and the rest of the registry is as it was. *)
Theorem rate_counters_count_outcomes (cfg : RateLimitConfig) (rl : RateLimiter)
    (r : metrics.Registry) (reqs : list (Ctx * Time)) :
  metrics.is_uint64 (metrics.Get (metrics.RateAllowed r)) →
  metrics.is_uint64 (metrics.Get (metrics.RateRejected r)) →
  let os := (serve_all cfg rl (Some r) reqs).2 in
  (passed os + refused os = length reqs)%nat ∧
  ∃ r', (serve_all cfg rl (Some r) reqs).1.2 = Some r' ∧
        metrics.Get (metrics.RateAllowed r') =
          metrics.uint64 (metrics.Get (metrics.RateAllowed r) + Z.of_nat (passed os)) ∧
        metrics.Get (metrics.RateRejected r') =
          metrics.uint64 (metrics.Get (metrics.RateRejected r) + Z.of_nat (refused os)) ∧
        metrics.RequestsTotal r' = metrics.RequestsTotal r ∧
        metrics.RequestDuration r' = metrics.RequestDuration r ∧
        metrics.GrpcRequests r' = metrics.GrpcRequests r ∧
        metrics.GrpcDuration r' = metrics.GrpcDuration r ∧
        metrics.labeled r' = metrics.labeled r.
Proof.
  cbv zeta. revert rl r. induction reqs as [|[c now] reqs IH]; intros rl r Ha Hr.
  { split; [done|]. exists r. unfold passed, refused, metrics.uint64, metrics.is_uint64 in *.
    simpl. rewrite !Z.add_0_r, !Z.mod_small by done. done. }
  rewrite serve_all_cons. cbn [fst snd].
  unfold passed, refused in *. rewrite !filter_cons.
  assert (∀ a n, metrics.uint64 (metrics.uint64 (a + 1) + n) = metrics.uint64 (a + (1 + n)))
    as Hwrap.
  { intros a n. unfold metrics.uint64. rewrite Zplus_mod_idemp_l. f_equal. lia. }
  assert (∀ a, metrics.is_uint64 (metrics.uint64 a)) as Hrange.
  { intros a. unfold metrics.is_uint64, metrics.uint64. apply Z.mod_pos_bound. lia. }
  rewrite handle_outcome. unfold handle.
  destruct (take rl (request_key cfg c) (request_rate cfg rl c) now) as [rl' [[|] d]];
    cbn [fst snd negb fmap option_fmap option_map].
  - destruct (IH rl' (metrics.with_RateAllowed r (metrics.Inc (metrics.RateAllowed r))))
      as (Hlen & r' & -> & HA & HR & Hrest); [apply Hrange|done|].
    rewrite decide_True by done. rewrite decide_False by (intros H; by apply H).
    split; [simpl; lia|]. exists r'. split; [done|].
    rewrite HA, HR. cbn [metrics.Get metrics.v metrics.RateAllowed metrics.RateRejected
                           metrics.with_RateAllowed metrics.Inc].
    rewrite Hwrap. unfold metrics.Get.
    split_and!; [f_equal; simpl length; lia|done|apply Hrest..].
  - destruct (IH rl' (metrics.with_RateRejected r (metrics.Inc (metrics.RateRejected r))))
      as (Hlen & r' & -> & HA & HR & Hrest); [done|apply Hrange|].
    rewrite decide_False by done. rewrite decide_True by done.
    split; [simpl; lia|]. exists r'. split; [done|].
    rewrite HA, HR. cbn [metrics.Get metrics.v metrics.RateAllowed metrics.RateRejected
                           metrics.with_RateRejected metrics.Inc].
    rewrite Hwrap. unfold metrics.Get.
    split_and!; [done|f_equal; simpl length; lia|apply Hrest..].
Qed.

End MiddlewareGuarantees.

(** The empty configuration of [RateLimitMiddleware], on [address_ctx]. *)
Lemma middleware_admits_new_clients_witness :
  let cfg := @mkRateLimitConfig address_ctx None None in
  let reqs := [("10.0.0.1"%string, 0); (""%string, 1)] in
  let rl := (@serve_all ref_runtime address_ctx cfg (NewRateLimiter 60 0) None reqs).1.1 in
  buckets rl !! ""%string = None ∧
  (buckets rl !! @request_key address_ctx cfg "10.0.0.2"%string = None →
   (@handle ref_runtime address_ctx cfg rl None "10.0.0.2"%string 2).2 = Next).
Proof.
  exact (@middleware_admits_new_clients ref_runtime ref_runtime_perm address_ctx
           (@mkRateLimitConfig address_ctx None None) 60 0 None None
           [("10.0.0.1"%string, 0); (""%string, 1)] "10.0.0.2"%string 2).
Defined.


Lemma retry_after_header_range_witness :
  let cfg := @mkRateLimitConfig address_ctx None (Some (λ _, 2)) in
  Forall (λ o, match o with
               | Next => True
               | TooManyRequests h => ∃ n : Z, h = pretty n ∧ 1 <= n <= 60
               end)
         (@serve_all ref_runtime address_ctx cfg (NewRateLimiter 60 0) None
            [("10.0.0.1"%string, 0); ("10.0.0.1"%string, 0)]).2.
Proof.
  apply (@retry_after_header_range ref_runtime address_ctx
           (@mkRateLimitConfig address_ctx None (Some (λ _, 2))) 60 0 None
           [("10.0.0.1"%string, 0); ("10.0.0.1"%string, 0)]).
  intros f c Hf. injection Hf as <-. lia.
Defined.

Lemma rate_counters_count_outcomes_witness :
  let cfg := @mkRateLimitConfig address_ctx None (Some (λ _, 2)) in
  let reqs := [("10.0.0.1"%string, 0); ("10.0.0.1"%string, 0); ("10.0.0.1"%string, 0)] in
  let r := metrics.NewRegistry 0 in
  let os := (@serve_all ref_runtime address_ctx cfg (NewRateLimiter 60 0) (Some r) reqs).2 in
  (passed os + refused os = length reqs)%nat ∧
  ∃ r', (@serve_all ref_runtime address_ctx cfg (NewRateLimiter 60 0) (Some r) reqs).1.2
          = Some r' ∧
        metrics.Get (metrics.RateAllowed r') =
          metrics.uint64 (metrics.Get (metrics.RateAllowed r) + Z.of_nat (passed os)) ∧
        metrics.Get (metrics.RateRejected r') =
          metrics.uint64 (metrics.Get (metrics.RateRejected r) + Z.of_nat (refused os)) ∧
        metrics.RequestsTotal r' = metrics.RequestsTotal r ∧
        metrics.RequestDuration r' = metrics.RequestDuration r ∧
        metrics.GrpcRequests r' = metrics.GrpcRequests r ∧
        metrics.GrpcDuration r' = metrics.GrpcDuration r ∧
        metrics.labeled r' = metrics.labeled r.
Proof.
  apply (@rate_counters_count_outcomes ref_runtime address_ctx
           (@mkRateLimitConfig address_ctx None (Some (λ _, 2))) (NewRateLimiter 60 0)
           (metrics.NewRegistry 0)
           [("10.0.0.1"%string, 0); ("10.0.0.1"%string, 0); ("10.0.0.1"%string, 0)]).
  - vm_compute. split; [discriminate|reflexivity].
  - vm_compute. split; [discriminate|reflexivity].
Defined.

(** ** Clients that keep to their rate *)

Section Pacing.

Context {rt : GoRuntime}.
Hypothesis range_order_perm : ∀ bs, range_order bs ≡ₚ map_to_list bs.

(** A call that finds its bucket due at least one token is admitted. *)
Lemma refilled_call_admitted rl key rate now b :
  buckets rl !! key = Some b →
  len (buckets rl) <= maxBuckets rl →
  (0 <= tokens b)%Q → 1 <= rate → last b < now →
  (1 <= tokens b + inject_Z (now - last b) / inject_Z Minute * inject_Z rate)%Q →
  (take rl key rate now).2 = (true, 0).
Proof.
  intros Hb Hlen Htok Hrate Hlast Hdue.
  destruct (buckets (sweep rl now) !! key) as [b'|] eqn:Hk.
  - assert (b' = b) as ->.
    { pose proof (lookup_weaken _ _ _ _ Hk (sweep_subseteq rl now)). congruence. }
    rewrite (take_present _ _ _ _ _ Hk). cbv zeta.
    assert (Qle_bool 1 (tokens (refill b rate now)) = true) as ->; [|done].
    apply Qle_bool_iff. unfold refill. cbn [tokens last accessed].
    rewrite Minutes_pos, Sub_sign.
    destruct (Z.ltb_spec 0 (now - last b)) as [_|?]; [|lia]. cbn [tokens].

    destruct (Qltb (maxTokens rate) _) eqn:Hcap.
    + rewrite maxTokens_dynBurst. change 1%Q with (inject_Z 1). rewrite <- Zle_Qle.
      apply dynBurst_ge_1.
    + rewrite Minutes_eq.
      assert (0 <= inject_Z rate)%Q as Hr0.
      { change 0%Q with (inject_Z 0). rewrite <- Zle_Qle. lia. }
      destruct (Z.le_gt_cases (now - last b) maxDuration) as [Hfit|Hsat].
      * assert (Sub now (last b) = now - last b) as ->.
        { clear -Hfit Hlast. unfold Sub, minDuration, maxDuration in *.
          destruct (Z.ltb_spec (now - last b) (- 2 ^ 63)); [lia|].
          destruct (Z.ltb_spec (2 ^ 63 - 1) (now - last b)); [lia|]. done. }
        exact Hdue.
      * assert (Sub now (last b) = maxDuration) as ->.
        { clear -Hsat Hlast. unfold Sub, minDuration, maxDuration in *.
          destruct (Z.ltb_spec (now - last b) (- 2 ^ 63)); [lia|].
          destruct (Z.ltb_spec (2 ^ 63 - 1) (now - last b)); [done|lia]. }

        apply Qle_trans with (0 + 1 * 1)%Q; [apply Qle_refl|].
        apply Qplus_le_compat; [exact Htok|].
        apply Qle_trans with (1 * inject_Z rate)%Q.
        -- apply Qmult_le_compat_nonneg; [split; [discriminate|apply Qle_refl]|].
           split; [discriminate|]. change 1%Q with (inject_Z 1). rewrite <- Zle_Qle. lia.
        -- apply Qmult_le_compat_r; [|exact Hr0].
           apply Qle_shift_div_l; [reflexivity|]. rewrite Qmult_1_l.
           rewrite <- Zle_Qle. vm_compute. discriminate.
  - assert (len (buckets (sweep rl now)) < maxBuckets (sweep rl now)) as Hroom.
    { rewrite sweep_maxBuckets.
      apply (fits_room (dom (buckets rl)) _ _ key).
      - apply subseteq_dom, sweep_subseteq.
      - rewrite size_dom. exact Hlen.
      - apply elem_of_dom. by eexists.
      - exact Hk. }
    by rewrite (take_created _ _ _ _ _ _ Hk (resolve_room _ _ _ rate now Hk Hroom)).
Qed.

(** The bucket a call stores was last refilled no later than the call, if
    the bucket it found was. *)
Lemma take_bucket_last rl key rate now b' :
  (∀ b, buckets rl !! key = Some b → last b <= now) →
  buckets (take rl key rate now).1 !! key = Some b' → last b' <= now.
Proof.
  intros Hold. unfold take.
  assert (∀ b, last b <= now → last (refill b rate now) <= now) as Hrefill.
  { intros b Hb. unfold refill. cbn [tokens last accessed]. by destruct (Qltb _ _). }
  destruct (buckets (sweep rl now) !! key) as [b0|] eqn:Hk.
  - rewrite (resolve_present _ _ _ _ _ _ Hk).
    pose proof (lookup_weaken _ _ _ _ Hk (sweep_subseteq rl now)) as Hk0.
    pose proof (Hrefill b0 (Hold b0 Hk0)).
    destruct (Qle_bool _ _); simpl; rewrite lookup_insert_eq; by intros [= <-].
  - destruct (resolve _ _ _ _ _) as [[bs b]|] eqn:Hres; simpl; [|by rewrite Hk].
    destruct (resolve_absent _ _ _ _ _ _ Hk Hres) as (bs' & [= -> ->] & _).
    pose proof (Hrefill {| tokens := inject_Z (dynBurst rate); last := now; accessed := now |}
                  (Z.le_refl now)).
    destruct (Qle_bool _ _); simpl; rewrite lookup_insert_eq; by intros [= <-].
Qed.

(** The bucket of another key is left as it was, or removed. *)
Lemma take_other_bucket rl key rate now k b :
  k ≠ key → buckets (take rl key rate now).1 !! k = Some b → buckets rl !! k = Some b.
Proof.
  intros Hne. destruct (take_state rl key rate now) as [->|(bs' & b' & Hsub & ->)]; simpl.
  - intros Hk. exact (lookup_weaken _ _ _ _ Hk (sweep_subseteq rl now)).
  - rewrite lookup_insert_ne by done. intros Hk.
    apply (lookup_weaken _ _ _ _ Hk). etrans; [exact Hsub|apply sweep_subseteq].
Qed.

(** The invariant of a paced run, for the key [A]. *)
Lemma paced_run A rate (l : list call) rl prev :
  1 <= rate → 1 <= maxBuckets rl → len (buckets rl) <= maxBuckets rl →
  buckets rl !! ""%string = None → tokens_nonneg (buckets rl) →
  (∀ b, buckets rl !! A = Some b → ∃ p, prev = Some p ∧ last b <= p) →
  Forall (λ c : call, 0 <= c.1.2 ∧ c.1.1 ≠ ""%string) l →
  paced A rate prev l →
  Forall (λ r, r = (true, 0)) (answers_for A l (run rl l).2).
Proof.
  intros Hrate. revert rl prev.
  induction l as [|[[k r] t] l IH]; intros rl prev Hmax Hlen Hempty Hnn Hprev Hcalls Hpaced.
  { constructor. }
  apply Forall_cons in Hcalls as [[Hr Hk] Hcalls]. cbn [fst snd] in Hr, Hk.
  rewrite run_cons_results, answers_for_cons.
  assert (1 <= maxBuckets (take rl k r t).1) as Hmax' by by rewrite take_maxBuckets.
  assert (len (buckets (take rl k r t).1) <= maxBuckets (take rl k r t).1) as Hlen'.
  { rewrite take_maxBuckets. by apply take_len. }
  assert (buckets (take rl k r t).1 !! ""%string = None) as Hempty'.
  { apply take_other_absent; [done|].
    eapply lookup_weaken_None; [exact Hempty|apply sweep_subseteq]. }
  pose proof (take_nonneg rl k r t Hr Hnn) as Hnn'.
  simpl in Hpaced. destruct (decide (k = A)) as [->|Hne].
  - destruct Hpaced as (-> & Hgap & Hpaced).
    apply Forall_cons. split.
    + destruct (buckets rl !! A) as [b|] eqn:Hb.
      * destruct (Hprev b eq_refl) as (p & -> & Hlast).
        assert (last b < t ∧ Minute <= (t - last b) * rate) as [Hlt Hdue].
        { clear -Hlast Hgap Hrate. assert (0 < Minute) by reflexivity. nia. }
        apply (refilled_call_admitted _ _ _ _ b); [done|done|by apply (Hnn A)|done|done|].
        apply Qle_trans with (0 + 1)%Q; [apply Qle_refl|].
        apply Qplus_le_compat; [by apply (Hnn A)|].
        assert (inject_Z (t - last b) / inject_Z Minute * inject_Z rate
                == inject_Z ((t - last b) * rate) / inject_Z Minute)%Q as ->.
        { rewrite inject_Z_mult. field. discriminate. }
        apply Qle_shift_div_l; [reflexivity|]. rewrite Qmult_1_l. by rewrite <- Zle_Qle.
      * by apply (take_unseen range_order_perm).
    + apply (IH _ (Some t)); try done.
      intros b Hb. exists t. split; [done|].
      apply (take_bucket_last rl A rate t b); [|done].
      intros b0 Hb0. destruct (Hprev b0 Hb0) as (p & -> & Hlast).
      clear -Hlast Hgap Hrate. assert (0 < Minute) by reflexivity. nia.
  - apply (IH _ prev); try done.
    intros b Hb. apply Hprev. by eapply take_other_bucket.
Qed.

(** X7. A client that keeps to its rate is never rejected.  On a limiter
    created empty with room for at least one bucket, in any sequence of
    calls with non-negative rates and non-empty keys, whatever the other
    clients do and whatever is swept or evicted in between: if the calls for
    [A] all pass the rate [rate >= 1] and each comes at least [1/rate]
    minute after the previous one, every one of them is admitted. *)
Theorem paced_client_never_rejected (rl0 : RateLimiter) (l : list call)
    (A : string) (rate : Z) :
  buckets rl0 = ∅ →
  1 <= maxBuckets rl0 →
  1 <= rate →
  Forall (λ c : call, 0 <= c.1.2 ∧ c.1.1 ≠ ""%string) l →
  paced A rate None l →
  Forall (λ r, r = (true, 0)) (answers_for A l (run rl0 l).2).
Proof.
  intros Hempty Hmax Hrate Hcalls Hpaced.
  apply (paced_run A rate l rl0 None); try done.
  - rewrite Hempty. unfold len. rewrite map_size_empty. lia.
  - by rewrite Hempty.
  - intros k b Hb. by rewrite Hempty, lookup_empty in Hb.
  - intros b Hb. by rewrite Hempty, lookup_empty in Hb.
Qed.

End Pacing.

Lemma paced_client_never_rejected_witness :
  let l := [("a"%string, 60, 0); ("b"%string, 0, 5); ("a"%string, 60, Second);
            ("a"%string, 60, 2 * Second)] in
  Forall (λ r, r = (true, 0)) (answers_for "a" l (@run ref_runtime (small_limiter 1) l).2).
Proof.
  apply (@paced_client_never_rejected ref_runtime ref_runtime_perm (small_limiter 1)
           [("a"%string, 60, 0); ("b"%string, 0, 5); ("a"%string, 60, Second);
            ("a"%string, 60, 2 * Second)] "a" 60).
  - reflexivity.
  - simpl. lia.
  - lia.
  - apply (bool_decide_unpack _). vm_compute. reflexivity.
  - vm_compute. repeat split; discriminate.
Defined.

(** ** Honouring the retry hint *)

Section Retry.

Context {rt : GoRuntime}.
Hypothesis range_order_perm : ∀ bs, range_order bs ≡ₚ map_to_list bs.


End Retry.


(** ** The long-run rate *)

Section RateBound.

Context {rt : GoRuntime}.
Hypothesis range_order_perm : ∀ bs, range_order bs ≡ₚ map_to_list bs.

(** What a call adds to a bucket it finds is at most what the rate yields
    since the last refill; what it stores, with the token it may grant, is
    no more than that. *)
Lemma serve_spends b rate now :
  0 <= rate → last b <= now →
  last (serve (Some b) rate now).1 = now ∧
  (tokens (serve (Some b) rate now).1
   + (if (serve (Some b) rate now).2.1 then 1 else 0)
   <= tokens b + inject_Z (now - last b) / inject_Z Minute * inject_Z rate)%Q.
Proof.
  intros Hrate Hlast.
  assert (0 <= inject_Z rate)%Q as Hr0.
  { change 0%Q with (inject_Z 0). by rewrite <- Zle_Qle. }
  assert (last (refill b rate now) = now ∧
          (tokens (refill b rate now)
           <= tokens b + inject_Z (now - last b) / inject_Z Minute * inject_Z rate)%Q)
    as [Hl Ht].
  { unfold refill. cbn [tokens last accessed]. rewrite Minutes_pos, Sub_sign.
    destruct (Z.ltb_spec 0 (now - last b)) as [Hpos|Hle]; cbn [tokens last].
    - split; [done|].
      assert (tokens b + Minutes (Sub now (last b)) * inject_Z rate
              <= tokens b + inject_Z (now - last b) / inject_Z Minute * inject_Z rate)%Q as Hsum.
      { apply Qplus_le_compat; [apply Qle_refl|].
        apply Qmult_le_compat_r; [|exact Hr0]. rewrite Minutes_eq.
        apply Qmult_le_compat_r; [|discriminate].
        rewrite <- Zle_Qle. unfold Sub.
        destruct (Z.ltb_spec (now - last b) minDuration); [unfold minDuration in *; lia|].
        destruct (Z.ltb_spec maxDuration (now - last b)); lia. }
      destruct (Qltb (maxTokens rate) _) eqn:Hcap; [|exact Hsum].
      apply Qltb_lt in Hcap. eapply Qle_trans; [apply Qlt_le_weak, Hcap|exact Hsum].
    - split; [lia|]. replace (now - last b) with 0 by lia.
      apply Qle_lteq. right. unfold Qdiv. ring. }
  unfold serve. destruct (Qle_bool 1 (tokens (refill b rate now))); cbn [fst snd tokens last].
  - split; [done|]. eapply Qle_trans; [|exact Ht]. apply Qle_lteq. right. ring.
  - split; [done|]. eapply Qle_trans; [|exact Ht]. apply Qle_lteq. right. ring.
Qed.

Lemma rate_yield_plus rate (d1 d2 : Duration) :
  (rate_yield rate d1 + rate_yield rate d2 == rate_yield rate (d1 + d2))%Q.
Proof. unfold rate_yield. rewrite inject_Z_plus. field. discriminate. Qed.

Lemma rate_yield_mono rate (d1 d2 : Duration) :
  0 <= rate → d1 <= d2 → (rate_yield rate d1 <= rate_yield rate d2)%Q.
Proof.
  intros Hr Hd. unfold rate_yield.
  apply Qmult_le_compat_r; [|change 0%Q with (inject_Z 0); by rewrite <- Zle_Qle].
  apply Qmult_le_compat_r; [by rewrite <- Zle_Qle|discriminate].
Qed.

Lemma rate_yield_0 rate : (rate_yield rate 0 == 0)%Q.
Proof. unfold rate_yield, Qdiv. ring. Qed.

(** Fifteen idle minutes yield more than a burst. *)
Lemma rate_yield_idle rate (d : Duration) :
  1 <= rate → bucketInactiveThreshold <= d →
  (inject_Z (burstCapacity rate) <= rate_yield rate d)%Q.
Proof.
  intros Hr Hd. apply Qle_trans with (rate_yield rate bucketInactiveThreshold);
    [|apply rate_yield_mono; [lia|done]].
  unfold rate_yield.
  assert (inject_Z bucketInactiveThreshold / inject_Z Minute == inject_Z 15)%Q as ->.
  { reflexivity. }
  rewrite <- inject_Z_mult, <- Zle_Qle. unfold burstCapacity.
  assert (Z.quot rate 2 <= rate) by (apply Z.quot_le_upper_bound; lia). lia.
Qed.

Lemma admitted_cons (r : bool * Duration) rs :
  Z.of_nat (admitted (r :: rs)) = (if r.1 then 1 else 0) + Z.of_nat (admitted rs).
Proof.
  unfold admitted. rewrite filter_cons.
  destruct r as [[|] d]; simpl; [lia|done].
Qed.

(** One call for [A] on the limiter that sees only [A] keeps the budget. *)
Lemma budget_step A rate t1 tcur now rl adm :
  1 <= rate → fits {[A]} rl → alone_ok A tcur rl → within_budget A rate t1 rl adm →
  tcur <= now →
  fits {[A]} (take rl A rate now).1 ∧
  alone_ok A now (take rl A rate now).1 ∧
  within_budget A rate t1 (take rl A rate now).1
    (adm + (if (take rl A rate now).2.1 then 1 else 0)).
Proof.
  intros Hrate Hfit [Hlc Hok] (b & Hb & Hbud) Hnow.
  destruct (Hok b Hb) as (Hlcb & Hlast & Hacc & Htok).
  assert (A ∈ ({[A]} : gset string)) as HA by by apply elem_of_singleton.
  split; [apply take_fits; [exact Hfit|exact HA]|].
  rewrite (take_serve {[A]} rl A rate now Hfit HA).
  cbn [fst snd buckets with_buckets lastCleanup].
  set (found := buckets (sweep rl now) !! A).
  assert (∀ b', found = Some b' → b' = b) as Hsame.
  { intros b' Hf. pose proof (lookup_weaken _ _ _ _ Hf (sweep_subseteq rl now)). congruence. }
  destruct (serve_stored found rate now) as (Hacc' & Hlast' & Htok').
  { lia. }
  { intros b' Hf. rewrite (Hsame b' Hf). split; [lia|done]. }
  split.
  - pose proof (sweep_lastCleanup_le rl now tcur Hlc Hnow) as Hlc'.
    split; [exact Hlc'|].
    intros b' Hb'. cbn [buckets with_buckets] in Hb'.
    rewrite lookup_insert_eq in Hb'. injection Hb' as <-.
    rewrite Hacc'. split_and!; [exact Hlc'|exact Hlast'|lia|exact Htok'].
  - eexists. split; [cbn [buckets with_buckets]; apply lookup_insert_eq|].
    destruct found as [b'|] eqn:Hf.
    + rewrite (Hsame b' eq_refl).
      destruct (serve_spends b rate now) as [Hl Hs]; [lia|lia|].
      rewrite Hl.
      assert (inject_Z (adm + (if (serve (Some b) rate now).2.1 then 1 else 0))
              == inject_Z adm + (if (serve (Some b) rate now).2.1 then 1 else 0))%Q as ->.
      { rewrite inject_Z_plus. by destruct ((serve (Some b) rate now).2.1). }
      replace (now - t1) with ((last b - t1) + (now - last b)) by lia.
      rewrite <- rate_yield_plus.
      apply Qle_trans with ((inject_Z adm + tokens b) + rate_yield rate (now - last b))%Q.
      * apply Qle_trans with
          (inject_Z adm + (tokens (serve (Some b) rate now).1
                           + (if (serve (Some b) rate now).2.1 then 1 else 0)))%Q.
        { apply Qle_lteq. right. ring. }
        rewrite <- Qplus_assoc. apply Qplus_le_compat; [apply Qle_refl|exact Hs].
      * rewrite Qplus_assoc. apply Qplus_le_compat; [exact Hbud|apply Qle_refl].
    + assert (accessed b < now - bucketInactiveThreshold) as Hstale.
      { unfold found in Hf. rewrite (sweep_lookup range_order_perm), Hb in Hf.
        destruct (_ && _) eqn:Hc; [|discriminate].
        apply andb_true_iff in Hc as [_ Hc]. by apply Z.ltb_lt in Hc. }
      assert (serve None rate now =
              ({| tokens := (inject_Z (dynBurst rate) - 1)%Q; last := now; accessed := now |},
               (true, 0))) as ->.
      { unfold serve. rewrite refill_same_instant by (simpl; lia). cbn [tokens last accessed].
        change 1%Q with (inject_Z 1). rewrite Qle_bool_inject_Z.
        destruct (Z.leb_spec 1 (dynBurst rate)) as [_|?]; [done|].
        pose proof (dynBurst_ge_1 rate). lia. }
      cbn [fst snd tokens last]. rewrite dynBurst_burstCapacity, inject_Z_plus.
      replace (now - t1) with ((last b - t1) + (now - last b)) by lia.
      rewrite <- rate_yield_plus.
      pose proof (rate_yield_idle rate (now - last b) Hrate ltac:(lia)) as Hidle.
      apply Qle_trans with
        ((inject_Z adm + tokens b) + inject_Z (burstCapacity rate))%Q.
      * apply Qle_trans with ((inject_Z adm + 0) + inject_Z (burstCapacity rate))%Q.
        { apply Qle_lteq. right. change (inject_Z 1) with 1%Q. ring. }
        apply Qplus_le_compat; [|apply Qle_refl].
        apply Qplus_le_compat; [apply Qle_refl|exact Htok].
      * apply Qle_trans with
          ((inject_Z (burstCapacity rate) + rate_yield rate (last b - t1))
           + rate_yield rate (now - last b))%Q.
        { apply Qplus_le_compat; [exact Hbud|exact Hidle]. }
        apply Qle_lteq. right. ring.
Qed.

Lemma budget_run A rate t1 tn (l : list call) rl adm tcur :
  1 <= rate → fits {[A]} rl → alone_ok A tcur rl → within_budget A rate t1 rl adm →
  Forall (λ c : call, c.1.1 = A ∧ c.1.2 = rate ∧ c.2 <= tn) l →
  clock_advances tcur l → tcur <= tn →
  (inject_Z (adm + Z.of_nat (admitted (run rl l).2))
   <= inject_Z (burstCapacity rate) + rate_yield rate (tn - t1))%Q.
Proof.
  intros Hrate. revert rl adm tcur.
  induction l as [|[[k r] now] l IH]; intros rl adm tcur Hfit Hok Hbud Hcalls Hclock Htn.
  - destruct Hbud as (b & Hb & Hbud). destruct Hok as [_ Hok].
    destruct (Hok b Hb) as (_ & Hlast & Hacc & Htok).
    simpl. rewrite Z.add_0_r.
    apply Qle_trans with (inject_Z adm + tokens b)%Q.
    { rewrite <- (Qplus_0_r (inject_Z adm)) at 1.
      apply Qplus_le_compat; [apply Qle_refl|exact Htok]. }
    eapply Qle_trans; [exact Hbud|].
    apply Qplus_le_compat; [apply Qle_refl|]. apply rate_yield_mono; lia.
  - apply Forall_cons in Hcalls as [(Hk & Hr & Hle) Hcalls]. cbn [fst snd] in Hk, Hr, Hle.
    subst k r. destruct Hclock as [Hnow Hclock]. cbn [snd] in Hnow, Hclock.
    rewrite run_cons_results, admitted_cons.
    destruct (budget_step A rate t1 tcur now rl adm Hrate Hfit Hok Hbud Hnow)
      as (Hfit' & Hok' & Hbud').
    rewrite Z.add_assoc.
    by apply (IH _ _ now).
Qed.

Lemma clock_advances_weaken s s' (l : list call) :
  s' <= s → clock_advances s l → clock_advances s' l.
Proof. destruct l as [|c l]; [done|]. intros Hs [H1 H2]. split; [lia|done]. Qed.

Lemma clock_advances_calls_for A s (l : list call) :
  clock_advances s l → clock_advances s (calls_for A l).
Proof.
  revert s. induction l as [|[[k r] t] l IH]; intros s; [done|].
  intros [Hs Hl]. cbn [snd] in Hs, Hl. rewrite calls_for_cons.
  destruct (decide (k = A)).
  - split; [done|]. by apply IH.
  - apply (clock_advances_weaken t); [done|]. by apply IH.
Qed.

(** X9. The long-run rate.  On a limiter created empty, when the clock
    never goes back, every rate is at least 1 and the table has room for all
    the keys called (so that no bucket is evicted), a key whose calls all
    pass the rate [rate] and fall between the times [t1] and [tn] is
    admitted at most [max(1, rate/2) + rate * (tn - t1)] times, the time
    counted in minutes. *)
Theorem admitted_within_rate (rl0 : RateLimiter) (l : list call) (A : string)
    (rate : Z) (t1 tn : Time) :
  buckets rl0 = ∅ →
  clock_advances (lastCleanup rl0) l →
  Forall (λ c : call, 1 <= c.1.2) l →
  Z.of_nat (size (list_to_set (keys_of l) : gset string)) <= maxBuckets rl0 →
  Forall (λ c : call, c.1.1 = A → c.1.2 = rate ∧ t1 <= c.2 <= tn) l →
  1 <= rate → t1 <= tn →
  (Z.of_nat (admitted (answers_for A l (run rl0 l).2)) - burstCapacity rate) * Minute
    <= rate * (tn - t1).
Proof.
  intros Hempty Hclock Hrates Hroom Hcalls Hrate Htn.
  (* the answers are those of the calls for [A] alone *)
  assert (answers_for A l (run rl0 l).2 = (run rl0 (calls_for A l)).2) as ->.
  { apply (mirror_run range_order_perm (list_to_set (keys_of l)) A l (lastCleanup rl0)).
    - split; [lia|]. intros b Hb. by rewrite Hempty, lookup_empty in Hb.
    - by left.
    - split; [|done]. rewrite Hempty, dom_empty_L. apply empty_subseteq.
    - rewrite Hempty, dom_empty_L. apply empty_subseteq.
    - done.
    - done.
    - done.
    - intros k Hk. by apply elem_of_list_to_set. }
  assert (Forall (λ c : call, c.1.1 = A ∧ c.1.2 = rate ∧ t1 <= c.2 <= tn) (calls_for A l))
    as Hla.
  { apply Forall_forall. intros c Hc. unfold calls_for in Hc.
    apply list_elem_of_filter in Hc as [HcA Hc].
    rewrite Forall_forall in Hcalls. destruct (Hcalls c Hc HcA) as [? ?]. done. }
  pose proof (clock_advances_calls_for A _ l Hclock) as Hcla.
  assert (inject_Z (Z.of_nat (admitted (run rl0 (calls_for A l)).2))
          <= inject_Z (burstCapacity rate) + rate_yield rate (tn - t1))%Q as Hq.
  { destruct (calls_for A l) as [|[[k r] tc] la] eqn:Hl.
    { simpl. rewrite <- (Qplus_0_r 0).
      apply Qplus_le_compat.
      - change 0%Q with (inject_Z 0). rewrite <- Zle_Qle. unfold burstCapacity. lia.
      - rewrite <- (rate_yield_0 rate). apply rate_yield_mono; lia. }
    apply Forall_cons in Hla as [(Hk & Hr & Ht1 & Htc) Hla]. cbn [fst snd] in Hk, Hr, Ht1, Htc.
    subst k r. destruct Hcla as [Hc0 Hcla]. cbn [snd] in Hc0, Hcla.
    assert (A ∈ keys_of l) as HAl.
    { assert ((A, rate, tc) ∈ calls_for A l) as Hin by (rewrite Hl; left).
      unfold calls_for in Hin. apply list_elem_of_filter in Hin as [_ Hin].
      unfold keys_of. apply list_elem_of_fmap. exists (A, rate).
      split; [done|]. apply list_elem_of_fmap. by exists (A, rate, tc). }
    assert (1 <= maxBuckets rl0) as Hmax.
    { etrans; [|exact Hroom].
      assert ({[A]} ⊆ (list_to_set (keys_of l) : gset string)) as Hsub.
      { apply singleton_subseteq_l. by apply elem_of_list_to_set. }
      apply subseteq_size in Hsub. rewrite size_singleton in Hsub. lia. }
    (* the first call creates the bucket *)
    assert (buckets (sweep rl0 tc) = ∅) as Hsw.
    { apply map_empty. intros k. eapply lookup_weaken_None; [|apply sweep_subseteq].
      by rewrite Hempty. }
    assert (take rl0 A rate tc =
            (with_buckets (sweep rl0 tc)
               {[A := {| tokens := (inject_Z (dynBurst rate) - 1)%Q; last := tc;
                         accessed := tc |}]}, (true, 0))) as Hfirst.
    { assert (buckets (sweep rl0 tc) !! A = None) as Hnone by by rewrite Hsw.
      assert (len (buckets (sweep rl0 tc)) < maxBuckets (sweep rl0 tc)) as Hlen.
      { rewrite Hsw, sweep_maxBuckets. unfold len. rewrite map_size_empty. lia. }
      rewrite (take_created rl0 A rate tc _ _ Hnone (resolve_room _ _ A rate tc Hnone Hlen)).
      rewrite Hsw, insert_insert_eq. done. }
    rewrite run_cons_results, admitted_cons, Hfirst. cbn [fst snd].
    assert (rate_yield rate (tn - tc) <= rate_yield rate (tn - t1))%Q as Hmono.
    { apply rate_yield_mono; lia. }
    eapply Qle_trans; [|apply Qplus_le_compat; [apply Qle_refl|exact Hmono]].
    apply (budget_run A rate tc tn la _ 1 tc); [done| | | | |done|done].
    - split.
      + cbn [buckets with_buckets]. by rewrite dom_singleton_L.
      + rewrite size_singleton. cbn [maxBuckets with_buckets].
        rewrite sweep_maxBuckets. lia.
    - pose proof (sweep_lastCleanup_le rl0 tc _ (Z.le_refl _) Hc0) as Hlc.
      split; [exact Hlc|]. intros b Hb. simpl in Hb. rewrite lookup_singleton_eq in Hb.
      injection Hb as <-. simpl. split_and!; [exact Hlc|lia|lia|].
      change 0%Q with (inject_Z 1 - 1)%Q. unfold Qminus.
      apply Qplus_le_compat; [|apply Qle_refl].
      rewrite <- Zle_Qle. apply dynBurst_ge_1.
    - eexists. split; [simpl; apply lookup_singleton_eq|]. simpl.
      rewrite Z.sub_diag, rate_yield_0, dynBurst_burstCapacity.
      apply Qle_lteq. right. change (inject_Z 1) with 1%Q. ring.
    - eapply Forall_impl; [exact Hla|]. intros c (? & ? & ? & ?). done. }
  (* back to whole numbers *)
  assert (inject_Z ((Z.of_nat (admitted (run rl0 (calls_for A l)).2) - burstCapacity rate)
                    * Minute) <= inject_Z (rate * (tn - t1)))%Q as Hz; [|by rewrite Zle_Qle].
  unfold rate_yield in Hq.
  apply (Qmult_le_compat_r _ _ (inject_Z Minute)) in Hq; [|discriminate].
  unfold Z.sub at 1. rewrite !inject_Z_mult, inject_Z_plus, inject_Z_opp.
  apply Qle_trans with
    (inject_Z (Z.of_nat (admitted (run rl0 (calls_for A l)).2)) * inject_Z Minute
     - inject_Z (burstCapacity rate) * inject_Z Minute)%Q.
  { apply Qle_lteq. right. ring. }
  apply Qle_trans with
    ((inject_Z (burstCapacity rate) + inject_Z (tn - t1) / inject_Z Minute * inject_Z rate)
     * inject_Z Minute - inject_Z (burstCapacity rate) * inject_Z Minute)%Q.
  { unfold Qminus. apply Qplus_le_compat; [exact Hq|apply Qle_refl]. }
  apply Qle_lteq. right. field. discriminate.
Qed.

End RateBound.

Lemma admitted_within_rate_witness :
  let l := [("a"%string, 4, 0); ("a"%string, 4, 0); ("a"%string, 4, 0); ("b"%string, 1, 5);
            ("a"%string, 4, 15 * Second); ("a"%string, 4, 15 * Second)] in
  (Z.of_nat (admitted (answers_for "a" l (@run ref_runtime (small_limiter 2) l).2))
     - burstCapacity 4) * Minute <= 4 * (15 * Second - 0).
Proof.
  apply (@admitted_within_rate ref_runtime ref_runtime_perm (small_limiter 2)
           [("a"%string, 4, 0); ("a"%string, 4, 0); ("a"%string, 4, 0); ("b"%string, 1, 5);
            ("a"%string, 4, 15 * Second); ("a"%string, 4, 15 * Second)]
           "a" 4 0 (15 * Second)).
  - reflexivity.
  - vm_compute. repeat split; discriminate.
  - apply (bool_decide_unpack _). vm_compute. reflexivity.
  - vm_compute. discriminate.
  - apply (bool_decide_unpack _). vm_compute. reflexivity.
  - lia.
  - vm_compute. discriminate.
Defined.

(** ** Which buckets a call removes *)

Section Removal.

Context {rt : GoRuntime}.
Hypothesis range_order_perm : ∀ bs, range_order bs ≡ₚ map_to_list bs.

(** X10. A call leaves the recently used buckets of the other keys alone.
    When the table has room for the key of the call (the keys [K] fit it),
    a bucket of another key that was accessed within the last fifteen
    minutes, the bound included, is still in the table after the call,
    unchanged, whether or not the call sweeps. *)
Theorem recent_bucket_kept (K : gset string) (rl : RateLimiter) (key : string) (rate : Z)
    (now : Time) (k : string) (b : bucket) :
  fits K rl → key ∈ K →
  buckets rl !! k = Some b → k ≠ key →
  now - bucketInactiveThreshold <= accessed b →
  buckets (take rl key rate now).1 !! k = Some b.
Proof.
  intros Hfit Hin Hb Hne Hrecent.
  destruct (take_no_eviction K rl key rate now Hfit Hin) as [b' ->].
  cbn [buckets with_buckets]. rewrite lookup_insert_ne by done.
  rewrite (sweep_lookup range_order_perm), Hb.
  destruct (Z.ltb_spec (accessed b) (now - bucketInactiveThreshold)) as [Hlt|_]; [lia|].
  by rewrite andb_false_r.
Qed.

End Removal.

Lemma recent_bucket_kept_witness :
  buckets (@take ref_runtime two_bucket_limiter "new" 600 (30 * Minute)).1 !! "busy"%string =
    Some {| tokens := 0; last := 20 * Minute; accessed := 20 * Minute |}.
Proof.
  apply (@recent_bucket_kept ref_runtime ref_runtime_perm
           {["idle"%string; "busy"%string; "new"%string]} two_bucket_limiter "new" 600
           (30 * Minute) "busy").
  - apply (bool_decide_unpack _). vm_compute. reflexivity.
  - apply (bool_decide_unpack _). vm_compute. reflexivity.
  - reflexivity.
  - discriminate.
  - vm_compute. discriminate.
Defined.

(** ** Waiting *)

Section Waiting.

Context {rt : GoRuntime}.
Hypothesis range_order_perm : ∀ bs, range_order bs ≡ₚ map_to_list bs.

Lemma Sub_mono (t t' u : Time) : t <= t' → Sub t u <= Sub t' u.
Proof.
  intros Ht. unfold Sub.
  assert (minDuration <= maxDuration) as Hmm by (vm_compute; discriminate).
  destruct (Z.ltb_spec (t - u) minDuration), (Z.ltb_spec (t' - u) minDuration);
    destruct (Z.ltb_spec maxDuration (t - u)), (Z.ltb_spec maxDuration (t' - u)); lia.
Qed.

(** A bucket that holds a token after the refill at [now] holds one after
    the refill at any later time. *)
Lemma refill_mono b rate now now' :
  0 <= rate → now <= now' →
  (1 <= tokens (refill b rate now))%Q → (1 <= tokens (refill b rate now'))%Q.
Proof.
  intros Hrate Hnow. unfold refill. cbn [tokens last accessed].
  rewrite !Minutes_pos. pose proof (Sub_mono now now' (last b) Hnow) as Hsub.
  assert (0 <= inject_Z rate)%Q as Hr0.
  { change 0%Q with (inject_Z 0). by rewrite <- Zle_Qle. }
  assert (1 <= maxTokens rate)%Q as Hcap.
  { rewrite maxTokens_dynBurst. change 1%Q with (inject_Z 1). rewrite <- Zle_Qle.
    apply dynBurst_ge_1. }
  destruct (Z.ltb_spec 0 (Sub now' (last b))) as [Hpos'|Hneg']; cbn [tokens].
  - destruct (Qltb (maxTokens rate) (tokens b + Minutes (Sub now' (last b)) * inject_Z rate))
      eqn:Hcap'; [by intros _|].
    assert (0 <= Minutes (Sub now' (last b)) * inject_Z rate)%Q as Hgain'.
    { apply Qmult_le_0_compat; [|done]. rewrite Minutes_eq.
      apply Qle_shift_div_l; [reflexivity|]. rewrite Qmult_0_l.
      change 0%Q with (inject_Z 0). rewrite <- Zle_Qle. lia. }
    destruct (Z.ltb_spec 0 (Sub now (last b))) as [Hpos|Hneg]; cbn [tokens].
    + intros H1.
      assert (1 <= tokens b + Minutes (Sub now (last b)) * inject_Z rate)%Q as H2.
      { destruct (Qltb (maxTokens rate) _) eqn:Hc in H1; [|done].
        apply Qltb_lt in Hc. eapply Qle_trans; [exact Hcap|]. by apply Qlt_le_weak. }
      eapply Qle_trans; [exact H2|].
      apply Qplus_le_compat; [apply Qle_refl|].
      apply Qmult_le_compat_r; [|done]. rewrite !Minutes_eq.
      apply Qmult_le_compat_r; [|discriminate]. by rewrite <- Zle_Qle.
    + intros H1. rewrite <- (Qplus_0_r 1).
      by apply Qplus_le_compat.
  - destruct (Z.ltb_spec 0 (Sub now (last b))) as [Hpos|Hneg]; [lia|]. done.
Qed.

(** X11. Waiting never hurts.  On a table within its size, at a rate that
    is not negative, if a call for a key that has a bucket is admitted at
    [now], it is admitted as well when it comes at any later time [now']
    instead. *)
Theorem waiting_never_hurts (rl : RateLimiter) (key : string) (rate : Z)
    (now now' : Time) :
  is_Some (buckets rl !! key) →
  len (buckets rl) <= maxBuckets rl →
  0 <= rate → now <= now' →
  (take rl key rate now).2 = (true, 0) →
  (take rl key rate now').2 = (true, 0).
Proof.
  intros [b Hb] Hlen Hrate Hnow Hadm.
  destruct (buckets (sweep rl now') !! key) as [b'|] eqn:Hk'.
  - assert (b' = b) as ->.
    { pose proof (lookup_weaken _ _ _ _ Hk' (sweep_subseteq rl now')). congruence. }
    assert (buckets (sweep rl now) !! key = Some b) as Hk.
    { rewrite (sweep_lookup range_order_perm), Hb in Hk' |- *.
      destruct (Z.ltb_spec bucketCleanupInterval (now' - lastCleanup rl)) as [Hd'|Hd'];
        destruct (Z.ltb_spec (accessed b) (now' - bucketInactiveThreshold)) as [Hs'|Hs'];
        try discriminate;
        destruct (Z.ltb_spec bucketCleanupInterval (now - lastCleanup rl)) as [Hd|Hd];
        destruct (Z.ltb_spec (accessed b) (now - bucketInactiveThreshold)) as [Hs|Hs];
        try done; lia. }
    rewrite (take_present _ _ _ _ _ Hk) in Hadm. rewrite (take_present _ _ _ _ _ Hk').
    cbv zeta in Hadm |- *.
    destruct (Qle_bool 1 (tokens (refill b rate now))) eqn:Hone; [|discriminate].
    apply Qle_bool_iff in Hone.
    apply (refill_mono b rate now now' Hrate Hnow), Qle_bool_iff in Hone.
    by rewrite Hone.
  - assert (len (buckets (sweep rl now')) < maxBuckets (sweep rl now')) as Hroom.
    { rewrite sweep_maxBuckets.
      apply (fits_room (dom (buckets rl)) _ _ key).
      - apply subseteq_dom, sweep_subseteq.
      - rewrite size_dom. exact Hlen.
      - apply elem_of_dom. by eexists.
      - exact Hk'. }
    by rewrite (take_created _ _ _ _ _ _ Hk' (resolve_room _ _ _ rate now' Hk' Hroom)).
Qed.

End Waiting.

Lemma waiting_never_hurts_witness :
  let rl := (@run ref_runtime (NewRateLimiter 600 0) (replicate 3 ("a"%string, 7, 0))).1 in
  (@take ref_runtime rl "a" 7 (20 * Second)).2 = (true, 0).
Proof.
  apply (@waiting_never_hurts ref_runtime ref_runtime_perm
           (@run ref_runtime (NewRateLimiter 600 0) (replicate 3 ("a"%string, 7, 0))).1
           "a" 7 (10 * Second) (20 * Second)).
  - vm_compute. by eexists.
  - vm_compute. discriminate.
  - lia.
  - vm_compute. discriminate.
  - vm_compute. reflexivity.
Defined.

(** * Package [metrics] and the middleware [Metrics] *)

Import metrics.

(** ** Splitting and joining strings *)

Lemma string_app_nil (b : string) : EmptyString +:+ b = b.
Proof. done. Qed.

Lemma string_app_cons x (a b : string) : String x a +:+ b = String x (a +:+ b).
Proof. done. Qed.

Lemma has_byte_app c (a b : string) :
  has_byte c (a +:+ b) = has_byte c a || has_byte c b.
Proof.
  induction a as [|x a IH]; [done|].
  rewrite string_app_cons. simpl. by rewrite IH, orb_assoc.
Qed.

Lemma string_app_assoc (a b c : string) : (a +:+ b) +:+ c = a +:+ (b +:+ c).
Proof. induction a as [|x a IH]; [done|]. by rewrite !string_app_cons, IH. Qed.

Lemma pieces_whole (s : string) sep : pieces s sep (Some O) = (s, []).
Proof.
  induction s as [|c s IH]; simpl; [done|].
  destruct (Ascii.eqb c sep); [done|]. by rewrite IH.
Qed.

Lemma pieces_plain (s : string) sep cuts :
  has_byte sep s = false → pieces s sep cuts = (s, []).
Proof.
  induction s as [|c s IH]; simpl; [done|].
  intros [Hc Hs]%orb_false_elim. rewrite Hc. by rewrite (IH Hs).
Qed.

Lemma pieces_app (a b : string) sep cuts :
  has_byte sep a = false →
  pieces (a +:+ String sep b) sep cuts =
    match cuts with
    | Some O => (a +:+ String sep b, [])
    | Some (S n) => (a, (pieces b sep (Some n)).1 :: (pieces b sep (Some n)).2)
    | None => (a, (pieces b sep None).1 :: (pieces b sep None).2)
    end.
Proof.
  intros Ha. destruct cuts as [[|n]|]; [apply pieces_whole| |].
  - induction a as [|c a IH].
    + rewrite string_app_nil. simpl. rewrite Ascii.eqb_refl. by destruct (pieces b sep (Some n)).
    + simpl in Ha. apply orb_false_elim in Ha as [Hc Ha].
      rewrite string_app_cons. simpl. rewrite Hc. by rewrite (IH Ha).
  - induction a as [|c a IH].
    + rewrite string_app_nil. simpl. rewrite Ascii.eqb_refl. by destruct (pieces b sep None).
    + simpl in Ha. apply orb_false_elim in Ha as [Hc Ha].
      rewrite string_app_cons. simpl. rewrite Hc. by rewrite (IH Ha).
Qed.

Lemma SplitN_plain (s : string) sep n :
  has_byte sep s = false → SplitN s sep (S n) = [s].
Proof. intros Hs. unfold SplitN. by rewrite pieces_plain. Qed.

Lemma SplitN_two (a b : string) sep :
  has_byte sep a = false → SplitN (a +:+ String sep b) sep 2 = [a; b].
Proof. intros Ha. unfold SplitN. rewrite pieces_app by done. by rewrite pieces_whole. Qed.

Lemma Split_plain (s : string) sep : has_byte sep s = false → Split s sep = [s].
Proof. intros Hs. unfold Split. by rewrite pieces_plain. Qed.

Lemma Split_app (a b : string) sep :
  has_byte sep a = false → Split (a +:+ String sep b) sep = a :: Split b sep.
Proof.
  intros Ha. unfold Split. rewrite pieces_app by done.
  by destruct (pieces b sep None).
Qed.

Lemma Join_cons p q (rest : list string) sep :
  Join (p :: q :: rest) sep = p +:+ sep +:+ Join (q :: rest) sep.
Proof. done. Qed.

Lemma Split_Join (parts : list string) sep :
  parts ≠ [] → Forall (λ p, has_byte sep p = false) parts →
  Split (Join parts (String sep EmptyString)) sep = parts.
Proof.
  induction parts as [|p [|q rest] IH]; intros Hne Hall; [done| |].
  - simpl. apply Split_plain. by inversion Hall.
  - apply Forall_cons in Hall as [Hp Hall]. rewrite Join_cons.
    rewrite string_app_cons, string_app_nil.
    rewrite Split_app by done. f_equal. by apply IH.
Qed.

Lemma ReplaceAll_plain (s : string) old new :
  has_byte old s = false → ReplaceAll s old new = s.
Proof.
  induction s as [|c s IH]; simpl; [done|].
  intros [Hc Hs]%orb_false_elim. rewrite Hc. by rewrite (IH Hs).
Qed.

Lemma ReplaceAll_app (a b : string) old new :
  ReplaceAll (a +:+ b) old new = ReplaceAll a old new +:+ ReplaceAll b old new.
Proof.
  induction a as [|c a IH]; [done|].
  rewrite string_app_cons. simpl.
  destruct (Ascii.eqb c old); rewrite IH; [by rewrite string_app_assoc|done].
Qed.

Lemma ReplaceAll_pair (k v : string) old new :
  has_byte old k = false → has_byte old v = false →
  ReplaceAll (k +:+ String old v) old new = k +:+ new +:+ v.
Proof.
  intros Hk Hv. rewrite ReplaceAll_app, (ReplaceAll_plain k) by done.
  simpl. rewrite Ascii.eqb_refl. by rewrite (ReplaceAll_plain v).
Qed.


(** ** Keys of labeled counters *)

Lemma sorted_labels_unique (l1 l2 : list string) :
  l1 ≡ₚ l2 → merge_sort String.le l1 = merge_sort String.le l2.
Proof.
  intros Hp. apply (Sorted_unique String.le).
  - apply (Sorted_merge_sort String.le).
  - apply (Sorted_merge_sort String.le).
  - by rewrite !merge_sort_Permutation.
Qed.

(** X12. The key of a labeled counter does not depend on the order in which
    Go goes through the label map: two orders that both enumerate the keys
    of a map, each once, give the same key for every metric and labels. *)
Theorem buildLabelKey_order_independent (mo1 mo2 : MapOrder)
    (metric : string) (labels : gmap string string) :
  (∀ m, @range_labels mo1 m ≡ₚ (map_to_list m).*1) →
  (∀ m, @range_labels mo2 m ≡ₚ (map_to_list m).*1) →
  @buildLabelKey mo1 metric labels = @buildLabelKey mo2 metric labels.
Proof.
  intros H1 H2. unfold buildLabelKey.
  destruct (decide (size labels = 0%nat)); [done|].
  cbv zeta. by rewrite (sorted_labels_unique _ (@range_labels mo2 labels)) by (by rewrite H1, H2).
Qed.

Lemma ref_order_perm (m : gmap string string) :
  @range_labels ref_order m ≡ₚ (map_to_list m).*1.
Proof. done. Qed.

Lemma rev_order_perm (m : gmap string string) :
  @range_labels rev_order m ≡ₚ (map_to_list m).*1.
Proof. apply reverse_Permutation. Qed.

Lemma buildLabelKey_order_independent_witness :
  let labels : gmap string string :=
    <["status"%string := "200"%string]> (<["method"%string := "GET"%string]> ∅) in
  @buildLabelKey ref_order "hits" labels = @buildLabelKey rev_order "hits" labels.
Proof.
  apply (buildLabelKey_order_independent ref_order rev_order "hits"
           (<["status"%string := "200"%string]> (<["method"%string := "GET"%string]> ∅))).
  - apply ref_order_perm.
  - apply rev_order_perm.
Defined.

Section LabelKeys.

Context {mo : MapOrder}.
Hypothesis range_labels_perm : ∀ m, range_labels m ≡ₚ (map_to_list m).*1.

Lemma sorted_labels_perm (labels : gmap string string) :
  merge_sort String.le (range_labels labels) ≡ₚ (map_to_list labels).*1.
Proof. by rewrite merge_sort_Permutation. Qed.

Lemma sorted_labels_elem (labels : gmap string string) k :
  k ∈ merge_sort String.le (range_labels labels) → ∃ v, labels !! k = Some v.
Proof.
  rewrite sorted_labels_perm. intros ((k' & v) & -> & Hin)%list_elem_of_fmap.
  exists v. by apply elem_of_map_to_list.
Qed.

Lemma sorted_labels_nonempty (labels : gmap string string) :
  size labels ≠ 0%nat → merge_sort String.le (range_labels labels) ≠ [].
Proof.
  intros Hsz Hnil. apply Hsz.
  pose proof (sorted_labels_perm labels) as Hp. rewrite Hnil in Hp.
  apply Permutation_nil_l in Hp. symmetry in Hp. apply fmap_nil_inv in Hp.
  apply map_to_list_empty_iff in Hp. by rewrite Hp, map_size_empty.
Qed.

(** The pairs of the sorted keys and their values are the map. *)
Lemma labels_of_pairs (labels : gmap string string) :
  list_to_map ((λ k, (k, default ""%string (labels !! k)))
                 <$> merge_sort String.le (range_labels labels)) = labels.
Proof.
  assert ((λ k, (k, default ""%string (labels !! k))) <$> (map_to_list labels).*1
          = map_to_list labels) as Hpairs.
  { rewrite <- list_fmap_compose. rewrite <- (list_fmap_id (map_to_list labels)) at 2.
    apply Forall_fmap_ext, Forall_forall. intros [k v] Hin%elem_of_map_to_list.
    simpl. by rewrite Hin. }
  transitivity (list_to_map (map_to_list labels) : gmap string string);
    [|apply list_to_map_to_list].
  rewrite <- Hpairs. apply list_to_map_proper.
  - rewrite <- list_fmap_compose.
    rewrite (list_fmap_ext _ id _ (λ _ _ _, eq_refl)), list_fmap_id.
    rewrite sorted_labels_perm. apply NoDup_fst_map_to_list.
  - by rewrite sorted_labels_perm.
Qed.


(** The key of a non-empty label map: the metric, a bar, the parts. *)
Lemma buildLabelKey_nonempty metric (labels : gmap string string) :
  size labels ≠ 0%nat →
  buildLabelKey metric labels =
    metric +:+ String "|"
      (Join ((λ k, k +:+ "=" +:+ default ""%string (labels !! k))
               <$> merge_sort String.le (range_labels labels)) ",").
Proof. intros Hsz. unfold buildLabelKey. by destruct (decide (size labels = 0%nat)). Qed.

Lemma buildLabelKey_empty metric (labels : gmap string string) :
  size labels = 0%nat → buildLabelKey metric labels = metric.
Proof. intros Hsz. unfold buildLabelKey. by destruct (decide (size labels = 0%nat)). Qed.

Lemma parts_comma_free (labels : gmap string string) :
  key_safe labels →
  Forall (λ p, has_byte "," p = false)
    ((λ k, k +:+ "=" +:+ default ""%string (labels !! k))
       <$> merge_sort String.le (range_labels labels)).
Proof.
  intros Hsafe. apply Forall_fmap, Forall_forall. intros k Hk.
  destruct (sorted_labels_elem labels k Hk) as [v Hv].
  destruct (Hsafe k v Hv) as (Hk1 & _ & Hv1).
  simpl. rewrite Hv. simpl. rewrite !has_byte_app, Hk1, Hv1. done.
Qed.

Lemma parts_nonempty (labels : gmap string string) :
  size labels ≠ 0%nat →
  (λ k, k +:+ "=" +:+ default ""%string (labels !! k))
    <$> merge_sort String.le (range_labels labels) ≠ [].
Proof.
  intros Hsz Hnil. apply fmap_nil_inv in Hnil.
  by apply (sorted_labels_nonempty labels).
Qed.

(** A part gives back its key and value. *)
Lemma decode_parts (labels : gmap string string) :
  key_safe labels →
  (λ p, ((pieces p "=" (Some 1%nat)).1,
         default ""%string (head (pieces p "=" (Some 1%nat)).2)))
    <$> ((λ k, k +:+ "=" +:+ default ""%string (labels !! k))
           <$> merge_sort String.le (range_labels labels))
  = (λ k, (k, default ""%string (labels !! k))) <$> merge_sort String.le (range_labels labels).
Proof.
  intros Hsafe. rewrite <- list_fmap_compose.
  apply Forall_fmap_ext, Forall_forall. intros k Hk.
  destruct (sorted_labels_elem labels k Hk) as [v Hv].
  destruct (Hsafe k v Hv) as (_ & Hk2 & _).
  simpl. rewrite Hv. simpl.
  change (k +:+ "=" +:+ v) with (k +:+ String "=" v).
  rewrite pieces_app by done. by rewrite pieces_whole.
Qed.

(** X13. Different series get different keys.  For metrics without a bar,
    label keys without comma or equals sign and label values without comma,
    two calls that build the same key have the same metric and the same
    labels: such series never share a counter. *)
Theorem label_key_injective (metric1 : string) (labels1 : gmap string string)
    (metric2 : string) (labels2 : gmap string string) :
  plain_metric metric1 → plain_metric metric2 →
  key_safe labels1 → key_safe labels2 →
  buildLabelKey metric1 labels1 = buildLabelKey metric2 labels2 →
  metric1 = metric2 ∧ labels1 = labels2.
Proof.
  intros Hm1 Hm2 Hs1 Hs2 Hkey.
  destruct (decide (size labels1 = 0%nat)) as [Hz1|Hn1];
    destruct (decide (size labels2 = 0%nat)) as [Hz2|Hn2].
  - rewrite !buildLabelKey_empty in Hkey by done.
    apply map_size_empty_inv in Hz1, Hz2. by subst.
  - rewrite buildLabelKey_empty in Hkey by done.
    rewrite buildLabelKey_nonempty in Hkey by done.
    exfalso. unfold plain_metric in Hm1. rewrite Hkey, has_byte_app in Hm1.
    simpl in Hm1. by rewrite orb_true_r in Hm1.
  - rewrite (buildLabelKey_empty metric2) in Hkey by done.
    rewrite buildLabelKey_nonempty in Hkey by done.
    exfalso. unfold plain_metric in Hm2. rewrite <- Hkey, has_byte_app in Hm2.
    simpl in Hm2. by rewrite orb_true_r in Hm2.
  - rewrite !buildLabelKey_nonempty in Hkey by done.
    apply (f_equal (λ s, SplitN s "|" 2)) in Hkey.
    rewrite !SplitN_two in Hkey by done.
    injection Hkey as Hmetric Hjoin. split; [done|].
    apply (f_equal (λ s, Split s ",")) in Hjoin.
    rewrite !(Split_Join _ ",") in Hjoin
      by first [by apply parts_comma_free | by apply parts_nonempty].
    apply (f_equal (fmap (λ p, ((pieces p "=" (Some 1%nat)).1,
                                default ""%string (head (pieces p "=" (Some 1%nat)).2)))))
      in Hjoin.
    rewrite !decode_parts in Hjoin by done.
    rewrite <- (labels_of_pairs labels1),
            <- (labels_of_pairs labels2).
    by rewrite Hjoin.
Qed.

End LabelKeys.

Lemma label_key_injective_witness :
  "hits"%string = "hits"%string ∧
  (<["status"%string := "200"%string]> (<["method"%string := "GET"%string]> ∅)
     : gmap string string) =
  <["method"%string := "GET"%string]> (<["status"%string := "200"%string]> ∅).
Proof.
  apply (@label_key_injective rev_order rev_order_perm "hits"
           (<["status"%string := "200"%string]> (<["method"%string := "GET"%string]> ∅))
           "hits"
           (<["method"%string := "GET"%string]> (<["status"%string := "200"%string]> ∅))).
  - reflexivity.
  - reflexivity.
  - apply (bool_decide_unpack (map_Forall (λ k v, _ ∧ _ ∧ _) _)). vm_compute. reflexivity.
  - apply (bool_decide_unpack (map_Forall (λ k v, _ ∧ _ ∧ _) _)). vm_compute. reflexivity.
  - vm_compute. reflexivity.
Defined.

(** ** Rendering a labeled counter *)

Section Render.

Context {mo : MapOrder}.
Hypothesis range_labels_perm : ∀ m, range_labels m ≡ₚ (map_to_list m).*1.

Lemma Join_has_byte c p (rest : list string) sep :
  has_byte c p = true → has_byte c (Join (p :: rest) sep) = true.
Proof.
  intros Hp. destruct rest as [|q rest]; [done|].
  rewrite Join_cons, has_byte_app, Hp. done.
Qed.

(** The line of one labeled counter: the series name, a space, the value
    in decimal and a line feed. *)
Lemma render_labeled_line (metric : string) (labels : gmap string string)
    (c : Counter) :
  plain_metric metric → render_safe labels →
  render_labeled (buildLabelKey metric labels) c =
    series_name metric labels +:+ " " +:+ pretty (Get c) +:+ newline.
Proof.
  intros Hm Hsafe. unfold render_labeled, series_name.
  destruct (decide (size labels = 0%nat)) as [Hz|Hnz].
  - rewrite (buildLabelKey_empty metric labels Hz).
    rewrite (SplitN_plain metric "|" 1 Hm). done.
  - rewrite (buildLabelKey_nonempty metric labels Hnz).
    rewrite (SplitN_two metric _ "|" Hm). cbv zeta. cbn [lookup list_lookup default].
    assert (key_safe labels) as Hks.
    { intros k v Hv. destruct (Hsafe k v Hv) as (? & ? & ? & ?). done. }
    set (keys := merge_sort String.le (range_labels labels)).
    assert (merge_sort String.le (map_to_list labels).*1 = keys) as ->.
    { apply sorted_labels_unique. by rewrite range_labels_perm. }
    set (parts := (λ k, k +:+ "=" +:+ default ""%string (labels !! k)) <$> keys).
    assert (String.eqb (Join parts ",") "" = false) as ->.
    { apply String.eqb_neq. intros Hnil.
      pose proof (parts_nonempty range_labels_perm labels Hnz) as Hne.
      fold keys in Hne. fold parts in Hne.
      destruct parts as [|p rest] eqn:Hparts; [done|].
      assert (has_byte "=" p = true) as Hp.
      { assert (p ∈ (λ k, k +:+ "=" +:+ default ""%string (labels !! k)) <$> keys) as Hin.
        { fold parts. rewrite Hparts. left. }
        apply list_elem_of_fmap in Hin as (k & -> & _).
        rewrite !has_byte_app. simpl. by rewrite orb_true_r. }
      apply (Join_has_byte _ _ rest ",") in Hp. by rewrite Hnil in Hp. }
    cbn [negb].
    rewrite (Split_Join parts ",")
      by first [by apply parts_comma_free | by apply parts_nonempty].
    assert ((λ p, ReplaceAll p "=" ("=" +:+ quote) +:+ quote) <$> parts =
            (λ k, k +:+ "=" +:+ quote +:+ default ""%string (labels !! k) +:+ quote) <$> keys)
      as ->.
    { unfold parts. rewrite <- list_fmap_compose.
      apply Forall_fmap_ext, Forall_forall. intros k Hk.
      destruct (sorted_labels_elem range_labels_perm labels k Hk) as [v Hv].
      destruct (Hsafe k v Hv) as (_ & Hk2 & _ & Hv2).
      simpl. rewrite Hv. simpl.
      change (k +:+ "=" +:+ v) with (k +:+ String "=" v).
      rewrite ReplaceAll_pair by done. by rewrite !string_app_assoc. }
    by rewrite !string_app_assoc.
Qed.

Hypothesis range_labeled_perm : ∀ m, range_labeled m ≡ₚ map_to_list m.

Lemma string_app_nil_r (s : string) : s +:+ ""%string = s.
Proof. induction s as [|x s IH]; [done|]. by rewrite string_app_cons, IH. Qed.

Lemma render_lines_from (l : list (string * Counter)) (sb : string) :
  foldl (λ sb '(key, counter), sb +:+ render_labeled key counter) sb l =
  sb +:+ foldl (λ sb '(key, counter), sb +:+ render_labeled key counter) ""%string l.
Proof.
  revert sb. induction l as [|[k c] l IH]; intros sb; cbn [foldl].
  - by rewrite string_app_nil_r.
  - rewrite IH, (IH (_ +:+ _)). by rewrite string_app_nil, string_app_assoc.
Qed.

(** X14. The renderer reads the key back.  For a metric without a bar and
    labels whose keys and values hold no comma and no equals sign, when
    the table holds a counter under the key of [buildLabelKey], the
    labeled part of [RenderPrometheus] contains the line of this series:
    the metric, in braces the labels in the order of their keys with the
    values in double quotes (nothing when there is no label), a space, the
    value of the counter in decimal and a line feed. *)
Theorem rendered_series_line (m : gmap string Counter) (metric : string)
    (labels : gmap string string) (c : Counter) :
  plain_metric metric → render_safe labels →
  m !! buildLabelKey metric labels = Some c →
  ∃ before after,
    render_all_labeled m =
      before +:+ (series_name metric labels +:+ " " +:+ pretty (Get c) +:+ newline)
        +:+ after.
Proof.
  intros Hm Hsafe Hc. unfold render_all_labeled.
  assert ((buildLabelKey metric labels, c) ∈ range_labeled m) as Hin.
  { rewrite range_labeled_perm. by apply elem_of_map_to_list. }
  apply list_elem_of_split in Hin as (l1 & l2 & ->).
  eexists _, _. rewrite foldl_app. cbn [foldl]. rewrite render_lines_from.
  rewrite (render_labeled_line metric labels c Hm Hsafe).
  rewrite string_app_assoc. reflexivity.
Qed.

End Render.

Lemma ref_labeled_perm (m : gmap string Counter) : @range_labeled ref_order m ≡ₚ map_to_list m.
Proof. done. Qed.

Lemma rev_labeled_perm (m : gmap string Counter) : @range_labeled rev_order m ≡ₚ map_to_list m.
Proof. apply reverse_Permutation. Qed.

Lemma rendered_series_line_witness :
  let labels : gmap string string :=
    <["status"%string := "200"%string]> (<["method"%string := "GET"%string]> ∅) in
  let m := labeled (@IncLabeled rev_order
                      (@AddLabeled rev_order (NewRegistry 0) "hits" labels 2) "misses" ∅) in
  ∃ before after,
    @render_all_labeled rev_order m =
      before +:+ (series_name "hits" labels +:+ " " +:+ pretty (Get {| v := 2 |}) +:+ newline)
        +:+ after.
Proof.
  apply (@rendered_series_line rev_order rev_order_perm rev_labeled_perm
           (labeled (@IncLabeled rev_order
                       (@AddLabeled rev_order (NewRegistry 0) "hits"
                          (<["status"%string := "200"%string]>
                             (<["method"%string := "GET"%string]> ∅)) 2) "misses" ∅))
           "hits"
           (<["status"%string := "200"%string]> (<["method"%string := "GET"%string]> ∅))
           {| v := 2 |}).
  - reflexivity.
  - apply (bool_decide_unpack (map_Forall (λ k v, _ ∧ _ ∧ _ ∧ _) _)). vm_compute. reflexivity.
  - vm_compute. reflexivity.
Defined.

(** ** Counting under labels *)

Section Counting.

Context {mo : MapOrder}.

Lemma uint64_plus_l a b : uint64 (uint64 a + b) = uint64 (a + b).
Proof. unfold uint64. apply Zplus_mod_idemp_l. Qed.

Lemma uint64_plus_r a b : uint64 (a + uint64 b) = uint64 (a + b).
Proof. unfold uint64. apply Zplus_mod_idemp_r. Qed.

Lemma uint64_range a : is_uint64 (uint64 a).
Proof. unfold is_uint64, uint64. apply Z.mod_pos_bound. reflexivity. Qed.

Lemma uint64_id a : is_uint64 a → uint64 a = a.
Proof. intros H. unfold uint64. by apply Z.mod_small. Qed.

Lemma record_lookup r c key :
  labeled (record r c) !! key =
    if decide (key = call_key c)
    then Some {| v := uint64 (v (default {| v := 0 |} (labeled r !! key)) + call_delta c) |}
    else labeled r !! key.
Proof.
  destruct c as [metric labels|metric labels delta]; simpl;
    unfold IncLabeled, AddLabeled, Inc, Add;
    set (k := buildLabelKey metric labels);
    destruct (decide (key = k)) as [->|Hne];
    destruct (labeled r !! k) as [c|] eqn:Hk; cbn [labeled with_labeled];
    rewrite ?lookup_insert_eq, ?lookup_insert_ne by done; done.
Qed.

Lemma added_at_cons key c cs :
  added_at key (c :: cs) =
    (if decide (key = call_key c) then call_delta c else 0) + added_at key cs.
Proof.
  unfold added_at. rewrite filter_cons.
  destruct (decide (call_key c = key)) as [<-|Hne].
  - rewrite decide_True by done. reflexivity.
  - rewrite decide_False by (by intros ->). by rewrite Z.add_0_l.
Qed.

Lemma added_at_absent key cs : key ∉ call_key <$> cs → added_at key cs = 0.
Proof.
  induction cs as [|c cs IH]; [done|].
  rewrite fmap_cons, not_elem_of_cons, added_at_cons. intros [Hne Hnin].
  rewrite decide_False by done. by rewrite IH.
Qed.

(** X15. Labeled counters add up.  After any calls of [IncLabeled] and
    [AddLabeled] on a registry, a key that no call builds is as before,
    with its counter or without one; a key that some call builds has a
    counter, whose value is the earlier one (zero if there was none) plus
    all that the calls for this key have added, modulo [2 ^ 64]. *)
Theorem labeled_counters_total (cs : list labeled_call) (r : Registry) (key : string) :
  labeled (record_all r cs) !! key =
    if decide (key ∈ call_key <$> cs)
    then Some {| v := uint64 (v (default {| v := 0 |} (labeled r !! key)) + added_at key cs) |}
    else labeled r !! key.
Proof.
  revert r. induction cs as [|c cs IH]; intros r.
  { rewrite fmap_nil, decide_False by apply not_elem_of_nil. done. }
  change (record_all r (c :: cs)) with (record_all (record r c) cs).
  rewrite IH, record_lookup, added_at_cons, fmap_cons.
  destruct (decide (key = call_key c)) as [->|Hne].
  - rewrite (decide_True (P := _ ∈ _ :: _)) by left. unfold default at 1. cbn [from_option id v].
    destruct (decide (call_key c ∈ call_key <$> cs)).
    + by rewrite uint64_plus_l, Z.add_assoc.
    + by rewrite (added_at_absent _ cs), Z.add_0_r.
  - destruct (decide (key ∈ call_key <$> cs)) as [Hin|Hnin].
    + rewrite (decide_True (P := _ ∈ _ :: _)) by (by right). by rewrite Z.add_0_l.
    + rewrite (decide_False (P := _ ∈ _ :: _)); [done|].
      intros [?|?]%elem_of_cons; done.
Qed.

End Counting.

(** ** Histograms *)

Lemma observe_all_sum l h :
  is_uint64 (sum h) → sum (observe_all h l) = uint64 (sum h + total l).
Proof.
  revert h. induction l as [|ms l IH]; intros h Hh.
  - simpl. by rewrite Z.add_0_r, uint64_id.
  - change (observe_all h (ms :: l)) with (observe_all (Observe h ms) l).
    rewrite IH by apply uint64_range.
    change (total (ms :: l)) with (ms + total l). cbn [Observe sum].
    rewrite uint64_plus_l.
    replace (sum h + uint64 ms + total l) with (sum h + total l + uint64 ms) by lia.
    rewrite uint64_plus_r. f_equal. lia.
Qed.

Lemma observe_all_count l h :
  is_uint64 (count h) → count (observe_all h l) = uint64 (count h + Z.of_nat (length l)).
Proof.
  revert h. induction l as [|ms l IH]; intros h Hh.
  - simpl. by rewrite Z.add_0_r, uint64_id.
  - change (observe_all h (ms :: l)) with (observe_all (Observe h ms) l).
    rewrite IH by apply uint64_range. cbn [Observe count length].
    rewrite uint64_plus_l. f_equal. lia.
Qed.

Lemma total_nonneg l : Forall (λ ms, 0 <= ms) l → 0 <= total l.
Proof. induction 1; simpl; lia. Qed.

(** X16. A histogram averages what it has observed.  After a non-empty
    list of observations, none negative, fewer than [2 ^ 64] and of a sum
    below [2 ^ 64], an empty histogram holds their sum and their number, and
    [Avg], in exact arithmetic, is their mean. *)
Theorem histogram_mean (l : list Z) :
  Forall (λ ms, 0 <= ms) l → l ≠ [] → total l < 2 ^ 64 → Z.of_nat (length l) < 2 ^ 64 →
  let h := observe_all {| sum := 0; count := 0 |} l in
  Sum h = total l ∧ Count h = Z.of_nat (length l) ∧
  (Avg h == inject_Z (total l) / inject_Z (Z.of_nat (length l)))%Q.
Proof.
  intros Hpos Hne Hsum Hlen h.
  assert (Sum h = total l) as Hs.
  { unfold Sum, h. rewrite observe_all_sum by (split; [done|reflexivity]).
    apply uint64_id. split; [by apply total_nonneg|done]. }
  assert (Count h = Z.of_nat (length l)) as Hc.
  { unfold Count, h. rewrite observe_all_count by (split; [done|reflexivity]).
    apply uint64_id. split; [lia|done]. }
  split_and!; [done..|]. unfold Avg. unfold Sum, Count in Hs, Hc. rewrite Hs, Hc.
  destruct (Z.eqb_spec (Z.of_nat (length l)) 0) as [Hz|_]; [|reflexivity].
  destruct l; [done|]. simpl in Hz. lia.
Qed.

Lemma histogram_mean_witness :
  let l := [10; 20; 30] in
  let h := observe_all {| sum := 0; count := 0 |} l in
  Sum h = total l ∧ Count h = Z.of_nat (length l) ∧
  (Avg h == inject_Z (total l) / inject_Z (Z.of_nat (length l)))%Q.
Proof.
  apply (histogram_mean [10; 20; 30]).
  - repeat constructor; lia.
  - discriminate.
  - reflexivity.
  - reflexivity.
Defined.

(** ** The request metrics *)

Section MiddlewareCounts.

Context {mo : MapOrder}.

Lemma labeled_total_insert_new (m : gmap string Counter) k c :
  m !! k = None → labeled_total (<[k := c]> m) = Get c + labeled_total m.
Proof.
  intros Hk. unfold labeled_total.
  rewrite map_fold_insert_L; [done| |done].
  intros. lia.
Qed.

Lemma labeled_total_insert_old (m : gmap string Counter) k c c' :
  m !! k = Some c → labeled_total (<[k := c']> m) = labeled_total m - Get c + Get c'.
Proof.
  intros Hk. rewrite <- (insert_delete_eq m k c').
  rewrite labeled_total_insert_new by apply lookup_delete_eq.
  rewrite <- (insert_delete_id m k c Hk) at 2.
  rewrite (labeled_total_insert_new (delete k m) k c) by apply lookup_delete_eq. lia.
Qed.

Lemma labeled_total_bound (m : gmap string Counter) k c :
  (∀ k' c', m !! k' = Some c' → 0 <= Get c') →
  m !! k = Some c → 0 <= Get c <= labeled_total m.
Proof.
  revert k c. induction m as [|k0 c0 m Hk0 IH] using map_ind; intros k c Hnn Hk.
  { by rewrite lookup_empty in Hk. }
  rewrite labeled_total_insert_new by done.
  assert (0 <= Get c0) as H0 by (apply (Hnn k0); apply lookup_insert_eq).
  assert (∀ k' c', m !! k' = Some c' → 0 <= Get c') as Hnn'.
  { intros k' c' Hc'. apply (Hnn k'). rewrite lookup_insert_ne; [done|]. intros ->. congruence. }
  assert (0 <= labeled_total m) as Htot.
  { clear -Hnn'. induction m as [|k1 c1 m Hk1 IHm] using map_ind; [done|].
    rewrite labeled_total_insert_new by done.
    assert (0 <= Get c1) by (apply (Hnn' k1); apply lookup_insert_eq).
    assert (0 <= labeled_total m); [|lia].
    apply IHm. intros k' c' Hc'. apply (Hnn' k').
    rewrite lookup_insert_ne; [done|]. intros ->. congruence. }
  destruct (decide (k = k0)) as [->|Hne].
  - rewrite lookup_insert_eq in Hk. injection Hk as <-. lia.
  - rewrite lookup_insert_ne in Hk by done. pose proof (IH k c Hnn' Hk). lia.
Qed.

(** What [IncLabeled] does to the table of labeled counters. *)
Lemma IncLabeled_total r metric labels :
  (∀ k c, labeled r !! k = Some c → 0 <= Get c) →
  labeled_total (labeled r) + 1 < 2 ^ 64 →
  labeled_total (labeled (IncLabeled r metric labels)) = labeled_total (labeled r) + 1 ∧
  (∀ k c, labeled (IncLabeled r metric labels) !! k = Some c → 0 <= Get c).
Proof.
  intros Hnn Hfit. unfold IncLabeled.
  set (key := buildLabelKey metric labels).
  destruct (labeled r !! key) as [c|] eqn:Hk; cbn [labeled with_labeled].
  - destruct (labeled_total_bound _ key c Hnn Hk) as [Hc0 Hc1].
    assert (Get (Inc c) = Get c + 1) as Hinc.
    { unfold Get, Inc in *. cbn [v]. apply uint64_id. unfold is_uint64. lia. }
    split.
    + rewrite (labeled_total_insert_old _ key c) by done. lia.
    + intros k c'. destruct (decide (k = key)) as [->|Hne].
      * rewrite lookup_insert_eq. intros [= <-]. lia.
      * rewrite lookup_insert_ne by done. apply Hnn.
  - rewrite insert_insert_eq.
    assert (Get (Inc {| v := 0 |}) = 1) as Hinc by reflexivity.
    split.
    + rewrite labeled_total_insert_new by done. lia.
    + intros k c'. destruct (decide (k = key)) as [->|Hne].
      * rewrite lookup_insert_eq. intros [= <-]. lia.
      * rewrite lookup_insert_ne by done. apply Hnn.
Qed.

Lemma Metrics_step reg x n :
  0 <= n → n + 1 < 2 ^ 64 →
  Get (RequestsTotal reg) = n → Count (RequestDuration reg) = n →
  labeled_total (labeled reg) = n →
  (∀ k c, labeled reg !! k = Some c → 0 <= Get c) →
  Get (RequestsTotal (Metrics reg x)) = n + 1 ∧
  Count (RequestDuration (Metrics reg x)) = n + 1 ∧
  labeled_total (labeled (Metrics reg x)) = n + 1 ∧
  (∀ k c, labeled (Metrics reg x) !! k = Some c → 0 <= Get c).
Proof.
  intros Hn Hfit Hreq Hcnt Htot Hnn. unfold Metrics. cbv zeta.
  set (reg2 := with_RequestDuration _ _).
  assert (labeled reg2 = labeled reg) as Hlab by done.
  destruct (IncLabeled_total reg2 "http_requests" (request_labels x)) as [Ht Hnn'].
  { by rewrite Hlab. } { rewrite Hlab. lia. }
  rewrite Hlab in Ht. split_and!; [| |lia|done].
  - unfold IncLabeled. destruct (labeled reg2 !! _); cbn.
    all: unfold Get in Hreq; rewrite Hreq; apply uint64_id; unfold is_uint64; lia.
  - unfold IncLabeled. destruct (labeled reg2 !! _); cbn.
    all: unfold Count in Hcnt; rewrite Hcnt; apply uint64_id; unfold is_uint64; lia.
Qed.

Lemma Metrics_run xs reg n :
  0 <= n → n + Z.of_nat (length xs) < 2 ^ 64 →
  Get (RequestsTotal reg) = n → Count (RequestDuration reg) = n →
  labeled_total (labeled reg) = n →
  (∀ k c, labeled reg !! k = Some c → 0 <= Get c) →
  Get (RequestsTotal (foldl Metrics reg xs)) = n + Z.of_nat (length xs) ∧
  Count (RequestDuration (foldl Metrics reg xs)) = n + Z.of_nat (length xs) ∧
  labeled_total (labeled (foldl Metrics reg xs)) = n + Z.of_nat (length xs).
Proof.
  revert reg n. induction xs as [|x xs IH]; intros reg n Hn Hfit Hreq Hcnt Htot Hnn.
  { simpl. rewrite Z.add_0_r. done. }
  cbn [foldl length] in *.
  destruct (Metrics_step reg x n) as (H1 & H2 & H3 & H4); try done; [lia|].
  replace (n + Z.of_nat (S (length xs))) with (n + 1 + Z.of_nat (length xs)) by lia.
  apply IH; try done; lia.
Qed.

(** X17. The request metrics agree.  After at most [2 ^ 64 - 1] requests
    through the [Metrics] middleware on a new registry, or on one that
    [Reset] has just cleared, the total of requests, the number of observed
    durations and the sum of all the labeled counters are all the number of
    requests: every request is counted in one labeled series. *)
Theorem metrics_middleware_counts (xs : list exchange) (reg0 : Registry) :
  (∃ t0, reg0 = NewRegistry t0) ∨ (∃ r, reg0 = Reset r) →
  Z.of_nat (length xs) < 2 ^ 64 →
  let reg := foldl Metrics reg0 xs in
  Get (RequestsTotal reg) = Z.of_nat (length xs) ∧
  Count (RequestDuration reg) = Z.of_nat (length xs) ∧
  labeled_total (labeled reg) = Z.of_nat (length xs).
Proof.
  intros Hnew Hfit reg.
  apply (Metrics_run xs reg0 0); try done; by destruct Hnew as [[t0 ->]|[r ->]].
Qed.

End MiddlewareCounts.

Lemma metrics_middleware_counts_witness :
  let xs := [mkExchange "GET" "/users" 200 contextx.Background 0 (3 * Millisecond);
             mkExchange "GET" "/users" 404 (contextx.WithTenant contextx.Background "acme")
               5 (9 * Millisecond);
             mkExchange "GET" "/users" 200 contextx.Background 7 (8 * Millisecond)] in
  let reg := foldl (@Metrics ref_order)
               (Reset (foldl (@Metrics ref_order) (NewRegistry 0) xs)) xs in
  Get (RequestsTotal reg) = Z.of_nat (length xs) ∧
  Count (RequestDuration reg) = Z.of_nat (length xs) ∧
  labeled_total (labeled reg) = Z.of_nat (length xs).
Proof.
  apply (@metrics_middleware_counts ref_order
           [mkExchange "GET" "/users" 200 contextx.Background 0 (3 * Millisecond);
            mkExchange "GET" "/users" 404 (contextx.WithTenant contextx.Background "acme")
              5 (9 * Millisecond);
            mkExchange "GET" "/users" 200 contextx.Background 7 (8 * Millisecond)]).
  - right. eexists. reflexivity.
  - reflexivity.
Defined.

Section RequestSeries.

Context {mo : MapOrder}.
Hypothesis range_labels_perm : ∀ m, range_labels m ≡ₚ (map_to_list m).*1.

Lemma request_labels_keys (x : exchange) :
  merge_sort String.le (range_labels (request_labels x)) =
    ["method"; "path"; "status"; "tenant"]%string.
Proof.
  transitivity (merge_sort String.le ["method"; "path"; "status"; "tenant"]%string);
    [|by vm_compute].
  apply sorted_labels_unique. rewrite range_labels_perm. unfold request_labels.
  rewrite !map_to_list_insert, map_to_list_empty; [done|..];
    by rewrite ?lookup_insert_ne, ?lookup_empty by done.
Qed.

(** X18. The labeled series of a request.  Whatever the order in which Go
    goes through the label map, the [Metrics] middleware counts a request
    under the key made of its method, route path, status and tenant, in
    this order; the tenant is what [contextx.TenantID] finds in the user
    context, the empty string if it finds none. *)
Theorem request_series_key (x : exchange) :
  buildLabelKey "http_requests" (request_labels x) =
    "http_requests|method=" +:+ Method x +:+ ",path=" +:+ RoutePath x
      +:+ ",status=" +:+ pretty (StatusCode x)
      +:+ ",tenant=" +:+ (contextx.TenantID (UserContext x)).1.
Proof.
  rewrite buildLabelKey_nonempty.
  2: { unfold request_labels. rewrite map_size_insert. done. }
  rewrite request_labels_keys. unfold request_labels. cbn [fmap list_fmap].
  rewrite lookup_insert_eq.
  rewrite lookup_insert_ne, lookup_insert_eq by done.
  rewrite !lookup_insert_ne, lookup_insert_eq by done.
  rewrite !lookup_insert_ne, lookup_insert_eq by done.
  cbn [default from_option id Join].
  rewrite !string_app_assoc. reflexivity.
Qed.

End RequestSeries.

Lemma request_series_key_witness :
  @buildLabelKey rev_order "http_requests"
    (request_labels
       (mkExchange "GET" "/users" 200 (contextx.WithTenant contextx.Background "acme")
          0 (3 * Millisecond))) =
  "http_requests|method=GET,path=/users,status=200,tenant=acme"%string.
Proof.
  exact (@request_series_key rev_order rev_order_perm
           (mkExchange "GET" "/users" 200 (contextx.WithTenant contextx.Background "acme")
              0 (3 * Millisecond))).
Defined.

(** * Package [contextx] *)

Section Contexts.

Import contextx.

Lemma derived_snoc ds d : derived (ds ++ [d]) = derive (derived ds) d.
Proof. unfold derived. by rewrite foldl_app. Qed.

Lemma last_omap_snoc {A B} (f : A → option B) (l : list A) (x : A) :
  list.last (omap f (l ++ [x])) =
    match f x with Some y => Some y | None => list.last (omap f l) end.
Proof.
  rewrite omap_app. simpl. destruct (f x) as [y|]; simpl.
  - by rewrite last_snoc.
  - by rewrite app_nil_r.
Qed.

Lemma Value_derived (ds : list derivation) :
  Value (derived ds) tenantKey = from_option of_string nil (last_tenant ds) ∧
  Value (derived ds) applicationKey = from_option of_string nil (last_application ds) ∧
  Value (derived ds) apiKeyPrefixKey = from_option of_string nil (last_prefix ds) ∧
  Value (derived ds) tenantAppValuesKey = from_option of_TenantAuthValues nil (last_values ds).
Proof.
  induction ds as [|d ds (IH1 & IH2 & IH3 & IH4)] using rev_ind; [done|].
  rewrite derived_snoc.
  unfold last_tenant, last_application, last_prefix, last_values.
  rewrite !last_omap_snoc.
  destruct d as [s|s|s|v|n val]; simpl; try done.
  unfold WithApplication. destruct (String.eqb s ""); simpl; done.
Qed.

(** X19. What the getters of [contextx] find.  On a context derived from
    the background by any calls of [WithTenant], [WithApplication],
    [WithAPIKeyPrefix], [WithTenantAuthValues] and of [context.WithValue]
    under other keys: [TenantID] and [APIKeyActor] return the tenant and
    the prefix of the last call that set one, the empty string included;
    [AppID] returns the last application that was not empty, an empty one
    erasing nothing; and [TenantAuth] returns the last combined values if
    there are any, even when a tenant or an application was set after
    them, and otherwise the tenant and the application alone, failing when
    there is no tenant. *)
Theorem getters_of_derived (ds : list derivation) :
  TenantID (derived ds) = found (last_tenant ds) ∧
  AppID (derived ds) = found (last_application ds) ∧
  APIKeyActor (derived ds) = found (last_prefix ds) ∧
  TenantAuth (derived ds) =
    match last_values ds with
    | Some values => (values, true)
    | None =>
        match last_tenant ds with
        | Some tenantID =>
            ({| auth_TenantID := tenantID;
                auth_AppID := default ""%string (last_application ds);
                auth_Prefix := ""; auth_LastUsed := None; auth_CreatedAt := None |}, true)
        | None => (zero_values, false)
        end
    end.
Proof.
  destruct (Value_derived ds) as (H1 & H2 & H3 & H4).
  unfold TenantAuth, TenantID, AppID, APIKeyActor. rewrite H1, H2, H3, H4.
  destruct (last_tenant ds), (last_application ds), (last_prefix ds), (last_values ds); done.
Qed.

End Contexts.
